(** * ReactChain: the in-memory ledger engine of [src/services/blockchainService.ts]

    A shallow embedding of the [Blockchain] class (transaction pool,
    proof-of-work miner, chain validator, balance ledger, corruption hook),
    of the helpers of [cryptoService.ts] it calls, and of the two wallet
    signing paths ([confirmSend] of [components/WalletView.tsx] and the
    earlier [handleSend]), followed by the properties of the engine.

    Conventions of the embedding.
    - A JavaScript [number] is a [Z]: every number the engine handles is an
      index, a counter, a millisecond timestamp or a coin amount; on integers
      below [2^53] the arithmetic and the printing of JavaScript are exact.
      Amounts and fees can be fractional in the source: a theorem that
      compares sums of amounts assumes [exact], which keeps them integers
      with every sum in that range, and does not speak of the others.
    - A JavaScript string is a [string], read as the UTF-8 bytes that
      [TextEncoder] produces from it.
    - The platform's WebCrypto calls are the methods of the class
      [WebCrypto]; the FIPS 180-4 digest is also given in full ([SHA256]) so
      that the engine can be run.
    - [Date.now()] and [crypto.randomUUID()] are read from an explicit
      environment value handed to the operation that calls them.
    - A method of the engine is a function from the engine state to a
      completion (normal or thrown) and the state it leaves behind.
    - One call of [next()] on the mining generator is one step of the
      engine: under the single-writer assumption of the specification no
      other method runs between two [await]s of the same call.
    - The handlers of [App.tsx] ([App]) drop that assumption: the search
      suspended at the [await] of its first hash is a state of its own, and
      any handler may run between two resumptions of the search.  The
      generator copies the pool and takes the latest block before that
      [await], reads nothing but the difficulty in the loop, which no
      handler writes while the search runs, and writes the engine only
      after the loop, so these are all the interleavings there are.
      [initialize] is suspended likewise between its test of the chain
      length and its push, at the [await] of the genesis hash.
    - Also embedded: [hexToBuffer] of [cryptoService.ts], [blockActivity]
      and [handleInitiateSend] of [components/WalletView.tsx], and
      [checkSignatures] of the block card that verifies signatures. *)

From Stdlib Require Import ZArith Lia Ascii Uint63.
From stdpp Require Import list strings pretty gmap.

Local Open Scope Z_scope.

(** ** JavaScript primitives used by the engine *)

Module JS.

(** [Number::toString] (and [JSON.stringify]) on an integral number. *)
Definition num_to_string (n : Z) : string := pretty n.

(** [s.substring(0, e)]: a negative end is clamped to [0], an end beyond
    the length to the length. *)
Definition substring0 (e : Z) (s : string) : string :=
  String.substring 0 (Z.to_nat e) s.

Fixpoint repeat_string (s : string) (n : nat) : string :=
  match n with
  | O => ""
  | S n' => s +:+ repeat_string s n'
  end.

(** The errors the engine can raise. *)
Inductive Error :=
| Error_ (message : string)
| TypeError (message : string)
| RangeError (message : string).

(** [Array(n).join(sep)]: [n - 1] separators between [n] empty slots;
    [Array(n)] raises a [RangeError] unless [0 <= n < 2^32]. *)
Definition Array_join (n : Z) (sep : string) : Error + string :=
  if (n <? 0) || (4294967295 <? n) then inl (RangeError "Invalid array length")
  else inr (repeat_string sep (Z.to_nat (n - 1))).

(** A JavaScript string is falsy exactly when it is empty. *)
Definition falsy (s : string) : bool := bool_decide (s = "").

Definition hex_digit (d : Z) : ascii :=
  match d with
  | 0 => "0" | 1 => "1" | 2 => "2" | 3 => "3" | 4 => "4" | 5 => "5"
  | 6 => "6" | 7 => "7" | 8 => "8" | 9 => "9" | 10 => "a" | 11 => "b"
  | 12 => "c" | 13 => "d" | 14 => "e" | _ => "f"
  end%char.

(** [b.toString(16)] for a byte [0 <= b < 256]. *)
Definition byte_toString16 (b : Z) : string :=
  if b <? 16 then String (hex_digit b) ""
  else String (hex_digit (b / 16)) (String (hex_digit (b mod 16)) "").

(** [s.padStart(2, '0')]. *)
Definition padStart2 (s : string) : string :=
  match s with
  | "" => "00"
  | String c "" => String "0" (String c "")
  | _ => s
  end.

(** [QuoteJSONString]: the escapes [JSON.stringify] applies to a string. *)
Definition json_escape_char (c : ascii) : string :=
  let n := Z.of_N (N_of_ascii c) in
  if n =? 8 then "\b" else if n =? 9 then "\t" else if n =? 10 then "\n"
  else if n =? 12 then "\f" else if n =? 13 then "\r"
  else if n =? 34 then String "\" (String c "")
  else if n =? 92 then "\\"
  else if n <? 32 then "\u00" +:+ padStart2 (byte_toString16 n)
  else String c "".

Fixpoint json_escape (s : string) : string :=
  match s with
  | "" => ""
  | String c s' => json_escape_char c +:+ json_escape s'
  end.

Definition dquote : ascii := ascii_of_N 34.

Definition json_string (s : string) : string :=
  String dquote (json_escape s) +:+ String dquote "".

End JS.

(** ** SHA-256 (FIPS 180-4), the digest behind [crypto.subtle.digest]

    A message and its digest are lists of bytes; the 32-bit words of the
    computation are machine integers kept below [2^32]. *)

Module SHA256.

Definition mask : int := 4294967295%uint63.
Definition add (x y : int) : int := Uint63.land (Uint63.add x y) mask.
Definition rotr (n : int) (x : int) : int :=
  Uint63.lor (Uint63.lsr x n)
             (Uint63.land (Uint63.lsl x (Uint63.sub 32 n)) mask).
Definition shr (n : int) (x : int) : int := Uint63.lsr x n.
Definition not32 (x : int) : int := Uint63.lxor x mask.
Definition xor3 (x y z : int) : int := Uint63.lxor (Uint63.lxor x y) z.

Definition Ch (x y z : int) : int :=
  Uint63.lxor (Uint63.land x y) (Uint63.land (not32 x) z).
Definition Maj (x y z : int) : int :=
  xor3 (Uint63.land x y) (Uint63.land x z) (Uint63.land y z).
Definition Sigma0 (x : int) : int := xor3 (rotr 2 x) (rotr 13 x) (rotr 22 x).
Definition Sigma1 (x : int) : int := xor3 (rotr 6 x) (rotr 11 x) (rotr 25 x).
Definition sigma0 (x : int) : int := xor3 (rotr 7 x) (rotr 18 x) (shr 3 x).
Definition sigma1 (x : int) : int := xor3 (rotr 17 x) (rotr 19 x) (shr 10 x).

(** The constants of the standard: the first 32 bits of the fractional
    parts of the cube roots of the first 64 primes, and of the square roots
    of the first 8 primes. *)
Definition is_prime (p : Z) : bool :=
  forallb (fun d => negb (p mod d =? 0)) (seqZ 2 (p - 2)).

Definition primes (n : nat) : list Z := take n (List.filter is_prime (seqZ 2 310)).

(** The integer [k]-th root of [x], bit by bit from the top. *)
Fixpoint root_bits (k : Z) (bits : nat) (x r : Z) : Z :=
  match bits with
  | O => r
  | S bits' =>
      let c := r + 2 ^ Z.of_nat bits' in
      root_bits k bits' x (if c ^ k <=? x then c else r)
  end.

Definition fractional_root (k p : Z) : int :=
  Uint63.of_Z (root_bits k 40 (p * 2 ^ (32 * k)) 0 mod 2 ^ 32).

Definition K : list int := Eval vm_compute in fractional_root 3 <$> primes 64.

Definition H0 : list int := Eval vm_compute in fractional_root 2 <$> primes 8.

(** Padding: the bit [1], zero bits up to 56 modulo 64 bytes, then the
    message length in bits on 8 bytes, most significant first. *)
Fixpoint length_bytes (k : nat) (bits : Z) : list Z :=
  match k with
  | O => []
  | S k' => (bits / 256 ^ Z.of_nat k') mod 256 :: length_bytes k' bits
  end.

Definition pad (msg : list Z) : list Z :=
  let len := Z.of_nat (length msg) in
  let zeros := Z.to_nat ((55 - len) mod 64) in
  msg ++ [128] ++ replicate zeros 0 ++ length_bytes 8 (8 * len).

(** Big-endian bytes to a word and back. *)
Definition be_word (bs : list Z) : int :=
  fold_left (fun acc b => Uint63.lor (Uint63.lsl acc 8) (Uint63.of_Z b)) bs
    0%uint63.

Definition be_bytes (w : int) : list Z :=
  (fun n => Uint63.to_Z (Uint63.land (Uint63.lsr w n) 255%uint63))
    <$> [24; 16; 8; 0]%uint63.

Fixpoint words (n : nat) (bs : list Z) : list int :=
  match n with
  | O => []
  | S n' => be_word (take 4 bs) :: words n' (drop 4 bs)
  end.

(** The message schedule, most recent word first: [w] holds
    [W(t-1), W(t-2), ...]. *)
Definition next_W (w : list int) : int :=
  match w with
  | _ :: w2 :: _ :: _ :: _ :: _ :: w7 :: _ :: _ :: _ :: _ :: _ :: _ :: _
      :: w15 :: w16 :: _ =>
      add (add (sigma1 w2) w7) (add (sigma0 w15) w16)
  | _ => 0%uint63
  end.

Fixpoint extend (n : nat) (w : list int) : list int :=
  match n with
  | O => w
  | S n' => extend n' (next_W w :: w)
  end.

Definition schedule (block : list int) : list int :=
  reverse (extend 48 (reverse block)).

Definition round (s : list int) (kw : int * int) : list int :=
  match s with
  | [a; b; c; d; e; f; g; h] =>
      let t1 := add (add (add h (Sigma1 e)) (add (Ch e f g) kw.1)) kw.2 in
      let t2 := add (Sigma0 a) (Maj a b c) in
      [add t1 t2; a; b; c; add d t1; e; f; g]
  | _ => s
  end.

Definition compress (h : list int) (block : list int) : list int :=
  zip_with add h (fold_left round (zip K (schedule block)) h).

Fixpoint blocks (n : nat) (h : list int) (bs : list Z) : list int :=
  match n with
  | O => h
  | S n' => blocks n' (compress h (words 16 (take 64 bs))) (drop 64 bs)
  end.

(** The 32 bytes of the digest. *)
Definition digest (msg : list Z) : list Z :=
  let padded := pad msg in
  mjoin (be_bytes <$> blocks (length padded / 64)%nat H0 padded).

End SHA256.

(** ** types.ts *)

(** The order of the own properties of a transaction object, which
    [JSON.stringify] follows.  The engine's object literals ([rewardTx], the
    fake transaction of [corruptBlock]) list [id] first; the wallet's
    [{ ...txData, signature }] lists it after [timestamp]. *)
Inductive KeyOrder := IdFirst | IdLast.

Module Transaction.
(** [fee] is not part of the interface of [types.ts]; the objects built by
    [confirmSend] carry it as an extra own property. *)
Record t := mk {
  id : string;
  sender : string;
  recipient : string;
  amount : Z;
  fee : option Z;
  timestamp : Z;
  signature : string;
  keys : KeyOrder
}.

Definition set_amount (a : Z) (tx : t) : t :=
  mk (id tx) (sender tx) (recipient tx) a (fee tx) (timestamp tx)
     (signature tx) (keys tx).
End Transaction.

Module Block.
Record t := mk {
  index : Z;
  timestamp : Z;
  transactions : list Transaction.t;
  previousHash : string;
  hash : string;
  nonce : Z;
  difficulty : Z
}.

Definition set_transactions (txs : list Transaction.t) (b : t) : t :=
  mk (index b) (timestamp b) txs (previousHash b) (hash b) (nonce b)
     (difficulty b).
End Block.

(** ** JSON.stringify on an array of transactions *)

Definition json_member (key value : string) : string :=
  JS.json_string key +:+ ":" +:+ value.

Definition json_fee (tx : Transaction.t) : list string :=
  match Transaction.fee tx with
  | Some f => [json_member "fee" (JS.num_to_string f)]
  | None => []
  end.

Definition json_members (tx : Transaction.t) : list string :=
  let id := json_member "id" (JS.json_string (Transaction.id tx)) in
  let sender := json_member "sender" (JS.json_string (Transaction.sender tx)) in
  let recipient :=
    json_member "recipient" (JS.json_string (Transaction.recipient tx)) in
  let amount := json_member "amount" (JS.num_to_string (Transaction.amount tx)) in
  let timestamp :=
    json_member "timestamp" (JS.num_to_string (Transaction.timestamp tx)) in
  let signature :=
    json_member "signature" (JS.json_string (Transaction.signature tx)) in
  match Transaction.keys tx with
  | IdFirst =>
      [id; sender; recipient; amount] ++ json_fee tx ++ [timestamp; signature]
  | IdLast =>
      [sender; recipient; amount] ++ json_fee tx ++ [timestamp; id; signature]
  end.

Definition json_object (tx : Transaction.t) : string :=
  "{" +:+ String.concat "," (json_members tx) +:+ "}".

Definition JSON_stringify (transactions : list Transaction.t) : string :=
  "[" +:+ String.concat "," (json_object <$> transactions) +:+ "]".

(** ** cryptoService.ts *)

(** The calls into [window.crypto.subtle].  [verifySignature] stands for the
    whole function of that name: hex decoding, key import and ECDSA
    verification inside a [try] whose [catch] returns [false], so it is a
    total boolean function.  [signData] is ECDSA signing under a private key
    handle. *)
Class WebCrypto := {
  CryptoKey : Type;
  subtle_digest_SHA256 : list Z -> list Z;
  verifySignature : string -> string -> string -> bool;
  signData : CryptoKey -> string -> string
}.

(** [new TextEncoder().encode(data)] *)
Definition TextEncoder_encode (data : string) : list Z :=
  (fun c => Z.of_N (N_of_ascii c)) <$> String.list_ascii_of_string data.

Definition bufferToHex (buffer : list Z) : string :=
  String.concat "" ((fun b => JS.padStart2 (JS.byte_toString16 b)) <$> buffer).

Definition sha256 `{WebCrypto} (data : string) : string :=
  bufferToHex (subtle_digest_SHA256 (TextEncoder_encode data)).

Record WalletKeys `{WebCrypto} := {
  publicKey : CryptoKey;
  privateKey : CryptoKey;
  publicKeyPem : string;
  address : string
}.

(** ** blockchainService.ts *)

Record Blockchain := mkBlockchain {
  chain : list Block.t;
  pendingTransactions : list Transaction.t;
  difficulty : Z;
  miningReward : Z
}.

Definition set_chain (c : list Block.t) (st : Blockchain) : Blockchain :=
  mkBlockchain c (pendingTransactions st) (difficulty st) (miningReward st).
Definition set_pendingTransactions (p : list Transaction.t) (st : Blockchain)
  : Blockchain :=
  mkBlockchain (chain st) p (difficulty st) (miningReward st).

(** How a call ends: normally with a value, or by throwing. *)
Inductive Completion (A : Type) :=
| Normal (value : A)
| Throw (e : JS.Error).
Arguments Normal {A} value.
Arguments Throw {A} e.

(** A method: the completion and the engine state after the call. *)
Definition Method (A : Type) : Type := Blockchain -> Completion A * Blockchain.

Definition SYSTEM : string := "SYSTEM".

Definition constructor : Blockchain :=
  {| chain := []; pendingTransactions := []; difficulty := 2;
     miningReward := 100 |}.

(** [index + previousHash + timestamp + JSON.stringify(transactions) + nonce] *)
Definition block_data (index : Z) (previousHash : string) (timestamp : Z)
    (transactions : list Transaction.t) (nonce : Z) : string :=
  JS.num_to_string index +:+ previousHash +:+ JS.num_to_string timestamp
    +:+ JSON_stringify transactions +:+ JS.num_to_string nonce.

Section Engine.
Context `{WebCrypto}.

Definition calculateHash (index : Z) (previousHash : string) (timestamp : Z)
    (transactions : list Transaction.t) (nonce : Z) : string :=
  let data := block_data index previousHash timestamp transactions nonce in
  sha256 data.

Definition createGenesisBlock (now : Z) : Block.t :=
  let timestamp := now in
  let transactions := [] in
  let hash := calculateHash 0 "0" timestamp transactions 0 in
  {| Block.index := 0; Block.timestamp := timestamp;
     Block.transactions := transactions; Block.previousHash := "0";
     Block.hash := hash; Block.nonce := 0; Block.difficulty := 0 |}.

Definition initialize (now : Z) : Method unit := fun st =>
  if bool_decide (length (chain st) = 0%nat)
  then (Normal tt, set_chain (chain st ++ [createGenesisBlock now]) st)
  else (Normal tt, st).

(** [this.chain[this.chain.length - 1]]: [undefined] on an empty chain. *)
Definition getLatestBlock (st : Blockchain) : option Block.t :=
  last (chain st).

Definition addTransaction (transaction : Transaction.t) : Method unit :=
  fun st =>
  if JS.falsy (Transaction.sender transaction)
     || JS.falsy (Transaction.recipient transaction)
  then (Throw (JS.Error_ "Transaction must include sender and recipient"), st)
  else if JS.falsy (Transaction.signature transaction)
  then (Throw (JS.Error_ "No signature in transaction"), st)
  else (Normal tt,
        set_pendingTransactions (pendingTransactions st ++ [transaction]) st).

(** *** minePendingTransactions: an async generator

    The locals of the generator frame that stay fixed once the search has
    started. *)
Record Frame := {
  transactions : list Transaction.t;
  previousBlock : Block.t;
  index : Z;
  timestamp : Z;
  target : string
}.

Record Progress := { nonce : Z; currentHash : string; found : bool }.

(** The result of [next()]: [{ value, done: false }] or [{ value, done: true }]. *)
Inductive IteratorResult :=
| Yielded (value : Progress)
| Returned (value : option Block.t).

(** Where the generator is suspended between two calls of [next()]. *)
Inductive Generator :=
| NotStarted (minerAddress : string)
| AtProgressYield (fr : Frame) (nonce : Z) (hash : string)
| AtFinalYield (newBlock : Block.t)
| Completed.

(** What [Date.now()] and [crypto.randomUUID()] return to the generator. *)
Record MineEnv := {
  randomUUID : string;
  now_reward : Z;
  now_block : Z
}.

Definition hash_at (fr : Frame) (nonce : Z) : string :=
  calculateHash (index fr) (Block.hash (previousBlock fr)) (timestamp fr)
    (transactions fr) nonce.

Inductive LoopExit :=
| TargetMet (nonce : Z) (hash : string)
| ProgressDue (nonce : Z) (hash : string)
| OutOfSteps.

(** The proof-of-work loop from its test up to the next [yield] or exit.
    [steps] bounds the iterations of one such stretch; 500 always suffice
    ([pow_loop_500]). *)
Fixpoint pow_loop (steps : nat) (difficulty : Z) (fr : Frame) (nonce : Z)
    (hash : string) : LoopExit :=
  if bool_decide (JS.substring0 difficulty hash <> target fr) then
    match steps with
    | O => OutOfSteps
    | S steps' =>
        let nonce := nonce + 1 in
        let hash := hash_at fr nonce in
        if Z.rem nonce 500 =? 0 then ProgressDue nonce hash
        else pow_loop steps' difficulty fr nonce hash
    end
  else TargetMet nonce hash.

Definition newBlock (fr : Frame) (nonce : Z) (hash : string) (st : Blockchain)
  : Block.t :=
  {| Block.index := index fr; Block.timestamp := timestamp fr;
     Block.transactions := transactions fr;
     Block.previousHash := Block.hash (previousBlock fr);
     Block.hash := hash; Block.nonce := nonce;
     Block.difficulty := difficulty st |}.

(** [this.chain.push(newBlock); this.pendingTransactions = [];] *)
Definition commit (newBlock : Block.t) (st : Blockchain) : Blockchain :=
  let st := set_chain (chain st ++ [newBlock]) st in
  set_pendingTransactions [] st.

(** Run the generator from the loop test to its next suspension. *)
Definition resume (fr : Frame) (nonce : Z) (hash : string) (st : Blockchain)
  : Completion IteratorResult * Generator * Blockchain :=
  match pow_loop 500 (difficulty st) fr nonce hash with
  | ProgressDue nonce hash =>
      (Normal (Yielded {| nonce := nonce; currentHash := hash; found := false |}),
       AtProgressYield fr nonce hash, st)
  | TargetMet nonce hash =>
      let newBlock := newBlock fr nonce hash st in
      let st := commit newBlock st in
      (Normal (Yielded {| nonce := nonce; currentHash := hash; found := true |}),
       AtFinalYield newBlock, st)
  | OutOfSteps => (Throw (JS.Error_ "unreachable"), Completed, st)
  end.

Definition rewardTx (env : MineEnv) (minerAddress : string) (st : Blockchain)
  : Transaction.t :=
  {| Transaction.id := randomUUID env;
     Transaction.sender := SYSTEM;
     Transaction.recipient := minerAddress;
     Transaction.amount := miningReward st;
     Transaction.fee := None;
     Transaction.timestamp := now_reward env;
     Transaction.signature := "SYSTEM_REWARD";
     Transaction.keys := IdFirst |}.

(** The frame once the statements before the loop have run. *)
Definition initial_frame (env : MineEnv) (minerAddress : string)
    (st : Blockchain) (previousBlock : Block.t) (target : string) : Frame :=
  {| transactions := pendingTransactions st ++ [rewardTx env minerAddress st];
     previousBlock := previousBlock;
     index := Block.index previousBlock + 1;
     timestamp := now_block env;
     target := target |}.

(** One call of [next()] on the generator. *)
Definition next (env : MineEnv) (g : Generator) (st : Blockchain)
  : Completion IteratorResult * Generator * Blockchain :=
  match g with
  | NotStarted minerAddress =>
      match getLatestBlock st with
      | None =>
          (Throw (JS.TypeError "Cannot read properties of undefined"),
           Completed, st)
      | Some previousBlock =>
          match JS.Array_join (difficulty st + 1) "0" with
          | inl e => (Throw e, Completed, st)
          | inr target =>
              let fr := initial_frame env minerAddress st previousBlock target in
              let nonce := 0 in
              let hash := hash_at fr nonce in
              resume fr nonce hash st
          end
      end
  | AtProgressYield fr nonce hash => resume fr nonce hash st
  | AtFinalYield newBlock => (Normal (Returned (Some newBlock)), Completed, st)
  | Completed => (Normal (Returned None), Completed, st)
  end.

(** [generator.return()]: abandon a suspended generator. *)
Definition cancel (g : Generator) (st : Blockchain) : Generator * Blockchain :=
  (Completed, st).

(** The consumer of [App.mineBlock]: call [next()] until [done]; [calls]
    bounds the number of calls. *)
Fixpoint mine_loop (calls : nat) (env : MineEnv) (g : Generator)
    (st : Blockchain) : option (Completion (option Block.t) * Blockchain) :=
  match calls with
  | O => None
  | S calls' =>
      match next env g st with
      | (Normal (Yielded _), g', st') => mine_loop calls' env g' st'
      | (Normal (Returned value), _, st') => Some (Normal value, st')
      | (Throw e, _, st') => Some (Throw e, st')
      end
  end.

(** [k] calls of [next()] each of which yields a progress event with
    [found = false]: the generator and the engine a caller is left with when
    it stops consuming there. *)
Fixpoint progress_calls (k : nat) (env : MineEnv) (g : Generator)
    (st : Blockchain) : option (Generator * Blockchain) :=
  match k with
  | O => Some (g, st)
  | S k' =>
      match next env g st with
      | (Normal (Yielded p), g', st') =>
          if found p then None else progress_calls k' env g' st'
      | _ => None
      end
  end.

Definition mine (calls : nat) (env : MineEnv) (minerAddress : string)
    (st : Blockchain) : option (Completion (option Block.t) * Blockchain) :=
  mine_loop calls env (NotStarted minerAddress) st.

(** *** isChainValid *)

Record ValidationResult := { isValid : bool; errorBlockIndex : Z }.

(** The three [return { isValid: false, ... }] statements of the loop body. *)
Inductive Failure :=
| PreviousHashMismatch
| InvalidSignature (tx : Transaction.t)
| HashMismatch.

Definition dataToVerify (tx : Transaction.t) : string :=
  Transaction.sender tx +:+ Transaction.recipient tx
    +:+ JS.num_to_string (Transaction.amount tx)
    +:+ JS.num_to_string (Transaction.timestamp tx).

(** The inner loop over the transactions of a block: the first transaction
    whose signature is rejected. *)
Fixpoint verifyTransactions (txs : list Transaction.t) : option Transaction.t :=
  match txs with
  | [] => None
  | tx :: txs' =>
      if bool_decide (Transaction.sender tx = SYSTEM) then verifyTransactions txs'
      else
        let isValidSignature :=
          verifySignature (Transaction.sender tx) (Transaction.signature tx)
            (dataToVerify tx) in
        if negb isValidSignature then Some tx else verifyTransactions txs'
  end.

(** The body of the outer loop. *)
Definition checkBlock (previousBlock currentBlock : Block.t) : option Failure :=
  if bool_decide (Block.previousHash currentBlock <> Block.hash previousBlock)
  then Some PreviousHashMismatch
  else
    match verifyTransactions (Block.transactions currentBlock) with
    | Some tx => Some (InvalidSignature tx)
    | None =>
        let hash :=
          calculateHash (Block.index currentBlock)
            (Block.previousHash currentBlock) (Block.timestamp currentBlock)
            (Block.transactions currentBlock) (Block.nonce currentBlock) in
        if bool_decide (Block.hash currentBlock <> hash)
        then Some HashMismatch
        else None
    end.

(** [for (let i = ...; i < this.chain.length; i++)] with [n] iterations
    left; both lookups are in range whenever [1 <= i] and
    [i + n = length chain]. *)
Fixpoint validate_loop (n : nat) (i : nat) (chain : list Block.t)
  : option (nat * Failure) :=
  match n with
  | O => None
  | S n' =>
      match chain !! i, chain !! (i - 1)%nat with
      | Some currentBlock, Some previousBlock =>
          match checkBlock previousBlock currentBlock with
          | Some failure => Some (i, failure)
          | None => validate_loop n' (S i) chain
          end
      | _, _ => None
      end
  end.

Definition validate (chain : list Block.t) : option (nat * Failure) :=
  validate_loop (length chain - 1) 1 chain.

Definition isChainValid (st : Blockchain) : ValidationResult :=
  match validate (chain st) with
  | Some (i, _) => {| isValid := false; errorBlockIndex := Z.of_nat i |}
  | None => {| isValid := true; errorBlockIndex := -1 |}
  end.

(** What [isChainValid] writes with [console.warn]. *)
Definition isChainValid_warnings (st : Blockchain) : list string :=
  match validate (chain st) with
  | Some (i, InvalidSignature tx) =>
      ["Invalid signature detected in block " +:+ JS.num_to_string (Z.of_nat i)
         +:+ ", transaction " +:+ Transaction.id tx]
  | _ => []
  end.

(** *** getBalanceOfAddress

    Amounts and balances are integers here; the source adds and subtracts
    binary64 numbers.  The value computed is the one of the source when the
    amounts are integers and their absolute values add up to [2^53] at most
    over the chain and the pool ([exact (amounts_of st)], defined below):
    the theorems that compare sums carry that condition. *)

Definition committed (address : string) (balance : Z) (trans : Transaction.t)
  : Z :=
  let balance :=
    if bool_decide (Transaction.sender trans = address)
    then balance - Transaction.amount trans else balance in
  if bool_decide (Transaction.recipient trans = address)
  then balance + Transaction.amount trans else balance.

Definition pending (address : string) (balance : Z) (trans : Transaction.t)
  : Z :=
  if bool_decide (Transaction.sender trans = address)
  then balance - Transaction.amount trans else balance.

Definition getBalanceOfAddress (address : string) (st : Blockchain) : Z :=
  let balance := 0 in
  let balance :=
    fold_left
      (fun balance block =>
         fold_left (committed address) (Block.transactions block) balance)
      (chain st) balance in
  fold_left (pending address) (pendingTransactions st) balance.

(** *** Simulation methods *)

Definition setDifficulty (diff : Z) : Method unit := fun st =>
  (Normal tt,
   mkBlockchain (chain st) (pendingTransactions st) diff (miningReward st)).

Definition setMiningReward (amount : Z) : Method unit := fun st =>
  (Normal tt,
   mkBlockchain (chain st) (pendingTransactions st) (difficulty st) amount).

Definition fakeTransaction (now : Z) : Transaction.t :=
  {| Transaction.id := "FAKE"; Transaction.sender := "HACKER";
     Transaction.recipient := "HACKER"; Transaction.amount := 1000000;
     Transaction.fee := None; Transaction.timestamp := now;
     Transaction.signature := "FAKE_SIG"; Transaction.keys := IdFirst |}.

(** What [corruptBlock] does to the block it picks. *)
Definition tamper (now : Z) (block : Block.t) : Block.t :=
  match Block.transactions block with
  | tx0 :: rest =>
      Block.set_transactions (Transaction.set_amount 999999999 tx0 :: rest) block
  | [] =>
      Block.set_transactions (Block.transactions block ++ [fakeTransaction now])
        block
  end.

Definition corruptBlock (now : Z) (index : Z) : Method unit := fun st =>
  if (0 <=? index) && (index <? Z.of_nat (length (chain st)))
  then (Normal tt, set_chain (alter (tamper now) (Z.to_nat index) (chain st)) st)
  else (Normal tt, st).

End Engine.

(** ** The wallet's signing paths *)

Section Wallet.
Context `{WebCrypto}.

(** [confirmSend] of [components/WalletView.tsx]; [amount] and [fee] are
    the values of [parseFloat] on the two inputs.  [None] when the guard
    returns early, otherwise the transaction handed to [onSendTransaction]. *)
Definition confirmSend_dataToSign (wallet : WalletKeys) (recipient : string)
    (amount fee now : Z) : string :=
  publicKeyPem wallet +:+ recipient +:+ JS.num_to_string amount
    +:+ JS.num_to_string fee +:+ JS.num_to_string now.

Definition confirmSend (wallet : WalletKeys) (recipient : string)
    (amount fee now : Z) (uuid : string) : option Transaction.t :=
  if JS.falsy recipient then None
  else
    let dataToSign := confirmSend_dataToSign wallet recipient amount fee now in
    let signature := signData (privateKey wallet) dataToSign in
    Some {| Transaction.sender := publicKeyPem wallet;
            Transaction.recipient := recipient;
            Transaction.amount := amount;
            Transaction.fee := Some fee;
            Transaction.timestamp := now;
            Transaction.id := uuid;
            Transaction.signature := signature;
            Transaction.keys := IdLast |}.

(** [handleSend], the wallet of the fee-less transaction shape. *)
Definition handleSend_dataToSign (wallet : WalletKeys) (recipient : string)
    (amount now : Z) : string :=
  publicKeyPem wallet +:+ recipient +:+ JS.num_to_string amount
    +:+ JS.num_to_string now.

Definition handleSend (wallet : WalletKeys) (recipient : string)
    (amount now : Z) (uuid : string) : option Transaction.t :=
  if JS.falsy recipient then None
  else
    let dataToSign := handleSend_dataToSign wallet recipient amount now in
    let signature := signData (privateKey wallet) dataToSign in
    Some {| Transaction.sender := publicKeyPem wallet;
            Transaction.recipient := recipient;
            Transaction.amount := amount;
            Transaction.fee := None;
            Transaction.timestamp := now;
            Transaction.id := uuid;
            Transaction.signature := signature;
            Transaction.keys := IdLast |}.

End Wallet.

(** ** The error taxonomy of the specification *)

Inductive TxError := MissingField | MissingSignature.

Definition TxError_of (e : JS.Error) : option TxError :=
  match e with
  | JS.Error_ message =>
      if bool_decide (message = "Transaction must include sender and recipient")
      then Some MissingField
      else if bool_decide (message = "No signature in transaction")
      then Some MissingSignature
      else None
  | _ => None
  end.

(** ** The validator, read off the chain as a list *)

Section Validator.
Context `{WebCrypto}.

(** The first block, walking a chain from a block [previousBlock] at index
    [i - 1], on which a check fails. *)
Fixpoint first_failure (i : nat) (previousBlock : Block.t)
    (rest : list Block.t) : option (nat * Failure) :=
  match rest with
  | [] => None
  | currentBlock :: rest' =>
      match checkBlock previousBlock currentBlock with
      | Some failure => Some (i, failure)
      | None => first_failure (S i) currentBlock rest'
      end
  end.

(** The three conditions of the specification on the block at index [i]. *)
Definition link_broken (previousBlock currentBlock : Block.t) : Prop :=
  Block.previousHash currentBlock <> Block.hash previousBlock.

Definition signature_rejected (tx : Transaction.t) : Prop :=
  Transaction.sender tx <> SYSTEM /\
  verifySignature (Transaction.sender tx) (Transaction.signature tx)
    (dataToVerify tx) = false.

Definition hash_stale (currentBlock : Block.t) : Prop :=
  Block.hash currentBlock <>
  calculateHash (Block.index currentBlock) (Block.previousHash currentBlock)
    (Block.timestamp currentBlock) (Block.transactions currentBlock)
    (Block.nonce currentBlock).

Definition block_fails (previousBlock currentBlock : Block.t) : Prop :=
  link_broken previousBlock currentBlock
  \/ (exists tx, tx ∈ Block.transactions currentBlock /\ signature_rejected tx)
  \/ hash_stale currentBlock.

Definition fails_at (chain : list Block.t) (i : nat) : Prop :=
  exists previousBlock currentBlock,
    chain !! (i - 1)%nat = Some previousBlock /\
    chain !! i = Some currentBlock /\
    block_fails previousBlock currentBlock.

End Validator.

(** ** The proof-of-work target, as the specification words it *)

(** The first [d] characters of [h] exist and are all the character 0. *)
Definition leading_zeros (d : Z) (h : string) : Prop :=
  forall k, 0 <= k < d -> String.get (Z.to_nat k) h = Some "0"%char.

(** ** The shape of a serialized transaction *)

(** The members of a transaction that come before and after [amount]. *)
Definition members_before (tx : Transaction.t) : list string :=
  let id := json_member "id" (JS.json_string (Transaction.id tx)) in
  let sender := json_member "sender" (JS.json_string (Transaction.sender tx)) in
  let recipient :=
    json_member "recipient" (JS.json_string (Transaction.recipient tx)) in
  match Transaction.keys tx with
  | IdFirst => [id; sender; recipient]
  | IdLast => [sender; recipient]
  end.

Definition members_after (tx : Transaction.t) : list string :=
  let id := json_member "id" (JS.json_string (Transaction.id tx)) in
  let timestamp :=
    json_member "timestamp" (JS.num_to_string (Transaction.timestamp tx)) in
  let signature :=
    json_member "signature" (JS.json_string (Transaction.signature tx)) in
  match Transaction.keys tx with
  | IdFirst => json_fee tx ++ [timestamp; signature]
  | IdLast => json_fee tx ++ [timestamp; id; signature]
  end.

(** [String.concat] around one element: what precedes it, what follows it. *)
Definition joined_before (l : list string) : string :=
  foldr (fun x acc => x +:+ "," +:+ acc) "" l.

Definition joined_after (l : list string) : string :=
  match l with
  | [] => ""
  | _ => "," +:+ String.concat "," l
  end.

(** ** The balance, as the specification words it *)

Definition credit (address : string) (tx : Transaction.t) : Z :=
  if bool_decide (Transaction.recipient tx = address)
  then Transaction.amount tx else 0.

Definition debit (address : string) (tx : Transaction.t) : Z :=
  if bool_decide (Transaction.sender tx = address)
  then Transaction.amount tx else 0.

Definition fee_debit (address : string) (tx : Transaction.t) : Z :=
  if bool_decide (Transaction.sender tx = address)
  then default 0 (Transaction.fee tx) else 0.

Definition sumZ (l : list Z) : Z := foldr Z.add 0 l.

(** The committed transactions, in chain order. *)
Definition ledger (chain : list Block.t) : list Transaction.t :=
  mjoin (Block.transactions <$> chain).

(** Credits minus debits over the chain, minus the debits of the pool. *)
Definition balance_by_amount (address : string) (st : Blockchain) : Z :=
  sumZ ((fun tx => credit address tx - debit address tx) <$> ledger (chain st))
  - sumZ (debit address <$> pendingTransactions st).

(** The same with the fee of each transaction debited from its sender. *)
Definition balance_with_fee (address : string) (st : Blockchain) : Z :=
  balance_by_amount address st
  - sumZ (fee_debit address <$> (ledger (chain st) ++ pendingTransactions st)).

(** ** The amounts on which the sums of the model are those of the source

    The source computes with the numbers of JavaScript: the amounts and the
    fees are the binary64 values [parseFloat] reads from the forms, and
    every [+], [-], [+=] and [-=] rounds its result to binary64.  The model
    computes with integers.  The two agree on amounts that are integers as
    long as no sum the code forms leaves the range from [-2^53] to [2^53],
    in which binary64 holds every integer and rounds none; on fractional
    amounts, or beyond that range, the sums of the source depend on the
    order of the additions and the statements about sums do not apply.
    [exact amounts] bounds the sum of the absolute values of the numbers
    that enter a computation, hence each of them and every partial sum of
    them, in whatever order and with whatever signs the code adds them. *)

Definition total (amounts : list Z) : Z := sumZ (Z.abs <$> amounts).

Definition exact (amounts : list Z) : Prop := total amounts <= 2 ^ 53.

(** The amounts [getBalanceOfAddress] reads: those of the chain, then those
    of the pool. *)
Definition amounts_of (st : Blockchain) : list Z :=
  Transaction.amount <$> (ledger (chain st) ++ pendingTransactions st).

(** The fee [blockActivity] reads, [tx.fee || 0]. *)
Definition fee_or_0 (tx : Transaction.t) : Z := default 0 (Transaction.fee tx).

(** ** A runnable instance

    The digest is SHA-256 itself.  ECDSA is not modelled: a signature is
    stood in for by the digest of the key followed by the message, with the
    public key equal to the private one, so that verification accepts
    exactly the signature of the same message under the same key. *)

Module Demo.

Definition tag (key data : string) : string :=
  bufferToHex (SHA256.digest (TextEncoder_encode (key +:+ data))).

Definition browser : WebCrypto :=
  {| CryptoKey := string;
     subtle_digest_SHA256 := SHA256.digest;
     verifySignature := fun publicKeyHex signatureHex data =>
       bool_decide (signatureHex = tag publicKeyHex data);
     signData := fun privateKey data => tag privateKey data |}.

Definition wallet (key : string) : @WalletKeys browser :=
  {| publicKey := key : @CryptoKey browser; privateKey := key;
     publicKeyPem := key; address := key |}.

Definition env_at (uuid : string) (t : Z) : MineEnv :=
  {| randomUUID := uuid; now_reward := t - 1; now_block := t |}.

(** [App.handleTransaction]: submit, and keep the engine on an error. *)
Definition handleTransaction (tx : option Transaction.t) (st : Blockchain)
  : Blockchain :=
  match tx with
  | Some tx => (addTransaction tx st).2
  | None => st
  end.

Definition block_of (r : option (Completion (option Block.t) * Blockchain))
  : option Block.t :=
  match r with
  | Some (Normal (Some b), _) => Some b
  | _ => None
  end.

Definition state_of (st : Blockchain)
    (r : option (Completion (option Block.t) * Blockchain)) : Blockchain :=
  match r with
  | Some (_, st') => st'
  | None => st
  end.

(** The engine after [initialize()]. *)
Definition genesis_block : Block.t := @createGenesisBlock browser 1700000000000.
Definition genesis_state : Blockchain :=
  (@initialize browser 1700000000000 constructor).2.

(** Wallet A1 mines the empty pool. *)
Definition env1 : MineEnv :=
  env_at "3b241101-e2bb-4255-8caf-4136c566a962" 1700000060022.
Definition first_run := @mine browser 2 env1 "A1" genesis_state.
Definition first_block : Block.t := default genesis_block (block_of first_run).
Definition first_state : Blockchain := state_of genesis_state first_run.

(** A1 sends 10 to B2 through [handleSend]; C3 mines. *)
Definition tx_plain : option Transaction.t :=
  @handleSend browser (wallet "A1") "B2" 10 1700000090000
    "7f0c9d3e-52a1-4c1b-9a58-0d6f4e2b8c11".
Definition plain_pending : Blockchain := handleTransaction tx_plain first_state.
Definition env2 (t : Z) : MineEnv :=
  env_at "9e107d9d-372b-4b68-a6d5-2f0a4b5c6d7e" t.
Definition plain_run := @mine browser 2 (env2 1700000120063) "C3" plain_pending.
Definition plain_block : Block.t := default genesis_block (block_of plain_run).
Definition plain_state : Blockchain := state_of plain_pending plain_run.

(** A1 sends 10 to B2 with a fee of 1 through [confirmSend]; C3 mines. *)
Definition tx_fee : option Transaction.t :=
  @confirmSend browser (wallet "A1") "B2" 10 1 1700000090000
    "7f0c9d3e-52a1-4c1b-9a58-0d6f4e2b8c11".
Definition fee_pending : Blockchain := handleTransaction tx_fee first_state.
Definition fee_run := @mine browser 2 (env2 1700000120033) "C3" fee_pending.
Definition fee_state : Blockchain := state_of fee_pending fee_run.

(** A transaction nobody signed, sent in the name of the system. *)
Definition forged : Transaction.t :=
  {| Transaction.id := "c0ffee00-0000-4000-8000-000000000001";
     Transaction.sender := SYSTEM; Transaction.recipient := "E5";
     Transaction.amount := 1000000; Transaction.fee := None;
     Transaction.timestamp := 1700000090000; Transaction.signature := "x";
     Transaction.keys := IdFirst |}.
Definition forged_run :=
  @mine browser 2 (env2 1700000120020) "C3" (addTransaction forged first_state).2.
Definition forged_block : Block.t := default genesis_block (block_of forged_run).
Definition forged_state : Blockchain := state_of first_state forged_run.

(** The reward is set to the amount [corruptBlock] writes, and the
    difficulty to 0; A1 mines. *)
Definition rich_run :=
  @mine browser 2 env1 "A1"
    (setDifficulty 0 (setMiningReward 999999999 genesis_state).2).2.
Definition rich_state : Blockchain := state_of genesis_state rich_run.

(** A search that is still running after its first 500 attempts. *)
Definition busy_state : Blockchain := (setDifficulty 5 genesis_state).2.
Definition generator_of (r : option (Generator * Blockchain)) : Generator :=
  match r with
  | Some (g, _) => g
  | None => Completed
  end.
Definition busy_generator : Generator :=
  generator_of (@progress_calls browser 1 env1 (NotStarted "A1") busy_state).

(** A transaction without a signature. *)
Definition unsigned : Transaction.t :=
  {| Transaction.id := "0a1b2c3d-0000-4000-8000-000000000002";
     Transaction.sender := "A1"; Transaction.recipient := "B2";
     Transaction.amount := 10; Transaction.fee := None;
     Transaction.timestamp := 1700000090000; Transaction.signature := "";
     Transaction.keys := IdLast |}.

End Demo.

(** ** cryptoService.ts: hexToBuffer

    [hex.match(/.{1,2}/g)?.map(byte => parseInt(byte, 16)) || []] wrapped in
    a [Uint8Array].  The string is read as ASCII characters here (a
    character beyond ASCII is one UTF-16 unit for the regular expression but
    several bytes of the string). *)

(** A line terminator, which [.] does not match. *)
Definition is_line_terminator (c : ascii) : bool :=
  let n := N_of_ascii c in ((n =? 10) || (n =? 13))%N.

(** The matches of [/.{1,2}/g], left to right, each as long as it can be. *)
Fixpoint match_pairs (s : string) : list string :=
  match s with
  | "" => []
  | String c1 s1 =>
      if is_line_terminator c1 then match_pairs s1
      else
        match s1 with
        | "" => [String c1 ""]
        | String c2 s2 =>
            if is_line_terminator c2 then String c1 "" :: match_pairs s2
            else String c1 (String c2 "") :: match_pairs s2
        end
  end.

(** The white space [parseInt] skips at the start of its argument. *)
Definition is_space (c : ascii) : bool :=
  let n := N_of_ascii c in
  ((n =? 9) || (n =? 10) || (n =? 11) || (n =? 12) || (n =? 13) || (n =? 32))%N.

Fixpoint trim_start (s : string) : string :=
  match s with
  | "" => ""
  | String c s' => if is_space c then trim_start s' else s
  end.

Definition hex_value (c : ascii) : option Z :=
  let n := Z.of_N (N_of_ascii c) in
  if (48 <=? n) && (n <=? 57) then Some (n - 48)
  else if (97 <=? n) && (n <=? 102) then Some (n - 87)
  else if (65 <=? n) && (n <=? 70) then Some (n - 55)
  else None.

(** The value of the longest prefix of hexadecimal digits; [acc] is [None]
    as long as no digit has been read. *)
Fixpoint digits16 (s : string) (acc : option Z) : option Z :=
  match s with
  | "" => acc
  | String c s' =>
      match hex_value c with
      | Some v => digits16 s' (Some (16 * default 0 acc + v))
      | None => acc
      end
  end.

(** [parseInt(s, 16)]; [None] is [NaN]. *)
Definition parseInt16 (s : string) : option Z :=
  let s := trim_start s in
  let '(sign, s) :=
    match s with
    | String c s' =>
        if Ascii.eqb c "-" then (-1, s')
        else if Ascii.eqb c "+" then (1, s')
        else (1, s)
    | "" => (1, s)
    end in
  let s :=
    match s with
    | String c0 (String c1 s') =>
        if Ascii.eqb c0 "0" && (Ascii.eqb c1 "x" || Ascii.eqb c1 "X")
        then s' else s
    | _ => s
    end in
  (fun v => sign * v) <$> digits16 s None.

(** The conversion of a number stored into a [Uint8Array]. *)
Definition ToUint8 (x : option Z) : Z :=
  match x with
  | None => 0
  | Some z => z mod 256
  end.

Definition hexToBuffer (hex : string) : list Z :=
  (fun byte => ToUint8 (parseInt16 byte)) <$> match_pairs hex.

Definition ascii_only (s : string) : Prop :=
  forall c, c ∈ String.list_ascii_of_string s -> (N_of_ascii c < 128)%N.

Definition no_line_terminator (s : string) : Prop :=
  forall c, c ∈ String.list_ascii_of_string s -> is_line_terminator c = false.

(** One byte printed by [bufferToHex] and read back by [hexToBuffer]. *)
Definition byte_round_trip (b : Z) : bool :=
  match JS.padStart2 (JS.byte_toString16 b) with
  | String c1 (String c2 "") =>
      negb (is_line_terminator c1) && negb (is_line_terminator c2)
      && (ToUint8 (parseInt16 (String c1 (String c2 ""))) =? b)
  | _ => false
  end.

(** ** App.tsx: the handlers that call the engine

    The engine is the module-level [blockchain] object.  A handler runs to
    its end or to its first [await] without interruption.  Two operations
    keep locals across an [await] and write the engine afterwards, the
    mining operation and [initialize]; their suspensions are part of the
    state. *)

Module App.
Section Handlers.
Context `{WebCrypto}.

(** Where [mineBlock] stands: not running ([status] is not [MINING]),
    suspended in the generator at the [await] of the first hash, with the
    locals computed so far, or suspended between two calls of [next()]. *)
Inductive Mining :=
| Idle
| AwaitingFirstHash (env : MineEnv) (transactions : list Transaction.t)
    (previousBlock : Block.t)
| Suspended (env : MineEnv) (g : Generator).

(** [initializing] holds the genesis blocks of the calls of [initialize]
    that have passed the test of the chain length and wait for their hash:
    each of them will be pushed when its call is resumed. *)
Record State := {
  blockchain : Blockchain;
  mining : Mining;
  initializing : list Block.t
}.

Definition with_blockchain (st : Blockchain) (s : State) : State :=
  {| blockchain := st; mining := mining s; initializing := initializing s |}.

Definition with_mining (m : Mining) (s : State) : State :=
  {| blockchain := blockchain s; mining := m; initializing := initializing s |}.

(** The state once the module is loaded. *)
Definition start : State :=
  {| blockchain := constructor; mining := Idle; initializing := [] |}.

(** The effect that calls [blockchain.initialize()], up to the [await] of
    the genesis hash: the chain length is tested and [Date.now()] is read. *)
Definition init (now : Z) (s : State) : State :=
  if bool_decide (length (chain (blockchain s)) = 0%nat)
  then {| blockchain := blockchain s; mining := mining s;
          initializing := initializing s ++ [createGenesisBlock now] |}
  else s.

(** The call of [initialize] at position [k] among the suspended ones is
    resumed: [this.chain.push(genesisBlock)], whatever the chain holds by
    then. *)
Definition initialized (k : nat) (s : State) : State :=
  match initializing s !! k with
  | Some genesisBlock =>
      {| blockchain :=
           set_chain (chain (blockchain s) ++ [genesisBlock]) (blockchain s);
         mining := mining s;
         initializing := delete k (initializing s) |}
  | None => s
  end.

(** [handleTransaction]: the error of [addTransaction] is caught and shown
    with [alert]. *)
Definition handleTransaction (tx : Transaction.t) (s : State) : State :=
  with_blockchain (addTransaction tx (blockchain s)).2 s.

Definition updateSettings (difficulty reward : Z) (st : Blockchain)
  : Blockchain :=
  (setMiningReward reward (setDifficulty difficulty st).2).2.

(** What follows a completion of [miner.next()] in the loop of [mineBlock]:
    [done] and a thrown error both end the operation. *)
Definition settle (env : MineEnv)
    (r : Completion IteratorResult * Generator * Blockchain) (s : State)
  : State :=
  match r with
  | (Normal (Yielded _), g, st) =>
      with_mining (Suspended env g) (with_blockchain st s)
  | (_, _, st) => with_mining Idle (with_blockchain st s)
  end.

(** [mineBlock] up to the first [await] inside the generator: the settings
    are written, the reward transaction, the copy of the pool and the
    latest block are taken.  The button is disabled while [status] is
    [MINING], and nothing is mined without a wallet. *)
Definition mineBlock (env : MineEnv) (wallet : option string)
    (difficulty reward : Z) (s : State) : State :=
  match wallet, mining s with
  | Some publicKeyPem, Idle =>
      let st := updateSettings difficulty reward (blockchain s) in
      let transactions :=
        pendingTransactions st ++ [rewardTx env publicKeyPem st] in
      match getLatestBlock st with
      | None => with_mining Idle (with_blockchain st s)
      | Some previousBlock =>
          with_mining (AwaitingFirstHash env transactions previousBlock)
            (with_blockchain st s)
      end
  | _, _ => s
  end.

(** The mining operation resumed by the event loop, up to its next
    suspension. *)
Definition resumeMining (s : State) : State :=
  let st := blockchain s in
  match mining s with
  | Idle => s
  | AwaitingFirstHash env txs latest =>
      match JS.Array_join (difficulty st + 1) "0" with
      | inl e => with_mining Idle s
      | inr target =>
          let fr :=
            {| transactions := txs;
               previousBlock := latest;
               index := Block.index latest + 1;
               timestamp := now_block env;
               target := target |} in
          settle env (resume fr 0 (hash_at fr 0) st) s
      end
  | Suspended env g => settle env (next env g st) s
  end.

(** [handleTamperBlock], the dialog confirmed. *)
Definition handleTamperBlock (now : Z) (selectedBlock : option Block.t)
    (s : State) : State :=
  match selectedBlock with
  | None => s
  | Some block =>
      with_blockchain (corruptBlock now (Block.index block) (blockchain s)).2 s
  end.

Definition userTxs (selectedBlock : Block.t) : list Transaction.t :=
  filter (fun tx => Transaction.sender tx <> SYSTEM)
    (Block.transactions selectedBlock).

(** [userTxs.forEach(tx => blockchain.addTransaction({ ...tx }))] *)
Fixpoint forEach_addTransaction (txs : list Transaction.t) : Method unit :=
  fun st =>
  match txs with
  | [] => (Normal tt, st)
  | tx :: txs' =>
      match addTransaction tx st with
      | (Normal _, st') => forEach_addTransaction txs' st'
      | (Throw e, st') => (Throw e, st')
      end
  end.

(** [handleReplayTransactions]; the value is the text passed to [alert]. *)
Definition handleReplayTransactions (selectedBlock : option Block.t)
  : Method (option string) := fun st =>
  match selectedBlock with
  | None => (Normal None, st)
  | Some block =>
      if bool_decide (length (userTxs block) = 0%nat)
      then (Normal (Some "No replayable user transactions found in this block."),
            st)
      else
        match forEach_addTransaction (userTxs block) st with
        | (Normal _, st') =>
            (Normal (Some (JS.num_to_string (Z.of_nat (length (userTxs block)))
               +:+ " transactions re-added to Mempool! Mine a new block to verify they can be processed again (Replay Attack).")),
             st')
        | (Throw e, st') => (Throw e, st')
        end
  end.

(** [relevantWalletTransactions] *)
Definition relevantWalletTransactions (wallet : option string)
    (selectedBlock : option Block.t) : list Transaction.t :=
  match wallet, selectedBlock with
  | Some publicKeyPem, Some block =>
      filter (fun tx => Transaction.sender tx = publicKeyPem
                        \/ Transaction.recipient tx = publicKeyPem)
        (Block.transactions block)
  | _, _ => []
  end.

(** What the user and the event loop do: the block of a click is the one
    selected, at position [i] of the chain; [Init] is a call of the effect
    that initializes the engine, [Initialized k] the resumption of the
    suspended call at position [k], [Resume] the one of the search. *)
Inductive Event :=
| Init (now : Z)
| Initialized (k : nat)
| Send (tx : Transaction.t)
| Mine (env : MineEnv) (wallet : option string) (difficulty reward : Z)
| Resume
| Tamper (now : Z) (i : nat)
| Replay (i : nat).

Definition handle (e : Event) (s : State) : State :=
  match e with
  | Init now => init now s
  | Initialized k => initialized k s
  | Send tx => handleTransaction tx s
  | Mine env wallet difficulty reward => mineBlock env wallet difficulty reward s
  | Resume => resumeMining s
  | Tamper now i => handleTamperBlock now (chain (blockchain s) !! i) s
  | Replay i =>
      with_blockchain
        (handleReplayTransactions (chain (blockchain s) !! i) (blockchain s)).2 s
  end.

Definition run (events : list Event) (s : State) : State :=
  fold_left (fun s e => handle e s) events s.

Definition reachable (s : State) : Prop := exists events, run events start = s.

(** What [addTransaction] asks of a transaction. *)
Definition accepted (tx : Transaction.t) : Prop :=
  Transaction.sender tx <> "" /\ Transaction.recipient tx <> ""
  /\ Transaction.signature tx <> "".

(** A list of transactions that ends with a reward of the miner. *)
Definition ends_with_reward (txs : list Transaction.t) : Prop :=
  exists user reward,
    txs = user ++ [reward] /\ Transaction.sender reward = SYSTEM
    /\ Transaction.signature reward = "SYSTEM_REWARD".

(** The fields of a block outside its transactions. *)
Definition same_header (b b' : Block.t) : Prop :=
  Block.index b' = Block.index b
  /\ Block.timestamp b' = Block.timestamp b
  /\ Block.previousHash b' = Block.previousHash b
  /\ Block.hash b' = Block.hash b
  /\ Block.nonce b' = Block.nonce b
  /\ Block.difficulty b' = Block.difficulty b.

(** The locals of a suspended search agree with the chain: the block taken
    as [previousBlock] is still the latest one, up to its transactions. *)
Definition fits (chain : list Block.t) (transactions : list Transaction.t)
    (previousBlock : Block.t) : Prop :=
  (exists L, last chain = Some L /\ same_header previousBlock L)
  /\ ends_with_reward transactions
  /\ (forall tx, tx ∈ transactions -> Transaction.sender tx <> SYSTEM ->
                 accepted tx).

Definition mining_fits (chain : list Block.t) (m : Mining) : Prop :=
  match m with
  | Idle => True
  | AwaitingFirstHash _ transactions previousBlock =>
      fits chain transactions previousBlock
  | Suspended _ (AtProgressYield fr _ _) =>
      fits chain (transactions fr) (previousBlock fr)
      /\ index fr = Block.index (previousBlock fr) + 1
  | Suspended _ (AtFinalYield _) => True
  | Suspended _ _ => False
  end.

(** What every handler keeps true of the transactions. *)
Record Wellformed (s : State) : Prop := {
  wf_user : forall i b tx,
    chain (blockchain s) !! i = Some b -> tx ∈ Block.transactions b ->
    Transaction.sender tx <> SYSTEM -> accepted tx;
  wf_pool : forall tx,
    tx ∈ pendingTransactions (blockchain s) -> accepted tx;
  wf_mining : match mining s with
              | AwaitingFirstHash _ txs _ =>
                  forall tx, tx ∈ txs -> Transaction.sender tx <> SYSTEM ->
                             accepted tx
              | Suspended _ (AtProgressYield fr _ _) =>
                  forall tx, tx ∈ transactions fr ->
                             Transaction.sender tx <> SYSTEM -> accepted tx
              | Suspended _ (NotStarted _) => False
              | _ => True
              end;
  wf_init : forall g, g ∈ initializing s -> Block.transactions g = []
}.

(** No two calls of [initialize] are ever suspended together along the
    events. *)
Definition sequential (events : list Event) : Prop :=
  forall k, (length (initializing (run (take k events) start)) <= 1)%nat.

Definition is_Init (e : Event) : bool :=
  match e with
  | Init _ => true
  | _ => false
  end.

(** What every handler keeps true as long as no two calls of [initialize]
    are suspended together. *)
Record Invariant (s : State) : Prop := {
  inv_index : forall i b,
    chain (blockchain s) !! i = Some b -> Block.index b = Z.of_nat i;
  inv_link : forall i p c,
    chain (blockchain s) !! i = Some p ->
    chain (blockchain s) !! S i = Some c ->
    Block.previousHash c = Block.hash p;
  inv_genesis : forall b,
    chain (blockchain s) !! 0%nat = Some b ->
    Block.previousHash b = "0" /\ Block.nonce b = 0 /\ Block.difficulty b = 0;
  inv_mined : forall i b,
    chain (blockchain s) !! S i = Some b ->
    ends_with_reward (Block.transactions b);
  inv_user : forall i b tx,
    chain (blockchain s) !! i = Some b -> tx ∈ Block.transactions b ->
    Transaction.sender tx <> SYSTEM -> accepted tx;
  inv_pool : forall tx,
    tx ∈ pendingTransactions (blockchain s) -> accepted tx;
  inv_mining : mining_fits (chain (blockchain s)) (mining s);
  inv_init : match initializing s with
             | [] => True
             | [g] => chain (blockchain s) = []
                      /\ exists now, g = createGenesisBlock now
             | _ => False
             end
}.

(** What may happen to a committed transaction, and to a committed block. *)
Definition amount_rewritten (tx tx' : Transaction.t) : Prop :=
  tx' = tx \/ tx' = Transaction.set_amount 999999999 tx.

Definition kept (b b' : Block.t) : Prop :=
  same_header b b'
  /\ (Block.transactions b <> [] ->
      Forall2 amount_rewritten (Block.transactions b) (Block.transactions b')).

(** The transactions a suspended search will commit. *)
Definition snapshot (m : Mining) : option (list Transaction.t) :=
  match m with
  | AwaitingFirstHash _ transactions _ => Some transactions
  | Suspended _ (AtProgressYield fr _ _) => Some (transactions fr)
  | _ => None
  end.

(** An event other than a click on the mining button. *)
Definition not_a_click (e : Event) : Prop :=
  forall env wallet difficulty reward, e <> Mine env wallet difficulty reward.

(** A mining operation that will not write the engine any more. *)
Definition finished (m : Mining) : Prop :=
  match m with
  | Idle | Suspended _ (AtFinalYield _) | Suspended _ Completed => True
  | _ => False
  end.

End Handlers.
End App.

(** The handlers on the runnable instance. *)
Module Session.
Import Demo.

(** The page is opened. *)
Definition opened : App.State :=
  @App.run browser [App.Init 1700000000000; App.Initialized 0] App.start.

(** The transfer of [tx_plain], as the wallet hands it to [App]. *)
Definition late : Transaction.t := default forged tx_plain.

(** Wallet A1 clicks on the mining button, and the transfer is sent before
    the search is resumed. *)
Definition overtaken : App.State :=
  @App.run browser [App.Send late]
    (App.mineBlock env1 (Some "A1") 2 100 opened).

(** The clicks behind [plain_state]: A1 mines, sends 10 to B2, C3 mines. *)
Definition history : list App.Event :=
  [App.Init 1700000000000; App.Initialized 0;
   App.Mine env1 (Some "A1") 2 100; App.Resume; App.Resume;
   App.Send late;
   App.Mine (env2 1700000120063) (Some "C3") 2 100; App.Resume; App.Resume].
Definition paid : App.State := @App.run browser history App.start.

(** The block of the transfer from A1 to B2 is selected and replayed; D4
    mines. *)
Definition replay_result : Completion (option string) * Blockchain :=
  App.handleReplayTransactions (Some plain_block) plain_state.
Definition replayed : Blockchain := replay_result.2.
Definition replay_alert : option string :=
  match replay_result.1 with
  | Normal alert => alert
  | Throw _ => None
  end.
Definition env3 : MineEnv :=
  env_at "1c8a4f2e-6b7d-4e1a-9c3f-5d2e8a7b4c60" 1700000180083.
Definition replay_run := @mine browser 2 env3 "D4" replayed.
Definition replay_block : Block.t :=
  default genesis_block (block_of replay_run).
Definition replay_state : Blockchain := state_of replayed replay_run.

(** The block mined over the transfer [confirmSend] signed. *)
Definition fee_block : Block.t := default genesis_block (block_of fee_run).

(** The engine with the difficulty set beyond the length of a hash. *)
Definition stuck_state : Blockchain := (setDifficulty 65 genesis_state).2.

(** The engine with the difficulty set to 0. *)
Definition free_state : Blockchain := (setDifficulty 0 genesis_state).2.

(** A second stand-in for ECDSA, which shows the message: the signature is
    the key followed by the message.  Verification under a key accepts the
    signature of a message for that message and for no other. *)
Definition readable : WebCrypto :=
  {| CryptoKey := string;
     subtle_digest_SHA256 := SHA256.digest;
     verifySignature := fun publicKeyHex signatureHex data =>
       bool_decide (signatureHex = publicKeyHex +:+ data);
     signData := fun privateKey data => privateKey +:+ data |}.

Definition readable_wallet (key : string) : @WalletKeys readable :=
  {| publicKey := key : @CryptoKey readable; privateKey := key;
     publicKeyPem := key; address := key |}.

End Session.

(** ** WalletView.tsx: the activity of the wallet in the selected block *)

Record Activity := { received : Z; sent : Z; net : Z }.

(** [blockActivity]; [publicKeyPem] is the one of the connected wallet,
    [None] without a wallet.  [tx.fee || 0] is the fee, or 0 for a
    transaction that carries none.  The three sums are those of the source,
    which rounds each addition to binary64, when the amounts and fees are
    integers whose absolute values add up to [2^53] at most. *)
Definition blockActivity (relevantTransactions : list Transaction.t)
    (wallet : option string) : option Activity :=
  match wallet with
  | Some publicKeyPem =>
      if bool_decide (length relevantTransactions = 0%nat) then None
      else
        let '(received, sent) :=
          fold_left
            (fun '(received, sent) tx =>
               let received :=
                 if bool_decide (Transaction.recipient tx = publicKeyPem)
                 then received + Transaction.amount tx else received in
               let sent :=
                 if bool_decide (Transaction.sender tx = publicKeyPem)
                 then sent + (Transaction.amount tx
                              + default 0 (Transaction.fee tx))
                 else sent in
               (received, sent))
            relevantTransactions (0, 0) in
        Some {| received := received; sent := sent; net := received - sent |}
  | None => None
  end.


(** ** BlockCard (the card that verifies signatures): [checkSignatures] *)

Section BlockCard.
Context `{WebCrypto}.

(** [tx.sender + tx.recipient + tx.amount + tx.fee + tx.timestamp]; a
    missing [fee] is printed as [undefined]. *)
Definition card_dataToVerify (tx : Transaction.t) : string :=
  Transaction.sender tx +:+ Transaction.recipient tx
    +:+ JS.num_to_string (Transaction.amount tx)
    +:+ match Transaction.fee tx with
        | Some fee => JS.num_to_string fee
        | None => "undefined"
        end
    +:+ JS.num_to_string (Transaction.timestamp tx).

(** The value stored at [health[tx.id]] by one turn of the loop. *)
Definition card_isValid (tx : Transaction.t) : bool :=
  if bool_decide (Transaction.sender tx = SYSTEM) then true
  else verifySignature (Transaction.sender tx) (Transaction.signature tx)
         (card_dataToVerify tx).

(** The object [health] after the loop. *)
Definition checkSignatures (block : Block.t) : gmap string bool :=
  fold_left (fun health tx => <[Transaction.id tx := card_isValid tx]> health)
    (Block.transactions block) ∅.

End BlockCard.

(** * Properties *)

Section StringFacts.

Lemma app_nil_s (b : string) : "" +:+ b = b.
Proof. reflexivity. Qed.

Lemma app_cons_s (x : ascii) (a b : string) :
  String x a +:+ b = String x (a +:+ b).
Proof. reflexivity. Qed.

Lemma app_assoc_s (a b c : string) : (a +:+ b) +:+ c = a +:+ (b +:+ c).
Proof.
  induction a as [|x a IH]; [done|]. by rewrite !app_cons_s, IH.
Qed.

Lemma app_length_s (a b : string) :
  String.length (a +:+ b) = (String.length a + String.length b)%nat.
Proof.
  induction a as [|x a IH]; [done|]. rewrite app_cons_s. simpl. by rewrite IH.
Qed.

Lemma app_inv_tail_s (a b c : string) : a +:+ c = b +:+ c -> a = b.
Proof.
  revert b. induction a as [|x a IH]; intros [|y b] Heq.
  - done.
  - apply (f_equal String.length) in Heq.
    rewrite ?app_nil_s, ?app_cons_s in Heq. simpl in Heq.
    rewrite app_length_s in Heq. lia.
  - apply (f_equal String.length) in Heq.
    rewrite ?app_nil_s, ?app_cons_s in Heq. simpl in Heq.
    rewrite app_length_s in Heq. lia.
  - rewrite !app_cons_s in Heq. injection Heq as -> Heq. f_equal. by apply IH.
Qed.

Lemma app_inv_head_s (a b c : string) : a +:+ b = a +:+ c -> b = c.
Proof. apply (String.app_inj a). Qed.

End StringFacts.

Section PoolProperties.
Context `{WebCrypto}.

(** C5.  [addTransaction] throws the missing-field error when the sender or
    the recipient is empty, otherwise the missing-signature error when the
    signature is empty, and leaves the engine as it was in both cases; any
    other transaction is appended at the end of the pool, whatever the
    verifier says of its signature and whatever the chain and the pool
    already hold, so a transaction that was accepted once and has been
    mined is accepted again. *)
Theorem addTransaction_cases (tx : Transaction.t) (st : Blockchain) :
  (Transaction.sender tx = "" \/ Transaction.recipient tx = "" ->
     exists e, addTransaction tx st = (Throw e, st)
               /\ TxError_of e = Some MissingField)
  /\ (Transaction.sender tx <> "" -> Transaction.recipient tx <> "" ->
      Transaction.signature tx = "" ->
        exists e, addTransaction tx st = (Throw e, st)
                  /\ TxError_of e = Some MissingSignature)
  /\ (Transaction.sender tx <> "" -> Transaction.recipient tx <> "" ->
      Transaction.signature tx <> "" ->
        addTransaction tx st =
          (Normal tt,
           {| chain := chain st;
              pendingTransactions := pendingTransactions st ++ [tx];
              difficulty := difficulty st;
              miningReward := miningReward st |}))
  /\ (forall st0 b,
        (addTransaction tx st0).1 = Normal tt ->
        b ∈ chain st -> tx ∈ Block.transactions b ->
        addTransaction tx st =
          (Normal tt,
           set_pendingTransactions (pendingTransactions st ++ [tx]) st)).
Proof.
  unfold addTransaction, JS.falsy.
  repeat split.
  - intros Hempty.
    exists (JS.Error_ "Transaction must include sender and recipient").
    split; [|reflexivity].
    destruct Hempty as [-> | ->]; simpl; [done|].
    by rewrite orb_true_r.
  - intros Hs Hr Hsig. exists (JS.Error_ "No signature in transaction").
    split; [|reflexivity].
    rewrite !bool_decide_eq_false_2 by done. simpl.
    by rewrite bool_decide_eq_true_2.
  - intros Hs Hr Hsig. by rewrite !bool_decide_eq_false_2.
  - intros st0 b Hacc _ _. revert Hacc.
    destruct (bool_decide (Transaction.sender tx = "")); [done|].
    destruct (bool_decide (Transaction.recipient tx = "")); [done|].
    simpl. by destruct (bool_decide (Transaction.signature tx = "")).
Qed.

End PoolProperties.

Section ValidatorProperties.
Context `{WebCrypto}.

Lemma validate_loop_first_failure (rest pre : list Block.t) (prev : Block.t) :
  validate_loop (length rest) (S (length pre)) (pre ++ prev :: rest)
  = first_failure (S (length pre)) prev rest.
Proof.
  revert pre prev. induction rest as [|cur rest IH]; intros pre prev; [done|].
  simpl.
  replace (pre ++ prev :: cur :: rest) with ((pre ++ [prev]) ++ cur :: rest)
    by (by rewrite <- app_assoc).
  rewrite (list_lookup_middle (pre ++ [prev]) rest cur (S (length pre)))
    by (rewrite length_app; simpl; lia).
  rewrite Nat.sub_0_r.
  rewrite <- (app_assoc pre [prev] (cur :: rest)). simpl.
  rewrite (list_lookup_middle pre (cur :: rest) prev (length pre)) by done.
  destruct (checkBlock prev cur); [done|].
  specialize (IH (pre ++ [prev]) cur).
  rewrite length_app in IH. simpl in IH.
  rewrite Nat.add_1_r in IH. rewrite <- IH.
  by rewrite <- app_assoc.
Qed.

Lemma validate_cons (g : Block.t) (rest : list Block.t) :
  validate (g :: rest) = first_failure 1 g rest.
Proof.
  unfold validate. simpl. rewrite Nat.sub_0_r.
  apply (validate_loop_first_failure rest [] g).
Qed.

Lemma validate_nil : validate [] = None.
Proof. reflexivity. Qed.

(** The inner loop returns the first rejected transaction. *)
Lemma verifyTransactions_Some (txs : list Transaction.t) (tx : Transaction.t) :
  verifyTransactions txs = Some tx <->
  exists before after,
    txs = before ++ tx :: after /\ signature_rejected tx /\
    forall t, t ∈ before -> ~ signature_rejected t.
Proof.
  unfold signature_rejected. revert tx.
  induction txs as [|t txs IH]; intros tx; simpl.
  - split; [done|]. intros (before & after & Heq & _). by destruct before.
  - destruct (decide (Transaction.sender t = SYSTEM)) as [Hsys|Hsys].
    + rewrite bool_decide_eq_true_2 by done. rewrite IH. split.
      * intros (before & after & -> & Hrej & Hbefore).
        exists (t :: before), after. repeat split; [apply Hrej..|].
        intros t' [->|Hin]%elem_of_cons; [tauto | by apply Hbefore].
      * intros (before & after & Heq & Hrej & Hbefore).
        destruct before as [|t' before]; simpl in Heq; simplify_eq.
        { tauto. }
        exists before, after. repeat split; [apply Hrej..|].
        intros t'' Hin. apply Hbefore. by right.
    + rewrite bool_decide_eq_false_2 by done.
      destruct (verifySignature _ _ (dataToVerify t)) eqn:Hv; simpl.
      * rewrite IH. split.
        -- intros (before & after & -> & Hrej & Hbefore).
           exists (t :: before), after. repeat split; [apply Hrej..|].
           intros t' [->|Hin]%elem_of_cons; [|by apply Hbefore].
           intros [_ Hf]. congruence.
        -- intros (before & after & Heq & Hrej & Hbefore).
           destruct before as [|t' before]; simpl in Heq; simplify_eq.
           { destruct Hrej as [_ Hf]. congruence. }
           exists before, after. repeat split; [apply Hrej..|].
           intros t'' Hin. apply Hbefore. by right.
      * split.
        -- intros [= <-]. exists [], txs. repeat split; try done.
           intros t' Hin. by apply elem_of_nil in Hin.
        -- intros (before & after & Heq & Hrej & Hbefore).
           destruct before as [|t' before]; simpl in Heq; simplify_eq; [done|].
           exfalso. apply (Hbefore t'); [by left | done].
Qed.

Lemma verifyTransactions_None (txs : list Transaction.t) :
  verifyTransactions txs = None <->
  forall t, t ∈ txs -> ~ signature_rejected t.
Proof.
  split.
  - intros Hnone t Hin Hrej.
    induction txs as [|t' txs IH]; [by apply elem_of_nil in Hin|].
    simpl in Hnone. unfold signature_rejected in Hrej.
    apply elem_of_cons in Hin as [->|Hin].
    + rewrite bool_decide_eq_false_2 in Hnone by tauto.
      destruct Hrej as [_ Hrej]. by rewrite Hrej in Hnone.
    + apply IH; [|done].
      destruct (bool_decide _); [done|].
      by destruct (negb _).
  - intros Hall. destruct (verifyTransactions txs) as [tx|] eqn:Hv; [|done].
    apply verifyTransactions_Some in Hv as (before & after & -> & Hrej & _).
    exfalso. apply (Hall tx); [|done].
    apply elem_of_app. right. by left.
Qed.

(** Which [return] statement of the loop body fires, and when. *)
Lemma checkBlock_cause (p c : Block.t) (f : Failure) :
  checkBlock p c = Some f <->
  match f with
  | PreviousHashMismatch => link_broken p c
  | InvalidSignature tx =>
      ~ link_broken p c /\
      exists before after,
        Block.transactions c = before ++ tx :: after /\
        signature_rejected tx /\
        forall t, t ∈ before -> ~ signature_rejected t
  | HashMismatch =>
      ~ link_broken p c /\
      (forall t, t ∈ Block.transactions c -> ~ signature_rejected t) /\
      hash_stale c
  end.
Proof.
  unfold checkBlock, link_broken, hash_stale.
  destruct (decide (Block.previousHash c = Block.hash p)) as [Hl|Hl].
  - rewrite bool_decide_eq_false_2 by tauto.
    destruct (verifyTransactions (Block.transactions c)) as [tx|] eqn:Hv.
    + pose proof Hv as Hv'.
      apply verifyTransactions_Some in Hv' as (before & after & Heq & Hrej & Hb).
      destruct f as [|tx'|].
      * split; [done | tauto].
      * split.
        -- intros [= <-]. split; [tauto|]. by exists before, after.
        -- intros [_ Hex]. apply verifyTransactions_Some in Hex. congruence.
      * split; [done|]. intros (_ & Hall & _). exfalso.
        apply (Hall tx); [|done]. rewrite Heq. apply elem_of_app. right. by left.
    + pose proof Hv as Hall. rewrite verifyTransactions_None in Hall.
      destruct f as [|tx'|].
      * case_bool_decide; (split; [done | tauto]).
      * split; [by case_bool_decide|].
        intros [_ Hex]. apply verifyTransactions_Some in Hex. congruence.
      * case_bool_decide as Hh; (split; [|tauto]); [tauto | done].
  - rewrite bool_decide_eq_true_2 by done.
    destruct f as [|tx'|]; (split; [done | tauto]).
Qed.

Lemma checkBlock_fails (p c : Block.t) :
  is_Some (checkBlock p c) <-> block_fails p c.
Proof.
  unfold block_fails. split.
  - intros [f Hf]. apply checkBlock_cause in Hf. destruct f as [|tx|].
    + by left.
    + right; left. destruct Hf as (_ & before & after & Heq & Hrej & _).
      exists tx. split; [|done]. rewrite Heq. apply elem_of_app. right. by left.
    + right; right. tauto.
  - intros Hfail. destruct (checkBlock p c) as [f|] eqn:Hc; [by eexists|].
    exfalso.
    assert (Hno : forall f, checkBlock p c <> Some f) by (intros f; congruence).
    assert (Hl : ~ link_broken p c).
    { intros Hl. apply (Hno PreviousHashMismatch). by apply checkBlock_cause. }
    assert (Hs : forall t, t ∈ Block.transactions c -> ~ signature_rejected t).
    { apply verifyTransactions_None.
      destruct (verifyTransactions (Block.transactions c)) as [tx|] eqn:Hv;
        [|done].
      exfalso. apply (Hno (InvalidSignature tx)). apply checkBlock_cause.
      split; [done|]. by apply verifyTransactions_Some. }
    destruct Hfail as [Hf | [(tx & Hin & Hrej) | Hf]]; [done | by eapply Hs |].
    apply (Hno HashMismatch). by apply checkBlock_cause.
Qed.

Lemma first_failure_Some (rest : list Block.t) (i : nat) (p : Block.t)
    (k : nat) (f : Failure) :
  first_failure i p rest = Some (k, f) <->
  exists j prev cur,
    k = (i + j)%nat /\ (p :: rest) !! j = Some prev /\ rest !! j = Some cur /\
    checkBlock prev cur = Some f /\
    forall j' p' c', (j' < j)%nat -> (p :: rest) !! j' = Some p' ->
                     rest !! j' = Some c' -> checkBlock p' c' = None.
Proof.
  revert i p. induction rest as [|c rest IH]; intros i p; simpl.
  - split; [done|]. by intros (j & prev & cur & _ & _ & ? & _).
  - destruct (checkBlock p c) as [f0|] eqn:Hc.
    + split.
      * intros [= <- <-]. exists 0%nat, p, c.
        repeat split; [lia | done..|]. intros; lia.
      * intros (j & prev & cur & -> & Hp & Hcur & Hchk & Hbefore).
        destruct j as [|j].
        -- simpl in *. simplify_eq. by rewrite Nat.add_0_r.
        -- specialize (Hbefore 0%nat p c). simpl in Hbefore.
           rewrite Hbefore in Hc by (done || lia). done.
    + rewrite IH. split.
      * intros (j & prev & cur & -> & Hp & Hcur & Hchk & Hbefore).
        exists (S j), prev, cur. repeat split; [lia | done..|].
        intros [|j'] p' c' Hlt Hp' Hc'; simpl in *; simplify_eq; [done|].
        apply (Hbefore j'); [lia | done..].
      * intros (j & prev & cur & -> & Hp & Hcur & Hchk & Hbefore).
        destruct j as [|j]; simpl in *; simplify_eq.
        exists j, prev, cur. repeat split; [lia | done..|].
        intros j' p' c' Hlt Hp' Hc'. apply (Hbefore (S j')); [lia | done..].
Qed.

Lemma first_failure_None (rest : list Block.t) (i : nat) (p : Block.t) :
  first_failure i p rest = None <->
  forall j p' c', (p :: rest) !! j = Some p' -> rest !! j = Some c' ->
                  checkBlock p' c' = None.
Proof.
  revert i p. induction rest as [|c rest IH]; intros i p; simpl.
  - split; [|done]. by intros _ j p' c' _ ?.
  - destruct (checkBlock p c) as [f0|] eqn:Hc.
    + split; [done|]. intros Hall. specialize (Hall 0%nat p c).
      simpl in Hall. rewrite Hall in Hc; done.
    + rewrite IH. split.
      * intros Hall [|j] p' c' Hp' Hc'; simpl in *; simplify_eq; [done|].
        by apply (Hall j).
      * intros Hall j p' c' Hp' Hc'. by apply (Hall (S j)).
Qed.

Lemma not_fails_at (chain : list Block.t) (j : nat) :
  ~ fails_at chain j <->
  forall p c, chain !! (j - 1)%nat = Some p -> chain !! j = Some c ->
              checkBlock p c = None.
Proof.
  unfold fails_at. split.
  - intros Hno p c Hp Hc.
    destruct (checkBlock p c) as [f|] eqn:Hchk; [|done].
    exfalso. apply Hno. exists p, c. repeat split; [done..|].
    apply checkBlock_fails. by eexists.
  - intros Hall (p & c & Hp & Hc & Hf).
    apply checkBlock_fails in Hf as [f Hf]. rewrite (Hall p c) in Hf; done.
Qed.

Lemma validate_Some (chain : list Block.t) (k : nat) (f : Failure) :
  validate chain = Some (k, f) <->
  (1 <= k)%nat /\
  (exists prev cur,
     chain !! (k - 1)%nat = Some prev /\ chain !! k = Some cur /\
     checkBlock prev cur = Some f) /\
  forall j, (1 <= j < k)%nat -> ~ fails_at chain j.
Proof.
  destruct chain as [|g rest].
  - rewrite validate_nil. split; [done|]. by intros (_ & (? & ? & ? & _) & _).
  - rewrite validate_cons, first_failure_Some. split.
    + intros (j & prev & cur & -> & Hp & Hcur & Hchk & Hbefore).
      split; [lia|]. split.
      * exists prev, cur. simpl. by rewrite Nat.sub_0_r.
      * intros j' Hj'. apply not_fails_at. intros p c Hp' Hc'.
        destruct j' as [|j']; [lia|]. simpl in Hp', Hc'.
        rewrite Nat.sub_0_r in Hp'. apply (Hbefore j'); [lia | done..].
    + intros (Hk & (prev & cur & Hp & Hcur & Hchk) & Hbefore).
      destruct k as [|k]; [lia|]. simpl in Hp, Hcur.
      rewrite Nat.sub_0_r in Hp.
      exists k, prev, cur. repeat split; [done..|].
      intros j' p' c' Hlt Hp' Hc'.
      specialize (Hbefore (S j')). rewrite not_fails_at in Hbefore.
      apply Hbefore; [lia | simpl; by rewrite Nat.sub_0_r | done].
Qed.

Lemma validate_None (chain : list Block.t) :
  validate chain = None <->
  forall j, (1 <= j < length chain)%nat -> ~ fails_at chain j.
Proof.
  destruct chain as [|g rest].
  - rewrite validate_nil. split; [|done]. simpl. intros _ j Hj. lia.
  - rewrite validate_cons, first_failure_None. split.
    + intros Hall j Hj. apply not_fails_at. intros p c Hp Hc.
      destruct j as [|j]; [lia|]. simpl in Hp, Hc. rewrite Nat.sub_0_r in Hp.
      by apply (Hall j).
    + intros Hall j p' c' Hp' Hc'.
      specialize (Hall (S j)). rewrite not_fails_at in Hall.
      apply Hall; [|simpl; by rewrite Nat.sub_0_r | done].
      apply lookup_lt_Some in Hc'. simpl. lia.
Qed.

Lemma validate_in_range (chain : list Block.t) (k : nat) (f : Failure) :
  validate chain = Some (k, f) -> (1 <= k < length chain)%nat.
Proof.
  intros (Hk & (prev & cur & _ & Hcur & _) & _)%validate_Some.
  apply lookup_lt_Some in Hcur. lia.
Qed.

(** The loop stops at the first failure: the blocks after it are not read. *)
Lemma validate_prefix (chain chain' : list Block.t) (k : nat) (f : Failure) :
  validate chain = Some (k, f) ->
  take (S k) chain' = take (S k) chain ->
  validate chain' = Some (k, f).
Proof.
  intros Hv Htake.
  assert (Hlook : forall j, (j <= k)%nat -> chain' !! j = chain !! j).
  { intros j Hj. rewrite <- (lookup_take_lt chain' (S k) j) by lia.
    rewrite Htake. apply lookup_take_lt. lia. }
  apply validate_Some in Hv as (Hk & (prev & cur & Hp & Hcur & Hchk) & Hbefore).
  apply validate_Some. split; [done|]. split.
  - exists prev, cur. rewrite !Hlook by lia. done.
  - intros j Hj. specialize (Hbefore j Hj).
    rewrite not_fails_at in Hbefore |- *.
    intros p c. rewrite !Hlook by lia. apply Hbefore.
Qed.

(** The genesis block is read for its [hash] only. *)
Lemma validate_genesis (g g' : Block.t) (rest : list Block.t) :
  Block.hash g' = Block.hash g -> validate (g' :: rest) = validate (g :: rest).
Proof.
  intros Hh. rewrite !validate_cons. destruct rest as [|c rest]; [done|].
  simpl. unfold checkBlock. by rewrite Hh.
Qed.

(** C1.  [isChainValid] reports the least index [i >= 1] at which the link
    to the previous block is broken, or a transaction of a non-system
    sender is rejected by the verifier, or the stored hash differs from the
    recomputed one, and [{ true, -1 }] exactly when there is no such index.
    Inside a block the link is tested first, then the signatures in order,
    then the hash; the blocks after the reported one are not read, and the
    genesis block is read for its hash only. *)
Theorem isChainValid_first_failure (st : Blockchain) :
  (forall i : nat,
      isChainValid st = {| isValid := false; errorBlockIndex := Z.of_nat i |}
      <-> (1 <= i < length (chain st))%nat /\ fails_at (chain st) i /\
          forall j, (1 <= j < i)%nat -> ~ fails_at (chain st) j)
  /\ (isChainValid st = {| isValid := true; errorBlockIndex := -1 |}
      <-> forall j, (1 <= j < length (chain st))%nat -> ~ fails_at (chain st) j)
  /\ (forall i f, validate (chain st) = Some (i, f) ->
        exists p c,
          chain st !! (i - 1)%nat = Some p /\ chain st !! i = Some c /\
          match f with
          | PreviousHashMismatch => link_broken p c
          | InvalidSignature tx =>
              ~ link_broken p c /\
              exists before after,
                Block.transactions c = before ++ tx :: after /\
                signature_rejected tx /\
                forall t, t ∈ before -> ~ signature_rejected t
          | HashMismatch =>
              ~ link_broken p c /\
              (forall t, t ∈ Block.transactions c -> ~ signature_rejected t) /\
              hash_stale c
          end)
  /\ (forall (i : nat) later,
        isChainValid st = {| isValid := false; errorBlockIndex := Z.of_nat i |} ->
        isChainValid (set_chain (take (S i) (chain st) ++ later) st)
        = isChainValid st)
  /\ (forall g g' rest,
        chain st = g :: rest -> Block.hash g' = Block.hash g ->
        isChainValid (set_chain (g' :: rest) st) = isChainValid st).
Proof.
  unfold isChainValid. split; [|split; [|split; [|split]]].
  - intros i. split.
    + destruct (validate (chain st)) as [[k f]|] eqn:Hv; [|done].
      intros [= Hk%Nat2Z.inj]. subst k.
      pose proof (validate_in_range _ _ _ Hv) as Hrange.
      apply validate_Some in Hv as (_ & (prev & cur & Hp & Hcur & Hchk) & Hb).
      split; [done|]. split; [|done].
      exists prev, cur. repeat split; [done..|].
      apply checkBlock_fails. by eexists.
    + intros (Hi & (prev & cur & Hp & Hcur & Hf) & Hbefore).
      apply checkBlock_fails in Hf as [f Hf].
      assert (Hv : validate (chain st) = Some (i, f)).
      { apply validate_Some. split; [lia|]. split; [|done]. by exists prev, cur. }
      by rewrite Hv.
  - split.
    + destruct (validate (chain st)) as [[k f]|] eqn:Hv.
      * intros [= ?].
      * intros _. by apply validate_None.
    + intros Hall. apply validate_None in Hall. by rewrite Hall.
  - intros i f Hv.
    apply validate_Some in Hv as (_ & (prev & cur & Hp & Hcur & Hchk) & _).
    exists prev, cur. repeat split; [done..|]. by apply checkBlock_cause.
  - intros i later. simpl.
    destruct (validate (chain st)) as [[k f]|] eqn:Hv; [|done].
    intros [= Hk%Nat2Z.inj]. subst k.
    rewrite (validate_prefix (chain st) _ i f); [done..|].
    pose proof (validate_in_range _ _ _ Hv).
    rewrite take_app_le by (rewrite length_take; lia).
    rewrite take_take. f_equal. lia.
  - intros g g' rest Hchain Hh. simpl. rewrite Hchain.
    by rewrite (validate_genesis g g').
Qed.

End ValidatorProperties.

Section MinerProperties.
Context `{WebCrypto}.

Lemma substring_repeat_zeros (n : nat) (h : string) :
  String.substring 0 n h = JS.repeat_string "0" n <->
  forall k, (k < n)%nat -> String.get k h = Some "0"%char.
Proof.
  revert h. induction n as [|n IH]; intros h.
  - split; [intros _ k Hk; lia|]. intros _. by destruct h.
  - destruct h as [|c h]; simpl.
    + split; [done|]. intros Hall. specialize (Hall 0%nat). simpl in Hall.
      discriminate Hall. lia.
    + rewrite app_cons_s, app_nil_s. split.
      * intros [= -> Hsub] [|k] Hk; [done|]. simpl.
        apply IH; [done | lia].
      * intros Hall. f_equal.
        -- specialize (Hall 0%nat). simpl in Hall.
           assert (Some c = Some "0"%char) as [= ->] by (apply Hall; lia). done.
        -- apply IH. intros k Hk. apply (Hall (S k)). lia.
Qed.

(** The loop test of the miner is the target of the specification. *)
Lemma target_met (d : Z) (target h : string) :
  JS.Array_join (d + 1) "0" = inr target ->
  JS.substring0 d h = target <-> leading_zeros d h.
Proof.
  unfold JS.Array_join, JS.substring0, leading_zeros.
  destruct (_ || _); [done|]. intros [= <-].
  replace (d + 1 - 1) with d by lia.
  rewrite substring_repeat_zeros. split.
  - intros Hall k Hk. apply Hall. lia.
  - intros Hall k Hk. rewrite <- (Nat2Z.id k). apply Hall. lia.
Qed.

Lemma pow_loop_exit (steps : nat) (d : Z) (fr : Frame) (nonce : Z) :
  match pow_loop steps d fr nonce (hash_at fr nonce) with
  | TargetMet n h =>
      nonce <= n /\ h = hash_at fr n /\ JS.substring0 d h = target fr /\
      forall m, nonce <= m < n -> JS.substring0 d (hash_at fr m) <> target fr
  | ProgressDue n h =>
      nonce < n /\ h = hash_at fr n /\
      forall m, nonce <= m < n -> JS.substring0 d (hash_at fr m) <> target fr
  | OutOfSteps => True
  end.
Proof.
  revert nonce. induction steps as [|steps IH]; intros nonce; simpl.
  - case_bool_decide as Ht; [done|].
    repeat split; [lia | done | intros; lia].
  - case_bool_decide as Ht.
    + destruct (Z.rem (nonce + 1) 500 =? 0).
      * repeat split; [lia|]. intros m Hm. by replace m with nonce by lia.
      * specialize (IH (nonce + 1)).
        destruct (pow_loop steps d fr (nonce + 1) _) as [n h|n h|]; [| |done].
        -- destruct IH as (Hn & Hh & Hmet & Hbelow).
           repeat split; [lia | done..|]. intros m Hm.
           destruct (decide (m = nonce)) as [->|]; [done|]. apply Hbelow. lia.
        -- destruct IH as (Hn & Hh & Hbelow).
           repeat split; [lia | done|]. intros m Hm.
           destruct (decide (m = nonce)) as [->|]; [done|]. apply Hbelow. lia.
    + repeat split; [lia | done | intros; lia].
Qed.

(** A stretch of the loop between two [yield]s takes at most 500 steps. *)
Lemma pow_loop_steps (steps : nat) (d : Z) (fr : Frame) (nonce : Z) (h : string) :
  0 <= nonce -> 500 - Z.rem nonce 500 <= Z.of_nat steps ->
  pow_loop steps d fr nonce h <> OutOfSteps.
Proof.
  revert nonce h. induction steps as [|steps IH]; intros nonce h Hn Hsteps; simpl.
  - rewrite Z.rem_mod_nonneg in Hsteps by lia.
    pose proof (Z.mod_pos_bound nonce 500). lia.
  - case_bool_decide; [|done].
    destruct (Z.rem (nonce + 1) 500 =? 0) eqn:Hrem; [done|].
    apply IH; [lia|]. apply Z.eqb_neq in Hrem.
    rewrite Z.rem_mod_nonneg in * by lia.
    revert Hrem Hsteps. Z.div_mod_to_equations. lia.
Qed.

Lemma pow_loop_500 (d : Z) (fr : Frame) (nonce : Z) (h : string) :
  0 <= nonce -> pow_loop 500 d fr nonce h <> OutOfSteps.
Proof.
  intros Hn. apply pow_loop_steps; [done|].
  rewrite Z.rem_mod_nonneg by lia.
  pose proof (Z.mod_pos_bound nonce 500). lia.
Qed.

(** One resumption of the search: either the next progress event, with the
    engine untouched, or the commit of the block of the least nonce. *)
Lemma resume_cases (fr : Frame) (nonce : Z) (st : Blockchain) :
  0 <= nonce ->
  (exists n,
      nonce < n /\
      (forall m, nonce <= m < n ->
                 JS.substring0 (difficulty st) (hash_at fr m) <> target fr) /\
      resume fr nonce (hash_at fr nonce) st
      = (Normal (Yielded {| nonce := n; currentHash := hash_at fr n;
                            found := false |}),
         AtProgressYield fr n (hash_at fr n), st))
  \/ (exists n,
        nonce <= n /\
        JS.substring0 (difficulty st) (hash_at fr n) = target fr /\
        (forall m, nonce <= m < n ->
                   JS.substring0 (difficulty st) (hash_at fr m) <> target fr) /\
        resume fr nonce (hash_at fr nonce) st
        = (Normal (Yielded {| nonce := n; currentHash := hash_at fr n;
                              found := true |}),
           AtFinalYield (newBlock fr n (hash_at fr n) st),
           commit (newBlock fr n (hash_at fr n) st) st)).
Proof.
  intros Hn. unfold resume.
  pose proof (pow_loop_exit 500 (difficulty st) fr nonce) as Hexit.
  pose proof (pow_loop_500 (difficulty st) fr nonce (hash_at fr nonce) Hn) as H500.
  destruct (pow_loop 500 _ fr nonce _) as [n h|n h|]; [| |done].
  - destruct Hexit as (Hle & -> & Hmet & Hbelow). right. by exists n.
  - destruct Hexit as (Hlt & -> & Hbelow). left. by exists n.
Qed.

Lemma mine_loop_searching (calls : nat) (env : MineEnv) (fr : Frame)
    (nonce : Z) (st : Blockchain) r st' :
  0 <= nonce ->
  (forall m, 0 <= m < nonce ->
             JS.substring0 (difficulty st) (hash_at fr m) <> target fr) ->
  mine_loop calls env (AtProgressYield fr nonce (hash_at fr nonce)) st
  = Some (r, st') ->
  exists n,
    0 <= n /\
    JS.substring0 (difficulty st) (hash_at fr n) = target fr /\
    (forall m, 0 <= m < n ->
               JS.substring0 (difficulty st) (hash_at fr m) <> target fr) /\
    r = Normal (Some (newBlock fr n (hash_at fr n) st)) /\
    st' = commit (newBlock fr n (hash_at fr n) st) st.
Proof.
  revert nonce. induction calls as [|calls IH]; intros nonce Hn Hbelow; [done|].
  simpl.
  destruct (resume_cases fr nonce st Hn)
    as [(n & Hlt & Hmiss & ->) | (n & Hle & Hmet & Hmiss & ->)].
  - apply IH; [lia|]. intros m Hm.
    destruct (decide (m < nonce)); [apply Hbelow | apply Hmiss]; lia.
  - destruct calls as [|calls]; [done|]. simpl. intros [= <- <-].
    exists n. repeat split; [lia | done | | done..].
    intros m Hm.
    destruct (decide (m < nonce)); [apply Hbelow | apply Hmiss]; lia.
Qed.

(** With enough calls the consumer reaches the commit whenever some nonce
    meets the target. *)
Lemma mine_loop_completes (k : nat) (env : MineEnv) (fr : Frame)
    (nonce N : Z) (st : Blockchain) :
  0 <= nonce <= N -> N - nonce <= Z.of_nat k ->
  JS.substring0 (difficulty st) (hash_at fr N) = target fr ->
  exists r st',
    mine_loop (S (S k)) env (AtProgressYield fr nonce (hash_at fr nonce)) st
    = Some (r, st').
Proof.
  revert nonce. induction k as [|k IH]; intros nonce Hn Hk HN.
  - change (mine_loop 2 env ?g st) with
      (match next env g st with
       | (Normal (Yielded _), g', st') => mine_loop 1 env g' st'
       | (Normal (Returned value), _, st') => Some (Normal value, st')
       | (Throw e, _, st') => Some (Throw e, st')
       end).
    simpl next.
    destruct (resume_cases fr nonce st (proj1 Hn))
      as [(n & Hlt & Hmiss & ->) | (n & Hle & Hmet & Hmiss & ->)].
    + exfalso. apply (Hmiss N); [lia | done].
    + simpl. eauto.
  - change (mine_loop (S (S (S k))) env ?g st) with
      (match next env g st with
       | (Normal (Yielded _), g', st') => mine_loop (S (S k)) env g' st'
       | (Normal (Returned value), _, st') => Some (Normal value, st')
       | (Throw e, _, st') => Some (Throw e, st')
       end).
    simpl next.
    destruct (resume_cases fr nonce st (proj1 Hn))
      as [(n & Hlt & Hmiss & ->) | (n & Hle & Hmet & Hmiss & ->)].
    + apply IH; [|lia|done].
      split; [lia|]. destruct (decide (n <= N)); [done|].
      exfalso. apply (Hmiss N); [lia | done].
    + simpl. eauto.
Qed.

Lemma mine_unfold (calls : nat) (env : MineEnv) (minerAddress : string)
    (st : Blockchain) (previousBlock : Block.t) (tgt : string) :
  getLatestBlock st = Some previousBlock ->
  JS.Array_join (difficulty st + 1) "0" = inr tgt ->
  let fr := initial_frame env minerAddress st previousBlock tgt in
  mine calls env minerAddress st
  = mine_loop calls env (AtProgressYield fr 0 (hash_at fr 0)) st.
Proof.
  intros Hlast Htgt fr. unfold mine. destruct calls as [|calls]; [done|].
  simpl. by rewrite Hlast, Htgt.
Qed.

(** A completed run of [mine]: the frame it searched with, the block it
    committed and the engine it left. *)
Lemma mine_completed (calls : nat) (env : MineEnv) (minerAddress : string)
    (st st' : Blockchain) (b : Block.t) :
  mine calls env minerAddress st = Some (Normal (Some b), st') ->
  exists previousBlock tgt n,
    getLatestBlock st = Some previousBlock /\
    JS.Array_join (difficulty st + 1) "0" = inr tgt /\
    let fr := initial_frame env minerAddress st previousBlock tgt in
    0 <= n /\
    JS.substring0 (difficulty st) (hash_at fr n) = tgt /\
    (forall m, 0 <= m < n ->
               JS.substring0 (difficulty st) (hash_at fr m) <> tgt) /\
    b = newBlock fr n (hash_at fr n) st /\
    st' = commit b st.
Proof.
  intros Hmine.
  destruct (getLatestBlock st) as [previousBlock|] eqn:Hlast; cycle 1.
  { destruct calls as [|calls]; [done|].
    unfold mine in Hmine. simpl in Hmine. by rewrite Hlast in Hmine. }
  destruct (JS.Array_join (difficulty st + 1) "0") as [e|tgt] eqn:Htgt.
  { destruct calls as [|calls]; [done|].
    unfold mine in Hmine. simpl in Hmine. by rewrite Hlast, Htgt in Hmine. }
  rewrite (mine_unfold calls env minerAddress st previousBlock tgt) in Hmine
    by done.
  apply mine_loop_searching in Hmine as (n & Hn & Hmet & Hmiss & [= ->] & ->);
    [|lia|intros; lia].
  exists previousBlock, tgt, n. by repeat split.
Qed.

(** C3.  A run of the miner that completes on a chain whose last block is
    [L] appends exactly one block: its index is [L.index + 1], its
    previous hash is [L.hash], its transactions are the pool in its order
    followed by the one reward transaction (system sender, the miner as
    recipient, the configured reward, the reward signature marker), its
    difficulty is the configured one, and the pool is left empty. *)
Theorem mine_appends_one_block (calls : nat) (env : MineEnv)
    (minerAddress : string) (st st' : Blockchain) (b L : Block.t) :
  getLatestBlock st = Some L ->
  mine calls env minerAddress st = Some (Normal (Some b), st') ->
  chain st' = chain st ++ [b]
  /\ Block.index b = Block.index L + 1
  /\ Block.previousHash b = Block.hash L
  /\ Block.transactions b
     = pendingTransactions st ++ [rewardTx env minerAddress st]
  /\ Transaction.sender (rewardTx env minerAddress st) = SYSTEM
  /\ Transaction.recipient (rewardTx env minerAddress st) = minerAddress
  /\ Transaction.amount (rewardTx env minerAddress st) = miningReward st
  /\ Transaction.signature (rewardTx env minerAddress st) = "SYSTEM_REWARD"
  /\ Block.timestamp b = now_block env
  /\ Block.difficulty b = difficulty st
  /\ pendingTransactions st' = []
  /\ difficulty st' = difficulty st
  /\ miningReward st' = miningReward st.
Proof.
  intros HL Hmine.
  apply mine_completed in Hmine
    as (previousBlock & tgt & n & Hlast & _ & _ & _ & _ & -> & ->).
  rewrite HL in Hlast. injection Hlast as <-. by repeat split.
Qed.

(** C4.  The block a completed run commits carries the least nonce
    [n >= 0] whose digest has [difficulty] leading zero characters: its
    stored hash is the digest at that nonce and has them, and no smaller
    nonce does.  Conversely, whenever some nonce meets the target the run
    completes within finitely many calls of [next()]. *)
Theorem mined_nonce_is_least (env : MineEnv) (minerAddress : string)
    (st : Blockchain) :
  (forall calls b st',
      mine calls env minerAddress st = Some (Normal (Some b), st') ->
      let digest_at n :=
        calculateHash (Block.index b) (Block.previousHash b)
          (Block.timestamp b) (Block.transactions b) n in
      0 <= Block.nonce b
      /\ Block.hash b = digest_at (Block.nonce b)
      /\ Block.difficulty b = difficulty st
      /\ leading_zeros (Block.difficulty b) (Block.hash b)
      /\ forall m, 0 <= m < Block.nonce b ->
                   ~ leading_zeros (Block.difficulty b) (digest_at m))
  /\ (forall L N,
        getLatestBlock st = Some L ->
        -1 <= difficulty st < 4294967295 ->
        0 <= N ->
        leading_zeros (difficulty st)
          (calculateHash (Block.index L + 1) (Block.hash L) (now_block env)
             (pendingTransactions st ++ [rewardTx env minerAddress st]) N) ->
        exists calls b st',
          mine calls env minerAddress st = Some (Normal (Some b), st')).
Proof.
  split.
  - intros calls b st' Hmine.
    apply mine_completed in Hmine
      as (previousBlock & tgt & n & Hlast & Htgt & Hn & Hmet & Hmiss & -> & _).
    simpl. repeat split; [done|..].
    + by apply (target_met _ tgt).
    + intros m Hm Hz. apply (Hmiss m Hm). by apply (target_met _ tgt).
  - intros L N HL Hd HN Hz.
    assert (Htgt : exists tgt, JS.Array_join (difficulty st + 1) "0" = inr tgt).
    { unfold JS.Array_join.
      replace (difficulty st + 1 <? 0) with false by lia.
      replace (4294967295 <? difficulty st + 1) with false by lia.
      by eexists. }
    destruct Htgt as [tgt Htgt].
    set (fr := initial_frame env minerAddress st L tgt).
    destruct (mine_loop_completes (Z.to_nat N) env fr 0 N st) as (r & st' & Hrun);
      [lia | lia | by apply (target_met _ tgt) |].
    exists (S (S (Z.to_nat N))).
    rewrite (mine_unfold _ env minerAddress st L tgt) by done.
    fold fr. rewrite Hrun.
    apply mine_loop_searching in Hrun as (n & _ & _ & _ & -> & ->);
      [|lia|intros; lia].
    eauto.
Qed.

Lemma next_progress_frame (env : MineEnv) (g g' : Generator)
    (st st' : Blockchain) (p : Progress) :
  next env g st = (Normal (Yielded p), g', st') -> found p = false -> st' = st.
Proof.
  assert (Hres : forall fr n h,
             resume fr n h st = (Normal (Yielded p), g', st') ->
             found p = false -> st' = st).
  { intros fr n h. unfold resume.
    destruct (pow_loop 500 _ fr n h); [| |done].
    - intros [= <- _ _]. done.
    - by intros [= _ _ <-]. }
  destruct g as [minerAddress|fr n h|b|]; simpl; [|by apply Hres|done..].
  destruct (getLatestBlock st); [|done].
  destruct (JS.Array_join _ _); [done|]. apply Hres.
Qed.

Lemma progress_calls_frame (k : nat) (env : MineEnv) (g g' : Generator)
    (st st' : Blockchain) :
  progress_calls k env g st = Some (g', st') -> st' = st.
Proof.
  revert g st. induction k as [|k IH]; intros g st; simpl.
  - by intros [= _ <-].
  - destruct (next env g st) as [[[[p|v]|e] g1] st1] eqn:Hnext; [|done..].
    destruct (found p) eqn:Hfound; [done|].
    intros Hk. apply IH in Hk as ->.
    by apply (next_progress_frame env g g1 st st1 p).
Qed.

(** C9.  When the consumer stops after any number of progress events (none
    of them the final one) and abandons the generator, the chain and the
    pool, indeed the whole engine, are as they were before the call. *)
Theorem cancelled_mine_changes_nothing (k : nat) (env : MineEnv)
    (minerAddress : string) (st st' : Blockchain) (g : Generator) :
  progress_calls k env (NotStarted minerAddress) st = Some (g, st') ->
  cancel g st' = (Completed, st)
  /\ chain st' = chain st
  /\ pendingTransactions st' = pendingTransactions st
  /\ next env (cancel g st').1 (cancel g st').2
     = (Normal (Returned None), Completed, st).
Proof.
  intros Hk. apply progress_calls_frame in Hk as ->. by repeat split.
Qed.

End MinerProperties.

Section BalanceProperties.
Context `{WebCrypto}.

Lemma sumZ_app (l1 l2 : list Z) : sumZ (l1 ++ l2) = sumZ l1 + sumZ l2.
Proof. induction l1 as [|x l1 IH]; simpl; lia. Qed.

Lemma fold_committed (address : string) (txs : list Transaction.t) (x : Z) :
  fold_left (committed address) txs x
  = x + sumZ ((fun tx => credit address tx - debit address tx) <$> txs).
Proof.
  revert x. induction txs as [|tx txs IH]; intros x; [simpl; lia|].
  rewrite fmap_cons. cbn [fold_left sumZ foldr]. rewrite IH.
  fold (sumZ ((fun tx => credit address tx - debit address tx) <$> txs)).
  generalize (sumZ ((fun tx => credit address tx - debit address tx) <$> txs)).
  intros S. unfold committed, credit, debit.
  repeat case_bool_decide; lia.
Qed.

Lemma fold_pending (address : string) (txs : list Transaction.t) (x : Z) :
  fold_left (pending address) txs x = x - sumZ (debit address <$> txs).
Proof.
  revert x. induction txs as [|tx txs IH]; intros x; [simpl; lia|].
  rewrite fmap_cons. cbn [fold_left sumZ foldr]. rewrite IH.
  fold (sumZ (debit address <$> txs)).
  generalize (sumZ (debit address <$> txs)).
  intros S. unfold pending, debit. case_bool_decide; lia.
Qed.

Lemma fold_chain (address : string) (blocks : list Block.t) (x : Z) :
  fold_left
    (fun balance block =>
       fold_left (committed address) (Block.transactions block) balance)
    blocks x
  = x + sumZ ((fun tx => credit address tx - debit address tx)
                <$> ledger blocks).
Proof.
  revert x. induction blocks as [|b blocks IH]; intros x; [simpl; lia|].
  cbn [fold_left]. rewrite IH, fold_committed.
  change (ledger (b :: blocks)) with (Block.transactions b ++ ledger blocks).
  rewrite fmap_app, sumZ_app. lia.
Qed.

(** The balance the engine computes counts amounts only. *)
Lemma getBalanceOfAddress_by_amount (address : string) (st : Blockchain) :
  getBalanceOfAddress address st = balance_by_amount address st.
Proof.
  unfold getBalanceOfAddress, balance_by_amount.
  by rewrite fold_pending, fold_chain.
Qed.

Lemma ledger_app (c1 c2 : list Block.t) : ledger (c1 ++ c2) = ledger c1 ++ ledger c2.
Proof. unfold ledger. by rewrite fmap_app, join_app. Qed.

(** What a commit does to every balance: the debits of the pool were
    already counted while pending, so only the credits are new. *)
Lemma getBalanceOfAddress_commit (address : string) (st : Blockchain)
    (b : Block.t) (reward : Transaction.t) :
  Block.transactions b = pendingTransactions st ++ [reward] ->
  getBalanceOfAddress address (commit b st)
  = getBalanceOfAddress address st
    + sumZ (credit address <$> pendingTransactions st)
    + credit address reward - debit address reward.
Proof.
  intros Htxs. rewrite !getBalanceOfAddress_by_amount.
  unfold balance_by_amount, commit. cbn [chain pendingTransactions
    set_chain set_pendingTransactions].
  rewrite ledger_app, fmap_app, sumZ_app.
  change (ledger [b]) with (Block.transactions b ++ []).
  rewrite app_nil_r, Htxs, fmap_app, sumZ_app.
  assert (Hsplit : forall l : list Transaction.t,
             sumZ ((fun tx => credit address tx - debit address tx) <$> l)
             = sumZ (credit address <$> l) - sumZ (debit address <$> l)).
  { intros l. induction l as [|tx l IH]; [done|].
    rewrite !fmap_cons. cbn [sumZ foldr].
    fold (sumZ ((fun tx => credit address tx - debit address tx) <$> l)).
    fold (sumZ (credit address <$> l)). fold (sumZ (debit address <$> l)).
    lia. }
  rewrite !Hsplit. cbn [fmap list_fmap sumZ foldr]. lia.
Qed.

End BalanceProperties.

Section GrowthProperties.
Context `{WebCrypto}.

Lemma checkBlock_None (p c : Block.t) :
  checkBlock p c = None <-> ~ block_fails p c.
Proof.
  by rewrite eq_None_not_Some, checkBlock_fails.
Qed.

Lemma last_cons_default (c p : Block.t) (rest : list Block.t) :
  default p (last (c :: rest)) = default c (last rest).
Proof. rewrite last_cons. by destruct (last rest). Qed.

Lemma first_failure_snoc (rest : list Block.t) (i : nat) (p b : Block.t) :
  first_failure i p (rest ++ [b])
  = match first_failure i p rest with
    | Some r => Some r
    | None =>
        (fun f => ((i + length rest)%nat, f))
          <$> checkBlock (default p (last rest)) b
    end.
Proof.
  revert i p. induction rest as [|c rest IH]; intros i p.
  - simpl. rewrite Nat.add_0_r. by destruct (checkBlock p b).
  - cbn [app first_failure]. destruct (checkBlock p c); [done|].
    rewrite IH, last_cons_default. cbn [length].
    by rewrite Nat.add_succ_comm.
Qed.

(** Appending a block that passes the three checks keeps a chain valid. *)
Lemma validate_snoc (chain : list Block.t) (L b : Block.t) :
  last chain = Some L ->
  validate chain = None ->
  checkBlock L b = None ->
  validate (chain ++ [b]) = None.
Proof.
  destruct chain as [|g rest]; [done|]. intros Hlast Hvalid Hb.
  rewrite validate_cons in Hvalid.
  change ((g :: rest) ++ [b]) with (g :: (rest ++ [b])).
  rewrite validate_cons, first_failure_snoc, Hvalid.
  assert (default g (last rest) = L) as ->.
  { destruct rest as [|c rest]; simpl in *; [congruence|].
    rewrite last_cons in Hlast |- *.
    by destruct (last rest); simplify_eq/=. }
  by rewrite Hb.
Qed.

(** The block the miner builds passes the checks of the validator as soon
    as no pooled transaction is rejected by the verifier. *)
Lemma checkBlock_mined (env : MineEnv) (minerAddress : string)
    (st : Blockchain) (L : Block.t) (tgt : string) (n : Z) :
  let fr := initial_frame env minerAddress st L tgt in
  (forall tx, tx ∈ pendingTransactions st -> ~ signature_rejected tx) ->
  checkBlock L (newBlock fr n (hash_at fr n) st) = None.
Proof.
  intros fr Hpool. apply checkBlock_None.
  intros [Hlink | [(tx & Hin & Hrej) | Hstale]].
  - by apply Hlink.
  - simpl in Hin. apply elem_of_app in Hin as [Hin | Hin%list_elem_of_singleton].
    + by apply (Hpool tx).
    + subst tx. by destruct Hrej as [Hsys _].
  - by apply Hstale.
Qed.

Lemma mine_preserves_validity (calls : nat) (env : MineEnv)
    (minerAddress : string) (st st' : Blockchain) (b : Block.t) :
  validate (chain st) = None ->
  (forall tx, tx ∈ pendingTransactions st -> ~ signature_rejected tx) ->
  mine calls env minerAddress st = Some (Normal (Some b), st') ->
  validate (chain st') = None.
Proof.
  intros Hvalid Hpool Hmine.
  apply mine_completed in Hmine
    as (L & tgt & n & Hlast & _ & _ & _ & _ & -> & ->).
  unfold commit. simpl. apply (validate_snoc _ L); [done..|].
  by apply checkBlock_mined.
Qed.

Lemma balance_after_mine (calls : nat) (env : MineEnv)
    (minerAddress : string) (st st' : Blockchain) (b : Block.t)
    (address : string) :
  mine calls env minerAddress st = Some (Normal (Some b), st') ->
  getBalanceOfAddress address st'
  = getBalanceOfAddress address st
    + sumZ (credit address <$> pendingTransactions st)
    + (if bool_decide (minerAddress = address) then miningReward st else 0)
    - (if bool_decide (SYSTEM = address) then miningReward st else 0).
Proof.
  intros Hmine.
  apply mine_completed in Hmine
    as (L & tgt & n & Hlast & _ & _ & _ & _ & -> & ->).
  rewrite (getBalanceOfAddress_commit address st _ (rewardTx env minerAddress st))
    by done.
  unfold credit at 2, debit. simpl. lia.
Qed.

Lemma total_app (l1 l2 : list Z) : total (l1 ++ l2) = total l1 + total l2.
Proof. unfold total. by rewrite fmap_app, sumZ_app. Qed.

Lemma total_nonneg (l : list Z) : 0 <= total l.
Proof.
  unfold total. induction l as [|x l IH]; [done|].
  rewrite fmap_cons. cbn [sumZ foldr]. fold (sumZ (Z.abs <$> l)). lia.
Qed.

Lemma sumZ_abs_le {A : Type} (f : A -> Z) (amount : A -> Z) (l : list A) :
  (forall x, Z.abs (f x) <= Z.abs (amount x)) ->
  Z.abs (sumZ (f <$> l)) <= total (amount <$> l).
Proof.
  intros Hle. unfold total. induction l as [|x l IH]; [done|].
  rewrite !fmap_cons. cbn [sumZ foldr]. fold (sumZ (f <$> l)).
  fold (sumZ (Z.abs <$> (amount <$> l))). specialize (Hle x). lia.
Qed.

(** Every balance is bounded by the sum of the absolute values of the
    amounts [getBalanceOfAddress] reads, and so is every value the loops
    pass through, each being the balance of a shorter ledger. *)
Lemma getBalanceOfAddress_bound (address : string) (st : Blockchain) :
  Z.abs (getBalanceOfAddress address st) <= total (amounts_of st).
Proof.
  rewrite getBalanceOfAddress_by_amount. unfold balance_by_amount, amounts_of.
  rewrite fmap_app, total_app.
  pose proof (sumZ_abs_le (fun tx => credit address tx - debit address tx)
                Transaction.amount (ledger (chain st))) as Hchain.
  pose proof (sumZ_abs_le (debit address) Transaction.amount
                (pendingTransactions st)) as Hpool.
  assert (Z.abs (sumZ ((fun tx => credit address tx - debit address tx)
                         <$> ledger (chain st)))
          <= total (Transaction.amount <$> ledger (chain st))).
  { apply Hchain. intros tx. unfold credit, debit.
    repeat case_bool_decide; lia. }
  assert (Z.abs (sumZ (debit address <$> pendingTransactions st))
          <= total (Transaction.amount <$> pendingTransactions st)).
  { apply Hpool. intros tx. unfold debit. case_bool_decide; lia. }
  lia.
Qed.

Lemma amounts_of_mined (calls : nat) (env : MineEnv) (minerAddress : string)
    (st st' : Blockchain) (b : Block.t) :
  mine calls env minerAddress st = Some (Normal (Some b), st') ->
  total (amounts_of st') = total (amounts_of st ++ [miningReward st]).
Proof.
  intros Hmine. apply mine_completed in Hmine
    as (L & tgt & n & _ & _ & _ & _ & _ & -> & ->).
  unfold amounts_of, commit.
  cbn [chain set_chain set_pendingTransactions pendingTransactions newBlock].
  rewrite ledger_app, app_nil_r. unfold ledger at 2.
  cbn [fmap list_fmap mjoin list_join Block.transactions initial_frame
       transactions newBlock].
  rewrite app_nil_r, !fmap_app, app_assoc. reflexivity.
Qed.

(** C7 (as amended).  Across a completed run of the miner the balance of
    every address grows by the amounts of the pooled transactions it
    receives, plus the reward when it is the miner and minus the reward
    when it is the system sender; what it sent is not debited again, the
    pool having been debited already before the run.  The amounts and the
    reward are integers whose absolute values add up to [2^53] at most, so
    that the two balances are computed without rounding; both lie in that
    range. *)
Theorem mine_balance_change (calls : nat) (env : MineEnv)
    (minerAddress : string) (st st' : Blockchain) (b : Block.t)
    (address : string) :
  exact (amounts_of st ++ [miningReward st]) ->
  mine calls env minerAddress st = Some (Normal (Some b), st') ->
  getBalanceOfAddress address st'
  = getBalanceOfAddress address st
    + sumZ (credit address <$> pendingTransactions st)
    + (if bool_decide (minerAddress = address) then miningReward st else 0)
    - (if bool_decide (SYSTEM = address) then miningReward st else 0)
  /\ Z.abs (getBalanceOfAddress address st) <= 2 ^ 53
  /\ Z.abs (getBalanceOfAddress address st') <= 2 ^ 53.
Proof.
  intros Hexact Hmine.
  split; [exact (balance_after_mine calls env minerAddress st st' b address
                   Hmine)|].
  pose proof (getBalanceOfAddress_bound address st) as Hst.
  pose proof (getBalanceOfAddress_bound address st') as Hst'.
  rewrite (amounts_of_mined _ _ _ _ _ _ Hmine) in Hst'.
  unfold exact in Hexact. rewrite total_app in Hexact.
  pose proof (total_nonneg [miningReward st]).
  rewrite total_app in Hst'. lia.
Qed.

(** C10.  A transaction whose sender is the system marker, with any
    non-empty recipient and signature and any amount, is accepted by
    [addTransaction]; the verifier is never consulted about it; and the
    chain obtained by mining it on a valid chain is reported valid. *)
Theorem forged_system_transaction (forged : Transaction.t) (st : Blockchain) :
  Transaction.sender forged = SYSTEM ->
  Transaction.recipient forged <> "" ->
  Transaction.signature forged <> "" ->
  addTransaction forged st
  = (Normal tt,
     set_pendingTransactions (pendingTransactions st ++ [forged]) st)
  /\ ~ signature_rejected forged
  /\ forall calls env minerAddress b st',
       isChainValid st = {| isValid := true; errorBlockIndex := -1 |} ->
       (forall tx, tx ∈ pendingTransactions st -> ~ signature_rejected tx) ->
       mine calls env minerAddress (addTransaction forged st).2
       = Some (Normal (Some b), st') ->
       forged ∈ Block.transactions b
       /\ isChainValid st' = {| isValid := true; errorBlockIndex := -1 |}
       /\ getBalanceOfAddress (Transaction.recipient forged) st'
          = getBalanceOfAddress (Transaction.recipient forged) st
            + sumZ (credit (Transaction.recipient forged)
                      <$> pendingTransactions st)
            + Transaction.amount forged
            - debit (Transaction.recipient forged) forged
            + (if bool_decide (minerAddress = Transaction.recipient forged)
               then miningReward st else 0)
            - (if bool_decide (SYSTEM = Transaction.recipient forged)
               then miningReward st else 0).
Proof.
  intros Hsender Hrecipient Hsignature.
  assert (Hadd : addTransaction forged st
                 = (Normal tt,
                    set_pendingTransactions (pendingTransactions st ++ [forged]) st)).
  { unfold addTransaction, JS.falsy. rewrite Hsender.
    rewrite (bool_decide_eq_false_2 (SYSTEM = "")) by done.
    by rewrite !bool_decide_eq_false_2. }
  split; [done|]. split; [by intros [Hsys _]|].
  intros calls env minerAddress b st' Hvalid Hpool. rewrite Hadd. simpl.
  intros Hmine.
  assert (Hv : validate (chain st) = None).
  { unfold isChainValid in Hvalid. by destruct (validate (chain st)) as [[]|]. }
  split; [|split].
  - apply mine_completed in Hmine
      as (L & tgt & n & _ & _ & _ & _ & _ & -> & _). simpl.
    apply elem_of_app. left. apply elem_of_app. right. by left.
  - unfold isChainValid.
    rewrite (mine_preserves_validity calls env minerAddress
               (set_pendingTransactions (pendingTransactions st ++ [forged]) st)
               st' b); [done | done | | done].
    simpl. intros tx [Hin | ->%list_elem_of_singleton]%elem_of_app;
      [by apply Hpool | by intros [Hsys _]].
  - rewrite (balance_after_mine calls env minerAddress _ st' b _ Hmine).
    rewrite !getBalanceOfAddress_by_amount. unfold balance_by_amount. simpl.
    rewrite !fmap_app, !sumZ_app. simpl.
    assert (credit (Transaction.recipient forged) forged
            = Transaction.amount forged) as ->.
    { unfold credit. by rewrite bool_decide_eq_true_2. }
    lia.
Qed.

End GrowthProperties.

Section SerializationProperties.

Lemma app_nil_r_s (a : string) : a +:+ "" = a.
Proof. induction a as [|x a IH]; [done|]. by rewrite app_cons_s, IH. Qed.

Lemma concat_cons_s (x : string) (xs : list string) :
  String.concat "," (x :: xs) = x +:+ joined_after xs.
Proof. destruct xs; simpl; [by rewrite app_nil_r_s | done]. Qed.

Lemma concat_middle (l1 l2 : list string) (m : string) :
  String.concat "," (l1 ++ m :: l2)
  = joined_before l1 +:+ (m +:+ joined_after l2).
Proof.
  induction l1 as [|x l1 IH].
  - simpl app. rewrite concat_cons_s. done.
  - change ((x :: l1) ++ m :: l2) with (x :: (l1 ++ m :: l2)).
    rewrite concat_cons_s.
    destruct (l1 ++ m :: l2) as [|y ys] eqn:Heq; [by destruct l1|].
    unfold joined_after. rewrite IH. simpl joined_before.
    by rewrite !app_assoc_s.
Qed.

Lemma json_members_amount (a : Z) (tx : Transaction.t) :
  json_members (Transaction.set_amount a tx)
  = members_before tx
      ++ json_member "amount" (JS.num_to_string a) :: members_after tx.
Proof. by destruct tx as [? ? ? ? [?|] ? ? []]. Qed.

(** The serialization of a list of transactions is the amount of the
    first one between two strings that do not depend on that amount. *)
Lemma JSON_stringify_amount (tx : Transaction.t) (rest : list Transaction.t) :
  exists before after,
    forall a,
      JSON_stringify (Transaction.set_amount a tx :: rest)
      = before +:+ (JS.num_to_string a +:+ after).
Proof.
  exists ("[" +:+ "{" +:+ joined_before (members_before tx)
            +:+ JS.json_string "amount" +:+ ":"),
         (joined_after (members_after tx) +:+ "}"
            +:+ joined_after (json_object <$> rest) +:+ "]").
  intros a. unfold JSON_stringify. rewrite fmap_cons, concat_cons_s.
  unfold json_object at 1. rewrite json_members_amount, concat_middle.
  unfold json_member. by rewrite !app_assoc_s.
Qed.

Lemma set_amount_same (tx : Transaction.t) :
  Transaction.set_amount (Transaction.amount tx) tx = tx.
Proof. by destruct tx. Qed.

Lemma block_data_amount_inj (index : Z) (previousHash : string)
    (timestamp : Z) (tx : Transaction.t) (rest : list Transaction.t)
    (nonce a : Z) :
  block_data index previousHash timestamp
    (Transaction.set_amount a tx :: rest) nonce
  = block_data index previousHash timestamp (tx :: rest) nonce ->
  a = Transaction.amount tx.
Proof.
  rewrite <- (set_amount_same tx) at 2.
  destruct (JSON_stringify_amount tx rest) as (before & after & Hjson).
  unfold block_data. rewrite !Hjson.
  intros Heq.
  do 3 apply app_inv_head_s in Heq.
  apply app_inv_tail_s in Heq.
  apply app_inv_head_s in Heq.
  apply app_inv_tail_s in Heq.
  by apply (inj pretty) in Heq.
Qed.

Lemma block_data_nonempty (index : Z) (previousHash : string)
    (timestamp : Z) (tx : Transaction.t) (nonce : Z) :
  block_data index previousHash timestamp [tx] nonce
  <> block_data index previousHash timestamp [] nonce.
Proof.
  unfold block_data. intros Heq.
  do 3 apply app_inv_head_s in Heq.
  apply app_inv_tail_s in Heq.
  unfold JSON_stringify, json_object in Heq. simpl in Heq.
  rewrite !app_cons_s, !app_nil_s in Heq. discriminate Heq.
Qed.

(** A printed number is never the empty string. *)
Lemma pretty_N_go_length (x : N) (s : string) :
  (String.length s <= String.length (pretty_N_go x s))%nat.
Proof.
  revert s. induction (N.lt_wf_0 x) as [x _ IH]; intros s.
  destruct (decide (x = 0%N)) as [->|Hx].
  - by rewrite pretty_N_go_0.
  - rewrite pretty_N_go_step by lia.
    etrans; [|apply IH; apply N.div_lt; lia]. simpl. lia.
Qed.

Lemma num_to_string_nonempty (z : Z) : JS.num_to_string z <> "".
Proof.
  assert (Hpos : forall p : positive, pretty (N.pos p) <> "").
  { intros p Heq. unfold pretty, pretty_N in Heq.
    rewrite decide_False in Heq by done.
    rewrite pretty_N_go_step in Heq by lia.
    pose proof (pretty_N_go_length (N.pos p `div` 10)
                  (String (pretty_N_char (N.pos p `mod` 10)) "")) as Hlen.
    rewrite Heq in Hlen. simpl in Hlen. lia. }
  unfold JS.num_to_string, pretty, pretty_Z.
  destruct z as [|p|p]; [done | apply Hpos | done].
Qed.

End SerializationProperties.

Section CorruptionProperties.
Context `{WebCrypto}.

Lemma tamper_fields (now : Z) (b : Block.t) :
  Block.index (tamper now b) = Block.index b
  /\ Block.previousHash (tamper now b) = Block.previousHash b
  /\ Block.timestamp (tamper now b) = Block.timestamp b
  /\ Block.nonce (tamper now b) = Block.nonce b
  /\ Block.hash (tamper now b) = Block.hash b.
Proof. unfold tamper. by destruct (Block.transactions b). Qed.

(** The data hashed for a block changes under [tamper], unless the amount
    it writes is the amount already there. *)
Lemma tamper_block_data (now : Z) (b : Block.t) :
  (forall tx0 rest, Block.transactions b = tx0 :: rest ->
                    Transaction.amount tx0 <> 999999999) ->
  block_data (Block.index b) (Block.previousHash b) (Block.timestamp b)
    (Block.transactions (tamper now b)) (Block.nonce b)
  <> block_data (Block.index b) (Block.previousHash b) (Block.timestamp b)
       (Block.transactions b) (Block.nonce b).
Proof.
  intros Hamount. unfold tamper.
  destruct (Block.transactions b) as [|tx0 rest] eqn:Htxs; simpl.
  - apply block_data_nonempty.
  - intros Heq%block_data_amount_inj. by apply (Hamount tx0 rest).
Qed.

(** Tampering with the genesis block goes unnoticed. *)
Lemma corruptBlock_genesis_unnoticed (now : Z) (st : Blockchain) :
  isChainValid (corruptBlock now 0 st).2 = isChainValid st.
Proof.
  unfold corruptBlock. destruct (_ && _); [|done]. simpl.
  destruct (chain st) as [|g rest] eqn:Hchain.
  - unfold isChainValid. simpl. by rewrite Hchain.
  - unfold isChainValid. simpl. rewrite Hchain.
    rewrite (validate_genesis g (tamper now g)); [done|].
    apply tamper_fields.
Qed.

(** C8 (as amended).  After [corruptBlock(i)] on a block of index [i >= 1]
    whose stored hash matched its contents and whose first transaction did
    not already carry the amount written by the corruption, [isChainValid]
    reports an invalid chain at an index between 1 and [i], provided the
    digest does not send the block data before and after the change to the
    same value. *)
Theorem corruptBlock_detected (now i : Z) (st : Blockchain) (b : Block.t) :
  1 <= i ->
  chain st !! Z.to_nat i = Some b ->
  ~ hash_stale b ->
  (forall tx0 rest, Block.transactions b = tx0 :: rest ->
                    Transaction.amount tx0 <> 999999999) ->
  (sha256 (block_data (Block.index b) (Block.previousHash b)
             (Block.timestamp b) (Block.transactions (tamper now b))
             (Block.nonce b))
   = sha256 (block_data (Block.index b) (Block.previousHash b)
               (Block.timestamp b) (Block.transactions b) (Block.nonce b)) ->
   block_data (Block.index b) (Block.previousHash b) (Block.timestamp b)
     (Block.transactions (tamper now b)) (Block.nonce b)
   = block_data (Block.index b) (Block.previousHash b) (Block.timestamp b)
       (Block.transactions b) (Block.nonce b)) ->
  exists j : Z,
    isChainValid (corruptBlock now i st).2
    = {| isValid := false; errorBlockIndex := j |}
    /\ 1 <= j <= i.
Proof.
  intros Hi Hb Hfresh Hamount Hcollision.
  pose proof (lookup_lt_Some _ _ _ Hb) as Hlen.
  set (k := Z.to_nat i) in *.
  assert (Hk : (1 <= k)%nat) by lia.
  unfold corruptBlock.
  replace ((0 <=? i) && (i <? Z.of_nat (length (chain st)))) with true by lia.
  simpl. fold k.
  set (chain' := alter (tamper now) k (chain st)).
  destruct (lookup_lt_is_Some_2 (chain st) (k - 1)) as [prev Hprev]; [lia|].
  assert (Hfail : fails_at chain' k).
  { exists prev, (tamper now b). split; [|split].
    - unfold chain'. rewrite list_lookup_alter_ne by lia. done.
    - unfold chain'. rewrite list_lookup_alter_eq, Hb. done.
    - right; right. unfold hash_stale.
      destruct (tamper_fields now b) as (-> & -> & -> & -> & ->).
      assert (Block.hash b
              = calculateHash (Block.index b) (Block.previousHash b)
                  (Block.timestamp b) (Block.transactions b) (Block.nonce b))
        as -> by (by apply dec_stable).
      intros Heq. symmetry in Heq. apply Hcollision in Heq.
      by apply (tamper_block_data now b). }
  unfold isChainValid. simpl. fold chain'.
  destruct (validate chain') as [[j f]|] eqn:Hv.
  - exists (Z.of_nat j). split; [done|].
    apply validate_Some in Hv as (Hj & _ & Hbefore).
    destruct (decide (j <= k)%nat); [lia|].
    exfalso. apply (Hbefore k); [lia | done].
  - exfalso. rewrite validate_None in Hv. apply (Hv k); [|done].
    unfold chain'. rewrite length_alter. lia.
Qed.

End CorruptionProperties.

Section SigningProperties.
Context `{WebCrypto}.

Lemma fee_changes_message (wallet : WalletKeys) (recipient : string)
    (amount fee now : Z) :
  handleSend_dataToSign wallet recipient amount now
  <> confirmSend_dataToSign wallet recipient amount fee now.
Proof.
  unfold handleSend_dataToSign, confirmSend_dataToSign. intros Heq.
  do 3 apply app_inv_head_s in Heq.
  rewrite <- (app_nil_s (JS.num_to_string now)) in Heq at 1.
  apply app_inv_tail_s in Heq.
  by apply (num_to_string_nonempty fee).
Qed.

(** C2.  The message [isChainValid] rebuilds for a transaction is the
    message [handleSend] signed, and is never the message [confirmSend]
    signed: the latter holds the fee between the amount and the
    timestamp, the former does not. *)
Theorem dataToVerify_against_dataToSign (wallet : WalletKeys)
    (recipient : string) (amount fee now : Z) (uuid : string) :
  match handleSend wallet recipient amount now uuid with
  | Some tx => dataToVerify tx = handleSend_dataToSign wallet recipient amount now
  | None => recipient = ""
  end
  /\ match confirmSend wallet recipient amount fee now uuid with
     | Some tx =>
         dataToVerify tx <> confirmSend_dataToSign wallet recipient amount fee now
     | None => recipient = ""
     end.
Proof.
  unfold handleSend, confirmSend, JS.falsy. case_bool_decide; [done|].
  split; [done|]. apply fee_changes_message.
Qed.

(** With a verifier that accepts a signature for the signed message only,
    the validator rejects what [confirmSend] produced. *)
Lemma confirmSend_rejected (wallet : WalletKeys) (recipient : string)
    (amount fee now : Z) (uuid : string) (tx : Transaction.t) :
  (forall data data',
      verifySignature (publicKeyPem wallet)
        (signData (privateKey wallet) data) data' = true -> data' = data) ->
  publicKeyPem wallet <> SYSTEM ->
  confirmSend wallet recipient amount fee now uuid = Some tx ->
  signature_rejected tx.
Proof.
  intros Hsound Hsys Hsend.
  unfold confirmSend in Hsend. destruct (JS.falsy recipient); [done|].
  injection Hsend as <-. split; [done|]. simpl.
  apply not_true_is_false. intros Hv. apply Hsound in Hv.
  by apply (fee_changes_message wallet recipient amount fee now).
Qed.

(** With a verifier that accepts the signature of the signed message,
    the validator accepts what [handleSend] produced. *)
Lemma handleSend_accepted (wallet : WalletKeys) (recipient : string)
    (amount now : Z) (uuid : string) (tx : Transaction.t) :
  (forall data,
      verifySignature (publicKeyPem wallet)
        (signData (privateKey wallet) data) data = true) ->
  handleSend wallet recipient amount now uuid = Some tx ->
  ~ signature_rejected tx.
Proof.
  intros Hcorrect Hsend [_ Hrej].
  unfold handleSend in Hsend. destruct (JS.falsy recipient); [done|].
  injection Hsend as <-. simpl in Hrej.
  unfold dataToVerify in Hrej. simpl in Hrej.
  unfold handleSend_dataToSign in Hrej. by rewrite Hcorrect in Hrej.
Qed.

End SigningProperties.

(** * The properties on a run of the engine *)

Section Scenarios.
Import Demo.
Local Existing Instance browser.

Lemma first_run_completed :
  mine 2 env1 "A1" genesis_state
  = Some (Normal (Some first_block), first_state).
Proof. vm_compute. reflexivity. Qed.

Lemma plain_run_completed :
  mine 2 (env2 1700000120063) "C3" plain_pending
  = Some (Normal (Some plain_block), plain_state).
Proof. vm_compute. reflexivity. Qed.

Lemma forged_run_completed :
  mine 2 (env2 1700000120020) "C3" (addTransaction forged first_state).2
  = Some (Normal (Some forged_block), forged_state).
Proof. vm_compute. reflexivity. Qed.

(** The end-to-end scenario of the specification: after [initialize()]
    the chain is the genesis block alone; the first mined block has index
    1, two leading zeros and the genesis hash as previous hash. *)
Lemma end_to_end_first_block :
  length (chain genesis_state) = 1%nat
  /\ Block.index genesis_block = 0
  /\ Block.previousHash genesis_block = "0"
  /\ Block.index first_block = 1
  /\ Block.previousHash first_block = Block.hash genesis_block
  /\ Block.nonce first_block = 3
  /\ Block.hash first_block
     = "00a69b5b47f59420d407f16acc66309ed6234a163af4b92d7b9acf99f5bf43c6".
Proof. vm_compute. by repeat split. Qed.

Lemma mine_appends_one_block_witness :
  chain plain_state = chain plain_pending ++ [plain_block]
  /\ Block.index plain_block = Block.index first_block + 1
  /\ Block.previousHash plain_block = Block.hash first_block
  /\ Block.transactions plain_block
     = pendingTransactions plain_pending
         ++ [rewardTx (env2 1700000120063) "C3" plain_pending]
  /\ length (pendingTransactions plain_pending) = 1%nat
  /\ Block.difficulty plain_block = difficulty plain_pending
  /\ pendingTransactions plain_state = [].
Proof.
  assert (Hlast : getLatestBlock plain_pending = Some first_block)
    by (vm_compute; reflexivity).
  pose proof (mine_appends_one_block 2 (env2 1700000120063) "C3" plain_pending
                plain_state plain_block first_block Hlast plain_run_completed)
    as (H1 & H2 & H3 & H4 & _ & _ & _ & _ & _ & H5 & H6 & _).
  split; [exact H1|]. split; [exact H2|]. split; [exact H3|].
  split; [exact H4|]. split; [vm_compute; reflexivity|].
  split; [exact H5 | exact H6].
Defined.

Lemma mined_nonce_is_least_witness :
  Block.nonce first_block = 3
  /\ leading_zeros (Block.difficulty first_block) (Block.hash first_block)
  /\ ~ leading_zeros (Block.difficulty first_block)
       (calculateHash (Block.index first_block)
          (Block.previousHash first_block) (Block.timestamp first_block)
          (Block.transactions first_block) 2).
Proof.
  pose proof (proj1 (mined_nonce_is_least env1 "A1" genesis_state) 2%nat
                first_block first_state first_run_completed)
    as (_ & _ & _ & Hzeros & Hleast).
  split; [vm_compute; reflexivity|].
  split; [exact Hzeros|].
  refine (Hleast 2 _). vm_compute. split; [discriminate | reflexivity].
Defined.

Lemma addTransaction_cases_witness :
  (exists e, addTransaction unsigned first_state = (Throw e, first_state)
             /\ TxError_of e = Some MissingSignature)
  /\ length (pendingTransactions (addTransaction unsigned first_state).2)
     = length (pendingTransactions first_state).
Proof.
  pose proof (addTransaction_cases unsigned first_state) as (_ & Hsig & _).
  destruct Hsig as (e & Hthrow & Herr);
    [vm_compute; discriminate | vm_compute; discriminate
     | vm_compute; reflexivity |].
  split; [exists e; exact (conj Hthrow Herr)|].
  rewrite Hthrow. reflexivity.
Defined.

(** C6.  The balance the engine computes is the sum of the amounts
    received minus the amounts sent over the chain, minus the amounts sent
    from the pool, and nothing else: a fee carried by a transaction is not
    debited.  After A1 (balance 100) sends 10 with a fee of 1, its balance
    is 90 both while the transaction is pending and once it is mined, where
    debiting the fee gives 89. *)
Theorem getBalanceOfAddress_ignores_fee :
  (forall address st,
      getBalanceOfAddress address st = balance_by_amount address st)
  /\ getBalanceOfAddress "A1" first_state = 100
  /\ getBalanceOfAddress "A1" fee_pending = 90
  /\ balance_with_fee "A1" fee_pending = 89
  /\ getBalanceOfAddress "A1" fee_state = 90
  /\ balance_with_fee "A1" fee_state = 89.
Proof.
  split; [apply getBalanceOfAddress_by_amount|].
  vm_compute. by repeat split.
Qed.

(** The transaction [confirmSend] signed is rejected by the validator once
    mined, the one [handleSend] signed is not. *)
Lemma confirmSend_block_reported_invalid :
  isChainValid fee_state = {| isValid := false; errorBlockIndex := 2 |}
  /\ isChainValid_warnings fee_state
     = ["Invalid signature detected in block 2, transaction "
          +:+ "7f0c9d3e-52a1-4c1b-9a58-0d6f4e2b8c11"]
  /\ isChainValid plain_state = {| isValid := true; errorBlockIndex := -1 |}.
Proof. vm_compute. by repeat split. Qed.

(** C7, as first stated, fails: the transaction of A1 is included in the
    block, and the balance of A1 is the same before and after the run. *)
Lemma mine_balance_counterexample :
  exists tx,
    tx_plain = Some tx
    /\ mine 2 (env2 1700000120063) "C3" plain_pending
       = Some (Normal (Some plain_block), plain_state)
    /\ tx ∈ Block.transactions plain_block
    /\ Transaction.sender tx = "A1"
    /\ Transaction.amount tx = 10
    /\ getBalanceOfAddress "A1" plain_pending = 90
    /\ getBalanceOfAddress "A1" plain_state = 90.
Proof.
  exists (default unsigned tx_plain).
  split; [vm_compute; reflexivity|].
  split; [apply plain_run_completed|].
  split; [vm_compute; by left|].
  vm_compute. by repeat split.
Qed.

Lemma mine_balance_change_witness :
  exact (amounts_of plain_pending ++ [miningReward plain_pending])
  /\ total (amounts_of plain_pending ++ [miningReward plain_pending]) = 210
  /\ sumZ (credit "B2" <$> pendingTransactions plain_pending) = 10
  /\ getBalanceOfAddress "B2" plain_state
     = getBalanceOfAddress "B2" plain_pending
       + sumZ (credit "B2" <$> pendingTransactions plain_pending)
       + (if bool_decide ("C3" = "B2") then miningReward plain_pending else 0)
       - (if bool_decide (SYSTEM = "B2") then miningReward plain_pending else 0)
  /\ Z.abs (getBalanceOfAddress "B2" plain_pending) <= 2 ^ 53
  /\ Z.abs (getBalanceOfAddress "B2" plain_state) <= 2 ^ 53.
Proof.
  assert (Hexact : exact (amounts_of plain_pending
                            ++ [miningReward plain_pending]))
    by (vm_compute; discriminate).
  split; [exact Hexact|]. split; [vm_compute; reflexivity|].
  split; [vm_compute; reflexivity|].
  exact (mine_balance_change 2 (env2 1700000120063) "C3" plain_pending
           plain_state plain_block "B2" Hexact plain_run_completed).
Defined.

(** C8, as first stated, fails: corrupting the genesis block of a fresh
    chain puts a transaction into it and is not reported; and on a chain
    already corrupted at block 2, corrupting block 0 is followed by a
    report at index 2. *)
Lemma corruptBlock_counterexample :
  Block.transactions <$> chain (corruptBlock 1700000200000 0 genesis_state).2
  = [[fakeTransaction 1700000200000]]
  /\ isChainValid (corruptBlock 1700000200000 0 genesis_state).2
     = {| isValid := true; errorBlockIndex := -1 |}
  /\ isChainValid
       (corruptBlock 1700000200000 0
          (corruptBlock 1700000200000 2 plain_state).2).2
     = {| isValid := false; errorBlockIndex := 2 |}.
Proof. vm_compute. by repeat split. Qed.

Lemma corruptBlock_detected_witness :
  exists j : Z,
    isChainValid (corruptBlock 1700000200000 1 first_state).2
    = {| isValid := false; errorBlockIndex := j |}
    /\ 1 <= j <= 1.
Proof.
  apply (corruptBlock_detected 1700000200000 1 first_state first_block).
  - lia.
  - vm_compute. reflexivity.
  - intros Hstale. apply Hstale. vm_compute. reflexivity.
  - intros tx0 rest Htxs. vm_compute in Htxs. injection Htxs as <- _.
    vm_compute. discriminate.
  - intros Hcollision. vm_compute in Hcollision. discriminate Hcollision.
Defined.

(** When the first transaction already carries the amount [corruptBlock]
    writes, the call changes nothing and the chain stays valid. *)
Lemma corruptBlock_without_effect :
  length (chain rich_state) = 2%nat
  /\ chain (corruptBlock 1700000200000 1 rich_state).2 = chain rich_state
  /\ isChainValid (corruptBlock 1700000200000 1 rich_state).2
     = {| isValid := true; errorBlockIndex := -1 |}.
Proof. vm_compute. by repeat split. Qed.

(** The scenario of the specification: one block mined, then
    [corruptBlock(1)], then [isChainValid()]. *)
Lemma corruptBlock_first_block :
  isChainValid (corruptBlock 1700000200000 1 first_state).2
  = {| isValid := false; errorBlockIndex := 1 |}.
Proof. vm_compute. reflexivity. Qed.

Lemma cancelled_mine_changes_nothing_witness :
  progress_calls 1 env1 (NotStarted "A1") busy_state
  = Some (busy_generator, busy_state)
  /\ cancel busy_generator busy_state = (Completed, busy_state)
  /\ chain busy_state = chain busy_state
  /\ pendingTransactions busy_state = pendingTransactions busy_state
  /\ next env1 (cancel busy_generator busy_state).1
       (cancel busy_generator busy_state).2
     = (Normal (Returned None), Completed, busy_state).
Proof.
  assert (Hrun : progress_calls 1 env1 (NotStarted "A1") busy_state
                 = Some (busy_generator, busy_state))
    by (vm_compute; reflexivity).
  split; [exact Hrun|].
  exact (cancelled_mine_changes_nothing 1 env1 "A1" busy_state busy_state
           busy_generator Hrun).
Defined.

Lemma forged_system_transaction_witness :
  addTransaction forged first_state
  = (Normal tt,
     set_pendingTransactions (pendingTransactions first_state ++ [forged])
       first_state)
  /\ forged ∈ Block.transactions forged_block
  /\ isChainValid forged_state = {| isValid := true; errorBlockIndex := -1 |}
  /\ getBalanceOfAddress "E5" forged_state = 1000000.
Proof.
  pose proof (forged_system_transaction forged first_state eq_refl)
    as Hforged.
  destruct Hforged as (Hadd & _ & Hmined);
    [vm_compute; discriminate | vm_compute; discriminate |].
  split; [exact Hadd|].
  destruct (Hmined 2%nat (env2 1700000120020) "C3" forged_block forged_state)
    as (Hin & Hvalid & _).
  - vm_compute. reflexivity.
  - intros tx Hin. vm_compute in Hin. inversion Hin.
  - exact forged_run_completed.
  - split; [exact Hin|]. split; [exact Hvalid|].
    vm_compute. reflexivity.
Defined.

End Scenarios.

(** * Further properties of the code *)

Section HexProperties.

Lemma concat_empty_cons (x : string) (xs : list string) :
  String.concat "" (x :: xs) = x +:+ String.concat "" xs.
Proof. destruct xs; simpl; [by rewrite app_nil_r_s | done]. Qed.

Lemma bufferToHex_cons (b : Z) (bs : list Z) :
  bufferToHex (b :: bs)
  = JS.padStart2 (JS.byte_toString16 b) +:+ bufferToHex bs.
Proof. unfold bufferToHex. rewrite fmap_cons. apply concat_empty_cons. Qed.

Lemma byte_round_trip_all (b : Z) : 0 <= b < 256 -> byte_round_trip b = true.
Proof.
  intros Hb.
  assert (Hall : forallb byte_round_trip (seqZ 0 256) = true)
    by (vm_compute; reflexivity).
  rewrite forallb_forall in Hall. apply Hall.
  apply list_elem_of_In, elem_of_seqZ. lia.
Qed.

Lemma match_pairs_unfold (c1 c2 : ascii) (s : string) :
  match_pairs (String c1 (String c2 s))
  = if is_line_terminator c1 then match_pairs (String c2 s)
    else if is_line_terminator c2 then String c1 "" :: match_pairs s
    else String c1 (String c2 "") :: match_pairs s.
Proof. reflexivity. Qed.

Lemma match_pairs_two (c1 c2 : ascii) (s : string) :
  is_line_terminator c1 = false -> is_line_terminator c2 = false ->
  match_pairs (String c1 (String c2 s))
  = String c1 (String c2 "") :: match_pairs s.
Proof. intros H1 H2. simpl. by rewrite H1, H2. Qed.

Lemma hexToBuffer_bufferToHex_cons (b : Z) (bs : list Z) :
  0 <= b < 256 ->
  hexToBuffer (bufferToHex (b :: bs)) = b :: hexToBuffer (bufferToHex bs).
Proof.
  intros Hb. pose proof (byte_round_trip_all b Hb) as Hrt.
  unfold byte_round_trip in Hrt. rewrite bufferToHex_cons.
  destruct (JS.padStart2 (JS.byte_toString16 b)) as [|c1 [|c2 [|? ?]]];
    try discriminate.
  apply andb_prop in Hrt as [Hrt Hv]. apply andb_prop in Hrt as [Hc1 Hc2].
  apply negb_true_iff in Hc1, Hc2. apply Z.eqb_eq in Hv.
  rewrite !app_cons_s, app_nil_s. unfold hexToBuffer.
  rewrite (match_pairs_two _ _ _ Hc1 Hc2), fmap_cons. by rewrite Hv.
Qed.

(** X1.  Round trip of the two hexadecimal conversions of cryptoService:
    [hexToBuffer (bufferToHex bs)] is [bs] again for every array of bytes
    (numbers from 0 to 255), so [bufferToHex] loses nothing: the signature
    [signData] prints and the key [generateKeyPair] prints are read back by
    [verifySignature] as the bytes they were. *)
Theorem hexToBuffer_bufferToHex (bs : list Z) :
  Forall (fun b => 0 <= b < 256) bs -> hexToBuffer (bufferToHex bs) = bs.
Proof.
  induction 1 as [|b bs Hb _ IH]; [reflexivity|].
  by rewrite hexToBuffer_bufferToHex_cons, IH.
Qed.

Lemma hexToBuffer_bufferToHex_witness :
  Forall (fun b => 0 <= b < 256) [0; 10; 171; 255]
  /\ bufferToHex [0; 10; 171; 255] = "000aabff"
  /\ hexToBuffer "000aabff" = [0; 10; 171; 255].
Proof.
  assert (H : Forall (fun b => 0 <= b < 256) [0; 10; 171; 255])
    by (repeat constructor; lia).
  split; [exact H|]. split; [reflexivity|].
  exact (hexToBuffer_bufferToHex [0; 10; 171; 255] H).
Defined.

Lemma match_pairs_length_le (n : nat) (s : string) :
  (String.length s <= n)%nat ->
  (2 * length (match_pairs s) <= String.length s + 1)%nat.
Proof.
  revert s. induction n as [n IH] using lt_wf_ind. intros s Hs.
  destruct s as [|c1 [|c2 s2]].
  - simpl. lia.
  - simpl. destruct is_line_terminator; simpl; lia.
  - cbn [String.length] in Hs.
    assert (IH2 : (2 * length (match_pairs s2) <= String.length s2 + 1)%nat)
      by (apply (IH (String.length s2)); lia).
    assert (IH1 : (2 * length (match_pairs (String c2 s2))
                   <= String.length (String c2 s2) + 1)%nat)
      by (apply (IH (String.length (String c2 s2))); cbn [String.length]; lia).
    cbn [String.length] in IH1 |- *.
    rewrite match_pairs_unfold.
    destruct (is_line_terminator c1); [lia|].
    destruct (is_line_terminator c2); cbn [length]; lia.
Qed.

Lemma match_pairs_no_terminator (n : nat) (s : string) :
  (String.length s <= n)%nat -> no_line_terminator s ->
  (2 * length (match_pairs s) = String.length s + String.length s mod 2)%nat.
Proof.
  revert s. induction n as [n IH] using lt_wf_ind. intros s Hs Hnt.
  destruct s as [|c1 [|c2 s2]]; [reflexivity| |].
  - simpl. rewrite (Hnt c1) by (simpl; left). reflexivity.
  - assert (H1 : is_line_terminator c1 = false) by (apply Hnt; simpl; left).
    assert (H2 : is_line_terminator c2 = false)
      by (apply Hnt; simpl; right; left).
    rewrite (match_pairs_two _ _ _ H1 H2).
    cbn [String.length] in Hs.
    assert (IH2 := IH (String.length s2) ltac:(lia) s2 ltac:(lia)).
    assert (Hnt2 : no_line_terminator s2)
      by (intros c Hc; apply Hnt; simpl; by do 2 right).
    specialize (IH2 Hnt2). cbn [length String.length].
    replace (S (S (String.length s2))) with (String.length s2 + 1 * 2)%nat
      by lia.
    rewrite Nat.Div0.mod_add. lia.
Qed.

Lemma ToUint8_range (x : option Z) : 0 <= ToUint8 x < 256.
Proof. destruct x; simpl; [apply Z.mod_pos_bound|]; lia. Qed.

Lemma digits16_not_hex (c : ascii) (s : string) :
  hex_value c = None -> digits16 (String c s) None = None.
Proof. intros H. simpl. by rewrite H. Qed.

End HexProperties.

Section MiningEdgeProperties.
Context `{WebCrypto}.

Lemma substring_length_le (n : nat) (s : string) :
  (String.length (String.substring 0 n s) <= String.length s)%nat.
Proof.
  revert n. induction s as [|c s IH]; intros [|n]; simpl; try lia.
  specialize (IH n). lia.
Qed.

Lemma repeat_string_length (c : ascii) (n : nat) :
  String.length (JS.repeat_string (String c "") n) = n.
Proof.
  induction n as [|n IH]; [done|].
  cbn [JS.repeat_string]. rewrite app_length_s, IH. reflexivity.
Qed.

Lemma bufferToHex_length (bs : list Z) :
  String.length (bufferToHex bs) = (2 * length bs)%nat.
Proof.
  induction bs as [|b bs IH]; [done|].
  rewrite bufferToHex_cons, app_length_s, IH.
  assert (String.length (JS.padStart2 (JS.byte_toString16 b)) = 2%nat).
  { unfold JS.byte_toString16. by destruct (b <? 16). }
  simpl. lia.
Qed.

(** A generator that was started: the frame of [next] on [NotStarted]. *)
Lemma next_NotStarted (env : MineEnv) (minerAddress : string)
    (st : Blockchain) (L : Block.t) (tgt : string) :
  getLatestBlock st = Some L ->
  JS.Array_join (difficulty st + 1) "0" = inr tgt ->
  let fr := initial_frame env minerAddress st L tgt in
  next env (NotStarted minerAddress) st = resume fr 0 (hash_at fr 0) st.
Proof. intros HL Ht. simpl. by rewrite HL, Ht. Qed.

Lemma Array_join_target (d : Z) :
  -1 <= d < 4294967295 ->
  JS.Array_join (d + 1) "0" = inr (JS.repeat_string "0" (Z.to_nat d)).
Proof.
  intros Hd. unfold JS.Array_join.
  replace (d + 1 <? 0) with false by (symmetry; apply Z.ltb_ge; lia).
  replace (4294967295 <? d + 1) with false by (symmetry; apply Z.ltb_ge; lia).
  simpl. do 2 f_equal. lia.
Qed.

Lemma Array_join_error (d : Z) :
  d < -1 \/ 4294967295 <= d ->
  JS.Array_join (d + 1) "0" = inl (JS.RangeError "Invalid array length").
Proof.
  intros Hd. unfold JS.Array_join.
  destruct Hd as [Hd|Hd].
  - by replace (d + 1 <? 0) with true by (symmetry; apply Z.ltb_lt; lia).
  - replace (4294967295 <? d + 1) with true by (symmetry; apply Z.ltb_lt; lia).
    by rewrite orb_true_r.
Qed.

Lemma getLatestBlock_None (st : Blockchain) :
  getLatestBlock st = None <-> chain st = [].
Proof. unfold getLatestBlock. apply last_None. Qed.

Lemma pow_loop_met (steps : nat) (d : Z) (fr : Frame) (nonce : Z)
    (hash : string) :
  JS.substring0 d hash = target fr ->
  pow_loop steps d fr nonce hash = TargetMet nonce hash.
Proof. intros Hmet. destruct steps; simpl; by rewrite bool_decide_false by auto. Qed.

Lemma substring0_nonpositive (d : Z) (hash : string) :
  d <= 0 -> JS.substring0 d hash = "".
Proof.
  intros Hd. unfold JS.substring0.
  replace (Z.to_nat d) with 0%nat by lia. by destruct hash.
Qed.

(** X3.  The errors of [minePendingTransactions]: on an engine without a
    block (before [initialize]) the first [next()] throws a [TypeError], on
    an engine whose difficulty is below -1 or at least [2^32 - 1] a
    [RangeError] (the array of the target cannot be built); and whenever the
    mining operation throws, at any call, the engine is what it was: no
    block is appended and the pool is kept. *)
Theorem mine_throws_unchanged (env : MineEnv) (minerAddress : string)
    (st : Blockchain) :
  (forall calls,
      chain st = [] ->
      mine (S calls) env minerAddress st
      = Some (Throw (JS.TypeError "Cannot read properties of undefined"), st))
  /\ (forall calls,
        chain st <> [] ->
        difficulty st < -1 \/ 4294967295 <= difficulty st ->
        mine (S calls) env minerAddress st
        = Some (Throw (JS.RangeError "Invalid array length"), st))
  /\ (forall calls e st',
        mine calls env minerAddress st = Some (Throw e, st') ->
        st' = st
        /\ (chain st = []
            \/ exists e', JS.Array_join (difficulty st + 1) "0" = inl e')).
Proof.
  split; [|split].
  - intros calls Hempty. apply getLatestBlock_None in Hempty.
    unfold mine. simpl. by rewrite Hempty.
  - intros calls Hne Hd.
    destruct (getLatestBlock st) as [L|] eqn:HL;
      [|by apply getLatestBlock_None in HL].
    unfold mine. simpl. by rewrite HL, (Array_join_error _ Hd).
  - intros [|calls] e st' Hrun; [discriminate|].
    destruct (getLatestBlock st) as [L|] eqn:HL.
    + destruct (JS.Array_join (difficulty st + 1) "0") as [err|tgt] eqn:Ht.
      * revert Hrun. unfold mine. simpl. rewrite HL, Ht.
        intros [= _ <-]. split; [done|]. right. by exists err.
      * rewrite (mine_unfold _ _ _ _ _ _ HL Ht) in Hrun.
        apply mine_loop_searching in Hrun as (n & _ & _ & _ & Hr & _);
          [discriminate| lia | intros; lia].
    + revert Hrun. unfold mine. simpl. rewrite HL. intros [= _ <-].
      split; [done|]. left. by apply getLatestBlock_None.
Qed.

(** X4.  Mining without work: with the difficulty set to 0 (or -1) the
    target is the empty string, the loop test fails at once, and the first
    call of [next()] commits the block with nonce 0 whatever its digest is;
    the second call returns it. *)
Theorem mine_without_work (env : MineEnv) (minerAddress : string)
    (st : Blockchain) (L : Block.t) :
  getLatestBlock st = Some L ->
  -1 <= difficulty st <= 0 ->
  exists b,
    mine 2 env minerAddress st = Some (Normal (Some b), commit b st)
    /\ Block.nonce b = 0
    /\ Block.hash b
       = calculateHash (Block.index L + 1) (Block.hash L) (now_block env)
           (pendingTransactions st ++ [rewardTx env minerAddress st]) 0
    /\ Block.transactions b
       = pendingTransactions st ++ [rewardTx env minerAddress st].
Proof.
  intros HL Hd.
  assert (Ht : JS.Array_join (difficulty st + 1) "0" = inr "").
  { rewrite Array_join_target by lia.
    by replace (Z.to_nat (difficulty st)) with 0%nat by lia. }
  set (fr := initial_frame env minerAddress st L "").
  exists (newBlock fr 0 (hash_at fr 0) st).
  split; [|by repeat split].
  unfold mine.
  change (mine_loop 2 env (NotStarted minerAddress) st)
    with (match next env (NotStarted minerAddress) st with
          | (Normal (Yielded _), g', st') => mine_loop 1 env g' st'
          | (Normal (Returned value), _, st') => Some (Normal value, st')
          | (Throw e, _, st') => Some (Throw e, st')
          end).
  rewrite (next_NotStarted _ _ _ _ _ HL Ht). fold fr. unfold resume.
  rewrite pow_loop_met; [reflexivity|].
  by rewrite substring0_nonpositive by lia.
Qed.

Lemma hash_at_length (fr : Frame) (nonce : Z) :
  (forall msg, length (subtle_digest_SHA256 msg) = 32%nat) ->
  String.length (hash_at fr nonce) = 64%nat.
Proof.
  intros Hlen. unfold hash_at, calculateHash, sha256.
  by rewrite bufferToHex_length, Hlen.
Qed.

Lemma target_out_of_reach (d : Z) (fr : Frame) (nonce : Z) :
  (forall msg, length (subtle_digest_SHA256 msg) = 32%nat) ->
  64 < d -> target fr = JS.repeat_string "0" (Z.to_nat d) ->
  JS.substring0 d (hash_at fr nonce) <> target fr.
Proof.
  intros Hlen Hd Ht Heq. apply (f_equal String.length) in Heq.
  rewrite Ht, repeat_string_length in Heq.
  pose proof (substring_length_le (Z.to_nat d) (hash_at fr nonce)) as Hle.
  unfold JS.substring0 in Heq. rewrite Heq, hash_at_length in Hle by done. lia.
Qed.

Lemma resume_searching (fr : Frame) (nonce : Z) (st : Blockchain) :
  0 <= nonce ->
  (forall n, JS.substring0 (difficulty st) (hash_at fr n) <> target fr) ->
  exists n,
    nonce < n /\
    resume fr nonce (hash_at fr nonce) st
    = (Normal (Yielded {| nonce := n; currentHash := hash_at fr n;
                          found := false |}),
       AtProgressYield fr n (hash_at fr n), st).
Proof.
  intros Hn Hne.
  destruct (resume_cases fr nonce st Hn)
    as [(n & Hlt & _ & Hr)|(n & _ & Hmet & _)]; [by exists n|].
  by destruct (Hne n).
Qed.

Lemma mine_loop_never (calls : nat) (env : MineEnv) (fr : Frame) (nonce : Z)
    (st : Blockchain) :
  0 <= nonce ->
  (forall n, JS.substring0 (difficulty st) (hash_at fr n) <> target fr) ->
  mine_loop calls env (AtProgressYield fr nonce (hash_at fr nonce)) st = None.
Proof.
  intros Hn Hne. revert nonce Hn.
  induction calls as [|calls IH]; intros nonce Hn; [reflexivity|].
  destruct (resume_searching fr nonce st Hn Hne) as (n & Hlt & Hr).
  cbn [mine_loop next]. rewrite Hr. apply IH. lia.
Qed.

Lemma progress_calls_ever (k : nat) (env : MineEnv) (fr : Frame) (nonce : Z)
    (st : Blockchain) :
  0 <= nonce ->
  (forall n, JS.substring0 (difficulty st) (hash_at fr n) <> target fr) ->
  exists n,
    nonce <= n /\
    progress_calls k env (AtProgressYield fr nonce (hash_at fr nonce)) st
    = Some (AtProgressYield fr n (hash_at fr n), st).
Proof.
  intros Hn Hne. revert nonce Hn.
  induction k as [|k IH]; intros nonce Hn; [by exists nonce|].
  destruct (resume_searching fr nonce st Hn Hne) as (n & Hlt & Hr).
  destruct (IH n ltac:(lia)) as (n' & Hle & Hk).
  exists n'. split; [lia|]. cbn [progress_calls next]. by rewrite Hr.
Qed.

(** X5.  A difficulty no digest can meet: a SHA-256 digest has 32 bytes, so
    [sha256] returns 64 characters, and from difficulty 65 on the first
    [difficulty] characters of a hash can never equal the target.  The
    mining operation then never finishes and never throws: however many
    times [next()] is called it yields a progress event with
    [found = false] and leaves the engine as it was. *)
Theorem mine_unreachable_target (env : MineEnv) (minerAddress : string)
    (st : Blockchain) (L : Block.t) (tgt : string) :
  (forall msg, length (subtle_digest_SHA256 msg) = 32%nat) ->
  getLatestBlock st = Some L ->
  64 < difficulty st ->
  JS.Array_join (difficulty st + 1) "0" = inr tgt ->
  (forall calls, mine calls env minerAddress st = None)
  /\ (forall k, exists g,
        progress_calls (S k) env (NotStarted minerAddress) st = Some (g, st)
        /\ exists fr n h, g = AtProgressYield fr n h /\ 500 <= n).
Proof.
  intros Hlen HL Hd Ht.
  set (fr := initial_frame env minerAddress st L tgt).
  assert (Hne : forall n,
             JS.substring0 (difficulty st) (hash_at fr n) <> target fr).
  { intros n. apply target_out_of_reach; [done..|].
    unfold JS.Array_join in Ht.
    destruct ((difficulty st + 1 <? 0) || (4294967295 <? difficulty st + 1));
      [discriminate|].
    injection Ht as <-. simpl. f_equal. lia. }
  split.
  - intros calls. rewrite (mine_unfold _ _ _ _ _ _ HL Ht).
    by apply mine_loop_never.
  - intros k.
    destruct (resume_searching fr 0 st ltac:(lia) Hne) as (n & Hlt & Hr).
    destruct (progress_calls_ever k env fr n st ltac:(lia) Hne)
      as (n' & Hle & Hk).
    exists (AtProgressYield fr n' (hash_at fr n')). split.
    + cbn [progress_calls]. rewrite (next_NotStarted _ _ _ _ _ HL Ht).
      fold fr. by rewrite Hr.
    + exists fr, n', (hash_at fr n'). split; [done|].
      (* the first progress event is at a multiple of 500 *)
      assert (500 <= n); [|lia].
      revert Hr. unfold resume.
      destruct (pow_loop 500 (difficulty st) fr 0 (hash_at fr 0))
        as [m h|m h|] eqn:Hp; [discriminate| |discriminate].
      intros [= <- _]. clear -Hp.
      assert (Hgen : forall steps nonce hash m h,
                 0 <= nonce ->
                 pow_loop steps (difficulty st) fr nonce hash = ProgressDue m h ->
                 nonce < m /\ Z.rem m 500 = 0).
      { induction steps as [|steps IH]; intros nonce hash m' h' Hn; simpl.
        - by destruct bool_decide.
        - destruct bool_decide; [|discriminate].
          destruct (Z.rem (nonce + 1) 500 =? 0) eqn:Hrem.
          + intros [= <- _]. apply Z.eqb_eq in Hrem. split; [lia|done].
          + intros Hrec. apply IH in Hrec as [? ?]; [|lia]. split; [lia|done]. }
      destruct (Hgen 500%nat 0 (hash_at fr 0) m h (Z.le_refl 0) Hp)
        as [Hpos Hrem].
      apply Z.rem_divide in Hrem as [q ->]; lia.
Qed.

End MiningEdgeProperties.

Section DigestProperties.

Lemma round_length (s : list int) (kw : int * int) :
  length (SHA256.round s kw) = length s.
Proof.
  unfold SHA256.round.
  by destruct s as [|a [|b [|c [|d [|e [|f [|g [|h [|i s]]]]]]]]].
Qed.

Lemma rounds_length (kws : list (int * int)) (s : list int) :
  length (fold_left SHA256.round kws s) = length s.
Proof.
  revert s. induction kws as [|kw kws IH]; intros s; [done|].
  simpl. by rewrite IH, round_length.
Qed.

Lemma compress_length (h block : list int) :
  length (SHA256.compress h block) = length h.
Proof.
  unfold SHA256.compress. rewrite length_zip_with, rounds_length. lia.
Qed.

Lemma blocks_length (n : nat) (h : list int) (bs : list Z) :
  length (SHA256.blocks n h bs) = length h.
Proof.
  revert h bs. induction n as [|n IH]; intros h bs; [done|].
  simpl. by rewrite IH, compress_length.
Qed.

Lemma be_bytes_join_length (ws : list int) :
  length (mjoin (SHA256.be_bytes <$> ws)) = (4 * length ws)%nat.
Proof.
  induction ws as [|w ws IH]; [done|].
  change (length (SHA256.be_bytes w ++ mjoin (SHA256.be_bytes <$> ws))
          = (4 * length (w :: ws))%nat).
  rewrite length_app, IH. simpl. lia.
Qed.

Lemma digest_length (msg : list Z) : length (SHA256.digest msg) = 32%nat.
Proof.
  unfold SHA256.digest. by rewrite be_bytes_join_length, blocks_length.
Qed.

End DigestProperties.

Section EngineProperties.
Context `{WebCrypto}.

Lemma verifyTransactions_app (txs1 txs2 : list Transaction.t) :
  verifyTransactions (txs1 ++ txs2)
  = match verifyTransactions txs1 with
    | Some tx => Some tx
    | None => verifyTransactions txs2
    end.
Proof.
  induction txs1 as [|tx txs1 IH]; [done|]. simpl.
  destruct (bool_decide (Transaction.sender tx = SYSTEM)); [done|].
  by destruct (negb _).
Qed.

(** The verdict of the validator's loop body on a block fresh from the
    miner: the link and the hash are right by construction, the signatures
    are those of the pool. *)
Lemma checkBlock_new (env : MineEnv) (minerAddress : string)
    (st : Blockchain) (L : Block.t) (tgt : string) (n : Z) :
  let fr := initial_frame env minerAddress st L tgt in
  checkBlock L (newBlock fr n (hash_at fr n) st)
  = InvalidSignature <$> verifyTransactions (pendingTransactions st).
Proof.
  intros fr. unfold checkBlock. cbn [newBlock Block.previousHash
    Block.transactions Block.index Block.timestamp Block.nonce Block.hash].
  cbn [fr initial_frame previousBlock transactions index timestamp].
  rewrite bool_decide_false by (intros Hne; by apply Hne).
  rewrite verifyTransactions_app.
  destruct (verifyTransactions (pendingTransactions st)) as [tx|]; [done|].
  cbn [verifyTransactions rewardTx Transaction.sender].
  rewrite bool_decide_true by done.
  rewrite bool_decide_false; [done|]. intros Hne. by apply Hne.
Qed.

(** X6.  The miner never looks at a signature, the validator does: when a
    block is mined on top of a chain that is valid, the next [isChainValid]
    reports the new block (at the position the chain had as its length) as
    soon as one pooled transaction of a sender other than SYSTEM fails
    [verifySignature], and reports the chain valid otherwise. *)
Theorem mine_then_validate (calls : nat) (env : MineEnv)
    (minerAddress : string) (st st' : Blockchain) (b : Block.t) :
  isValid (isChainValid st) = true ->
  mine calls env minerAddress st = Some (Normal (Some b), st') ->
  isChainValid st'
  = match verifyTransactions (pendingTransactions st) with
    | Some _ =>
        {| isValid := false; errorBlockIndex := Z.of_nat (length (chain st)) |}
    | None => {| isValid := true; errorBlockIndex := -1 |}
    end.
Proof.
  intros Hvalid Hrun.
  assert (Hv : validate (chain st) = None).
  { revert Hvalid. unfold isChainValid.
    by destruct (validate (chain st)) as [[? ?]|]. }
  apply mine_completed in Hrun
    as (L & tgt & n & HL & Ht & _ & _ & _ & -> & ->).
  unfold isChainValid, commit. cbn [chain set_chain set_pendingTransactions].
  unfold getLatestBlock in HL.
  destruct (chain st) as [|g rest] eqn:Hchain; [discriminate|].
  change ((g :: rest) ++ [?x]) with (g :: (rest ++ [x])).
  rewrite validate_cons in Hv. rewrite validate_cons, first_failure_snoc, Hv.
  assert (HL' : default g (last rest) = L).
  { rewrite <- (last_cons_default g g rest), HL. done. }
  rewrite HL', checkBlock_new.
  by destruct (verifyTransactions (pendingTransactions st)).
Qed.



Lemma sumZ_add {A : Type} (f g : A -> Z) (l : list A) :
  sumZ ((fun x => f x + g x) <$> l) = sumZ (f <$> l) + sumZ (g <$> l).
Proof.
  induction l as [|x l IH]; [done|].
  rewrite !fmap_cons. cbn [sumZ foldr]. fold (sumZ ((fun x => f x + g x) <$> l)).
  fold (sumZ (f <$> l)). fold (sumZ (g <$> l)). lia.
Qed.

Lemma sumZ_opp {A : Type} (f : A -> Z) (l : list A) :
  sumZ ((fun x => - f x) <$> l) = - sumZ (f <$> l).
Proof.
  induction l as [|x l IH]; [done|].
  rewrite !fmap_cons. cbn [sumZ foldr]. fold (sumZ ((fun x => - f x) <$> l)).
  fold (sumZ (f <$> l)). lia.
Qed.

Lemma sumZ_sub {A : Type} (f g : A -> Z) (l : list A) :
  sumZ ((fun x => f x - g x) <$> l) = sumZ (f <$> l) - sumZ (g <$> l).
Proof.
  induction l as [|x l IH]; [done|].
  rewrite !fmap_cons. cbn [sumZ foldr]. fold (sumZ ((fun x => f x - g x) <$> l)).
  fold (sumZ (f <$> l)). fold (sumZ (g <$> l)). lia.
Qed.

Lemma sumZ_zero {A : Type} (l : list A) : sumZ ((fun _ => 0) <$> l) = 0.
Proof. induction l as [|x l IH]; [done|]. rewrite fmap_cons. exact IH. Qed.

Lemma sumZ_swap {A B : Type} (f : A -> B -> Z) (la : list A) (lb : list B) :
  sumZ ((fun a => sumZ (f a <$> lb)) <$> la)
  = sumZ ((fun b => sumZ ((fun a => f a b) <$> la)) <$> lb).
Proof.
  induction lb as [|b lb IH].
  - cbn [fmap list_fmap sumZ foldr]. apply (sumZ_zero la).
  - rewrite fmap_cons. cbn [sumZ foldr].
    fold (sumZ ((fun b => sumZ ((fun a => f a b) <$> la)) <$> lb)).
    rewrite <- IH, <- sumZ_add. reflexivity.
Qed.

(** An amount given to one address, summed over a list of addresses
    without repetition. *)
Lemma sumZ_indicator (x : string) (v : Z) (addresses : list string) :
  NoDup addresses ->
  sumZ ((fun a => if bool_decide (x = a) then v else 0) <$> addresses)
  = if bool_decide (x ∈ addresses) then v else 0.
Proof.
  induction 1 as [|a addresses Hnotin _ IH]; [done|].
  rewrite fmap_cons. cbn [sumZ foldr].
  fold (sumZ ((fun a => if bool_decide (x = a) then v else 0) <$> addresses)).
  rewrite IH. destruct (decide (x = a)) as [->|Hne].
  - rewrite bool_decide_true by done.
    rewrite (bool_decide_false (a ∈ addresses)) by done.
    rewrite bool_decide_true by (by left). lia.
  - rewrite bool_decide_false by done.
    destruct (decide (x ∈ addresses)).
    + rewrite !bool_decide_true; [lia| by right | done].
    + rewrite !bool_decide_false; [lia| |done].
      by intros [?|?]%elem_of_cons.
Qed.

Lemma sum_credit (tx : Transaction.t) (addresses : list string) :
  NoDup addresses -> Transaction.recipient tx ∈ addresses ->
  sumZ ((fun a => credit a tx) <$> addresses) = Transaction.amount tx.
Proof.
  intros Hnd Hin. unfold credit. rewrite sumZ_indicator by done.
  by rewrite bool_decide_true.
Qed.

Lemma sum_debit (tx : Transaction.t) (addresses : list string) :
  NoDup addresses -> Transaction.sender tx ∈ addresses ->
  sumZ ((fun a => debit a tx) <$> addresses) = Transaction.amount tx.
Proof.
  intros Hnd Hin. unfold debit. rewrite sumZ_indicator by done.
  by rewrite bool_decide_true.
Qed.

(** X8.  The ledger is zero-sum: take any list of distinct addresses that
    holds every sender and recipient of the committed transactions (SYSTEM
    included, as the sender of the rewards) and every sender of the pool;
    the balances [getBalanceOfAddress] returns for them add up to minus the
    pending amounts, so to zero whenever the pool is empty.  The engine
    never creates an amount: a reward is a debit of SYSTEM, and an amount
    [corruptBlock] wrote is credited and debited like any other.  The
    amounts are integers whose absolute values add up to [2^53] at most,
    so that no balance is rounded; each balance lies in that range. *)
Theorem balances_sum (addresses : list string) (st : Blockchain) :
  exact (amounts_of st) ->
  NoDup addresses ->
  (forall tx, tx ∈ ledger (chain st) ->
              Transaction.sender tx ∈ addresses
              /\ Transaction.recipient tx ∈ addresses) ->
  (forall tx, tx ∈ pendingTransactions st ->
              Transaction.sender tx ∈ addresses) ->
  sumZ ((fun a => getBalanceOfAddress a st) <$> addresses)
  = - sumZ (Transaction.amount <$> pendingTransactions st)
  /\ forall a, Z.abs (getBalanceOfAddress a st) <= 2 ^ 53.
Proof.
  intros Hexact Hnd Hledger Hpool.
  split;
    [|intros a; pose proof (getBalanceOfAddress_bound a st);
      unfold exact in Hexact; lia].
  rewrite (list_fmap_ext _ (fun a => balance_by_amount a st) addresses)
    by (intros; by rewrite getBalanceOfAddress_by_amount).
  unfold balance_by_amount.
  rewrite (list_fmap_ext _
     (fun a => sumZ ((fun tx => credit a tx - debit a tx) <$> ledger (chain st))
               + sumZ ((fun tx => - debit a tx) <$> pendingTransactions st))
     addresses)
    by (intros; rewrite (sumZ_opp (debit _)); lia).
  rewrite sumZ_add.
  rewrite (sumZ_swap (fun a tx => credit a tx - debit a tx)).
  rewrite (sumZ_swap (fun a tx => - debit a tx)).
  rewrite (list_fmap_ext _ (fun _ => 0) (ledger (chain st))).
  2:{ intros _ tx Hin%list_elem_of_lookup_2. destruct (Hledger tx Hin).
      rewrite (sumZ_add (fun a => credit a tx) (fun a => - debit a tx)).
      rewrite sumZ_opp, sum_credit, sum_debit by done. lia. }
  rewrite sumZ_zero.
  rewrite (list_fmap_ext _ (fun tx => - Transaction.amount tx)
             (pendingTransactions st)).
  2:{ intros _ tx Hin%list_elem_of_lookup_2.
      rewrite sumZ_opp, sum_debit by auto. done. }
  rewrite sumZ_opp. lia.
Qed.

End EngineProperties.

Section TamperProperties.
Context `{WebCrypto}.

Lemma corruptBlock_in_range (now : Z) (i : Z) (st : Blockchain) (b : Block.t) :
  0 <= i -> chain st !! Z.to_nat i = Some b ->
  (corruptBlock now i st).2
  = set_chain (alter (tamper now) (Z.to_nat i) (chain st)) st.
Proof.
  intros Hi Hb. unfold corruptBlock. apply lookup_lt_Some in Hb.
  replace (0 <=? i) with true by (symmetry; apply Z.leb_le; lia).
  by replace (i <? Z.of_nat (length (chain st))) with true
    by (symmetry; apply Z.ltb_lt; lia).
Qed.

Lemma corruptBlock_out_of_range (now : Z) (i : Z) (st : Blockchain) :
  i < 0 \/ Z.of_nat (length (chain st)) <= i ->
  (corruptBlock now i st).2 = st.
Proof.
  intros Hi. unfold corruptBlock. destruct Hi as [Hi|Hi].
  - by replace (0 <=? i) with false by (symmetry; apply Z.leb_gt; lia).
  - replace (i <? Z.of_nat (length (chain st))) with false
      by (symmetry; apply Z.ltb_ge; lia).
    by rewrite andb_false_r.
Qed.

Lemma tamper_tamper (now now' : Z) (b : Block.t) :
  Block.transactions b <> [] -> tamper now' (tamper now b) = tamper now b.
Proof.
  intros Hne. unfold tamper.
  destruct (Block.transactions b) as [|tx0 rest]; [done|]. reflexivity.
Qed.

(** X9.  [corruptBlock] applied twice to the same block.  On a block that
    holds a transaction the second call changes nothing: the amount of the
    first transaction is 999999999 after one call and after two.  On a block
    without transactions (the genesis block) the first call appends the FAKE
    transaction of amount 1000000 and the second one overwrites that amount
    with 999999999.  An index outside the chain is ignored. *)
Theorem corruptBlock_twice (now now' : Z) (i : Z) (st : Blockchain)
    (b : Block.t) :
  0 <= i -> chain st !! Z.to_nat i = Some b ->
  let once := (corruptBlock now i st).2 in
  let twice := (corruptBlock now' i once).2 in
  (Block.transactions b <> [] -> twice = once)
  /\ (Block.transactions b = [] ->
      chain once !! Z.to_nat i
      = Some (Block.set_transactions [fakeTransaction now] b)
      /\ chain twice !! Z.to_nat i
         = Some (Block.set_transactions
                   [Transaction.set_amount 999999999 (fakeTransaction now)] b))
  /\ (forall j, j < 0 \/ Z.of_nat (length (chain st)) <= j ->
                (corruptBlock now j st).2 = st).
Proof.
  intros Hi Hb once twice.
  assert (Honce : once = set_chain (alter (tamper now) (Z.to_nat i) (chain st)) st)
    by (by apply corruptBlock_in_range with b).
  assert (Hb1 : chain once !! Z.to_nat i = Some (tamper now b)).
  { rewrite Honce. cbn [chain set_chain]. by rewrite list_lookup_alter_eq, Hb. }
  assert (Htwice : twice
            = set_chain (alter (tamper now') (Z.to_nat i) (chain once)) once)
    by (by apply corruptBlock_in_range with (tamper now b)).
  split; [|split].
  - intros Hne. rewrite Htwice, Honce. cbn [chain set_chain]. unfold set_chain.
    cbn [pendingTransactions difficulty miningReward]. f_equal.
    rewrite list_alter_alter_eq. apply list_alter_ext; [|done].
    intros x Hx. rewrite Hb in Hx. injection Hx as <-.
    by apply tamper_tamper.
  - intros Hempty. split.
    + rewrite Hb1. f_equal. unfold tamper. by rewrite Hempty.
    + rewrite Htwice. cbn [chain set_chain].
      rewrite list_lookup_alter_eq, Hb1. cbn [fmap option_fmap option_map].
      f_equal. unfold tamper at 2. rewrite Hempty. reflexivity.
  - intros j Hj. by apply corruptBlock_out_of_range.
Qed.

End TamperProperties.

Section AppProperties.
Context `{WebCrypto}.
Import App.

Lemma same_header_refl (b : Block.t) : same_header b b.
Proof. by repeat split. Qed.

Lemma same_header_trans (b1 b2 b3 : Block.t) :
  same_header b1 b2 -> same_header b2 b3 -> same_header b1 b3.
Proof.
  intros (? & ? & ? & ? & ? & ?) (? & ? & ? & ? & ? & ?).
  repeat split; congruence.
Qed.

Lemma tamper_same_header (now : Z) (b : Block.t) :
  same_header b (tamper now b).
Proof. unfold tamper. destruct (Block.transactions b); by repeat split. Qed.

Lemma set_amount_accepted (a : Z) (tx : Transaction.t) :
  accepted tx -> accepted (Transaction.set_amount a tx).
Proof. done. Qed.

Lemma tamper_ends_with_reward (now : Z) (b : Block.t) :
  ends_with_reward (Block.transactions b) ->
  ends_with_reward (Block.transactions (tamper now b)).
Proof.
  intros (user & reward & Htxs & Hsender & Hsig). unfold tamper. rewrite Htxs.
  destruct user as [|tx0 user]; cbn [app Block.set_transactions
                                     Block.transactions].
  - by exists [], (Transaction.set_amount 999999999 reward).
  - by exists (Transaction.set_amount 999999999 tx0 :: user), reward.
Qed.

Lemma tamper_accepted (now : Z) (b : Block.t) :
  (forall tx, tx ∈ Block.transactions b -> Transaction.sender tx <> SYSTEM ->
              accepted tx) ->
  forall tx, tx ∈ Block.transactions (tamper now b) ->
             Transaction.sender tx <> SYSTEM -> accepted tx.
Proof.
  intros Hacc tx. unfold tamper.
  destruct (Block.transactions b) as [|tx0 rest];
    cbn [app Block.set_transactions Block.transactions].
  - intros ->%list_elem_of_singleton _. by repeat split.
  - intros [->|Hin]%elem_of_cons Hsender.
    + apply set_amount_accepted, Hacc; [by left|done].
    + apply Hacc; [by right|done].
Qed.

Lemma lookup_alter_inv {A : Type} (f : A -> A) (l : list A) (k j : nat)
    (y : A) :
  alter f k l !! j = Some y ->
  exists x, l !! j = Some x /\ (y = x \/ y = f x).
Proof.
  rewrite list_lookup_alter. destruct (decide (k = j)) as [->|_].
  - destruct (l !! j) as [x|]; [|done]. intros [= <-]. exists x. auto.
  - intros Hy. exists y. auto.
Qed.

Lemma lookup_tamper (now : Z) (l : list Block.t) (k j : nat) (b' : Block.t) :
  alter (tamper now) k l !! j = Some b' ->
  exists b, l !! j = Some b /\ same_header b b'
            /\ (b' = b \/ b' = tamper now b).
Proof.
  intros (b & Hb & Hcase)%lookup_alter_inv. exists b. split; [done|].
  split; [|done].
  destruct Hcase as [->| ->]; [apply same_header_refl|apply tamper_same_header].
Qed.

Lemma fits_alter (now : Z) (k : nat) (l : list Block.t)
    (txs : list Transaction.t) (pb : Block.t) :
  fits l txs pb -> fits (alter (tamper now) k l) txs pb.
Proof.
  intros ((L & HL & Hh) & Hr & Hacc). split; [|done].
  rewrite last_lookup in HL.
  destruct (alter (tamper now) k l !! Init.Nat.pred (length l)) as [L'|] eqn:HL'.
  - exists L'. split; [by rewrite last_lookup, length_alter|].
    apply lookup_tamper in HL' as (b & Hb & Hsame & _).
    rewrite HL in Hb. injection Hb as <-. by apply same_header_trans with L.
  - apply lookup_ge_None in HL'. apply lookup_lt_Some in HL.
    rewrite length_alter in HL'. lia.
Qed.

Lemma mining_fits_alter (now : Z) (k : nat) (l : list Block.t) (m : Mining) :
  mining_fits l m -> mining_fits (alter (tamper now) k l) m.
Proof.
  destruct m as [|env txs pb|env [minerAddress|fr n h|b|]]; simpl; try done.
  - apply fits_alter.
  - intros [Hfits Hindex]. split; [by apply fits_alter|done].
Qed.

Lemma Invariant_same_chain (s s' : State) :
  Invariant s ->
  chain (blockchain s') = chain (blockchain s) ->
  initializing s' = initializing s ->
  (forall tx, tx ∈ pendingTransactions (blockchain s') -> accepted tx) ->
  mining_fits (chain (blockchain s)) (mining s') ->
  Invariant s'.
Proof.
  intros [Hi Hl Hg Hm Hu _ _ Hinit] Hchain Hsame Hpool Hmining.
  split; rewrite ?Hchain, ?Hsame; done.
Qed.

Lemma Invariant_alter (now : Z) (k : nat) (s : State) :
  Invariant s ->
  Invariant
    (with_blockchain
       (set_chain (alter (tamper now) k (chain (blockchain s))) (blockchain s))
       s).
Proof.
  intros [Hi Hl Hg Hm Hu Hp Hmining Hinit].
  split; cbn [with_blockchain blockchain mining initializing chain set_chain
              pendingTransactions].
  - intros i b' (b & Hb & Hsame & _)%lookup_tamper.
    destruct Hsame as (-> & _). by apply Hi.
  - intros i p' c' (p & Hp' & Hsp & _)%lookup_tamper
      (c & Hc & Hsc & _)%lookup_tamper.
    destruct Hsp as (_ & _ & _ & -> & _). destruct Hsc as (_ & _ & -> & _).
    by apply Hl with i.
  - intros b' (b & Hb & Hsame & _)%lookup_tamper.
    destruct Hsame as (_ & _ & -> & _ & -> & ->). by apply Hg.
  - intros i b' (b & Hb & _ & [->| ->])%lookup_tamper.
    + by apply Hm with i.
    + apply tamper_ends_with_reward. by apply Hm with i.
  - intros i b' tx (b & Hb & _ & [->| ->])%lookup_tamper.
    + by apply Hu with i.
    + apply tamper_accepted. intros tx'. by apply Hu with i.
  - done.
  - by apply mining_fits_alter.
  - destruct (initializing s) as [|g [|g' rest]]; [done| |done].
    destruct Hinit as [-> Hg']. by split.
Qed.

Lemma Invariant_corruptBlock (now : Z) (index : Z) (s : State) :
  Invariant s ->
  Invariant (with_blockchain (corruptBlock now index (blockchain s)).2 s).
Proof.
  intros Hinv. unfold corruptBlock.
  destruct (_ && _); [by apply Invariant_alter|].
  by destruct s.
Qed.

Lemma last_snoc_lookup {A : Type} (l : list A) (L : A) :
  last l = Some L -> exists n, length l = S n /\ l !! n = Some L.
Proof.
  rewrite last_lookup. intros HL. pose proof (lookup_lt_Some _ _ _ HL).
  exists (Init.Nat.pred (length l)). split; [lia|done].
Qed.

Lemma Invariant_commit (env : MineEnv) (fr : Frame) (n : Z) (hash : string)
    (s : State) :
  Invariant s ->
  fits (chain (blockchain s)) (transactions fr) (previousBlock fr) ->
  index fr = Block.index (previousBlock fr) + 1 ->
  Invariant
    (with_mining
       (Suspended env (AtFinalYield (newBlock fr n hash (blockchain s))))
       (with_blockchain
          (commit (newBlock fr n hash (blockchain s)) (blockchain s)) s)).
Proof.
  intros [Hi Hl Hg Hm Hu Hp _ Hinit] ((L & HL & Hsame) & Hr & Hacc) Hindex.
  destruct (last_snoc_lookup _ _ HL) as (k & Hlen & Hk).
  destruct Hsame as (HLi & _ & _ & HLh & _).
  pose proof (Hi k L Hk) as HiL.
  split; cbn [with_mining with_blockchain blockchain mining initializing
              commit chain set_chain set_pendingTransactions
              pendingTransactions].
  - intros i b [[_ Hb]|[-> <-]]%lookup_snoc_Some; [by apply Hi|].
    cbn [newBlock Block.index]. lia.
  - intros i p c Hp' [[_ Hc]|[Hlen' <-]]%lookup_snoc_Some.
    + apply lookup_snoc_Some in Hp' as [[_ Hp']|[-> _]]; [by apply Hl with i|].
      apply lookup_lt_Some in Hc. lia.
    + assert (i = k) as -> by lia.
      apply lookup_snoc_Some in Hp' as [[_ Hp']|[Hk' _]]; [|lia].
      rewrite Hk in Hp'. injection Hp' as <-.
      cbn [newBlock Block.previousHash]. congruence.
  - intros b [[_ Hb]|[Hlen' _]]%lookup_snoc_Some; [by apply Hg|lia].
  - intros i b [[_ Hb]|[_ <-]]%lookup_snoc_Some; [by apply Hm with i|done].
  - intros i b tx [[_ Hb]|[_ <-]]%lookup_snoc_Some; [by apply Hu with i|].
    apply Hacc.
  - intros tx Hin. inversion Hin.
  - done.
  - destruct (initializing s) as [|g [|g' rest]]; [done| |done].
    destruct Hinit as [Hnil _]. by rewrite Hnil in Hk.
Qed.

Lemma Invariant_resume (env : MineEnv) (fr : Frame) (n : Z) (hash : string)
    (s : State) :
  Invariant s ->
  fits (chain (blockchain s)) (transactions fr) (previousBlock fr) ->
  index fr = Block.index (previousBlock fr) + 1 ->
  Invariant (settle env (resume fr n hash (blockchain s)) s).
Proof.
  intros Hinv Hfits Hindex. unfold resume.
  destruct (pow_loop 500 (difficulty (blockchain s)) fr n hash)
    as [n' h'|n' h'|]; cbn [settle].
  - by apply Invariant_commit.
  - apply (Invariant_same_chain s); [done|done|done|by destruct Hinv|done].
  - apply (Invariant_same_chain s); [done|done|done|by destruct Hinv|done].
Qed.

Lemma Invariant_resumeMining (s : State) :
  Invariant s -> Invariant (resumeMining s).
Proof.
  intros Hinv. pose proof (inv_mining s Hinv) as Hm. unfold resumeMining.
  destruct (mining s) as [|env txs pb|env [minerAddress|fr n h|b|]] eqn:Hmining;
    cbn [mining_fits] in Hm; try done.
  - destruct (JS.Array_join _ _) as [e|target].
    + apply (Invariant_same_chain s); [done|done|done|by destruct Hinv|done].
    + by apply Invariant_resume.
  - destruct Hm as [Hfits Hindex]. cbn [next]. by apply Invariant_resume.
  - cbn [next settle].
    apply (Invariant_same_chain s); [done|done|done|by destruct Hinv|done].
Qed.

Lemma Invariant_mineBlock (env : MineEnv) (wallet : option string)
    (difficulty reward : Z) (s : State) :
  Invariant s -> Invariant (mineBlock env wallet difficulty reward s).
Proof.
  intros Hinv. unfold mineBlock.
  destruct wallet as [publicKeyPem|]; [|done].
  destruct (mining s) eqn:Hmining; try done.
  set (st := updateSettings difficulty reward (blockchain s)).
  destruct (getLatestBlock st) as [L|] eqn:HL.
  - apply (Invariant_same_chain s); [done|done|done|by destruct Hinv|].
    cbn [with_mining mining mining_fits]. split; [|split].
    + exists L. split; [done|apply same_header_refl].
    + by exists (pendingTransactions st), (rewardTx env publicKeyPem st).
    + intros tx [Hin| ->%list_elem_of_singleton]%elem_of_app Hsender.
      * by apply (inv_pool s Hinv).
      * done.
  - apply (Invariant_same_chain s); [done|done|done|by destruct Hinv|done].
Qed.

(** A call of [initialize] keeps the invariant when no other call is
    suspended. *)
Lemma Invariant_init (now : Z) (s : State) :
  Invariant s -> (length (initializing (init now s)) <= 1)%nat ->
  Invariant (init now s).
Proof.
  intros Hinv. unfold init.
  case_bool_decide as Hlen; [|done].
  apply length_zero_iff_nil in Hlen.
  cbn [initializing]. rewrite length_app. cbn [length]. intros Hone.
  assert (Hnil : initializing s = [])
    by (apply length_zero_iff_nil; lia).
  destruct Hinv as [Hi Hl Hg Hm Hu Hp Hmining _].
  split; cbn [blockchain mining initializing]; try done.
  rewrite Hnil. cbn [app]. split; [done|by exists now].
Qed.

(** The resumption of a suspended call of [initialize]. *)
Lemma Invariant_initialized (k : nat) (s : State) :
  Invariant s -> Invariant (initialized k s).
Proof.
  intros Hinv. unfold initialized.
  destruct (initializing s !! k) as [g|] eqn:Hk; [|done].
  destruct Hinv as [_ _ _ _ _ Hp Hmining Hinit].
  destruct (initializing s) as [|g0 [|g1 rest]]; [done| |done].
  destruct Hinit as [Hnil [now ->]].
  destruct k as [|k]; [|done]. injection Hk as <-.
  rewrite Hnil in Hmining.
  split; cbn [blockchain mining initializing chain set_chain
              pendingTransactions delete list_delete]; rewrite ?Hnil;
    cbn [app].
  - by intros [|i] b [= <-].
  - by intros [|i] p c.
  - by intros b [= <-].
  - by intros [|i] b.
  - intros [|i] b tx; [|done]. intros [= <-] Hin. inversion Hin.
  - done.
  - destruct (mining s) as [|env txs pb|env [minerAddress|fr n h|b|]];
      cbn [mining_fits] in *; try done.
    + by destruct Hmining as ((L & HL & _) & _).
    + by destruct Hmining as (((L & HL & _) & _) & _).
  - done.
Qed.

Lemma addTransaction_pool (tx : Transaction.t) (st : Blockchain) :
  chain (addTransaction tx st).2 = chain st
  /\ difficulty (addTransaction tx st).2 = difficulty st
  /\ miningReward (addTransaction tx st).2 = miningReward st
  /\ ((addTransaction tx st).1 = Normal tt /\ accepted tx
      /\ pendingTransactions (addTransaction tx st).2
         = pendingTransactions st ++ [tx]
      \/ (exists e, (addTransaction tx st).1 = Throw e) /\ ~ accepted tx
         /\ (addTransaction tx st).2 = st).
Proof.
  unfold addTransaction, JS.falsy, accepted.
  repeat case_bool_decide; simpl; (repeat split; [done..|]);
    first [ left; by repeat split
          | right; split; [by eexists|]; split; [|done]; by intros (? & ? & ?) ].
Qed.

Lemma Invariant_handleTransaction (tx : Transaction.t) (s : State) :
  Invariant s -> Invariant (handleTransaction tx s).
Proof.
  intros Hinv. unfold handleTransaction.
  destruct (addTransaction_pool tx (blockchain s))
    as (Hchain & _ & _ & [(_ & Hacc & Hpool)|(_ & _ & Hsame)]).
  - apply (Invariant_same_chain s); [done|done|done| |by destruct Hinv].
    cbn [with_blockchain blockchain]. rewrite Hpool.
    intros tx' [Hin| ->%list_elem_of_singleton]%elem_of_app; [|done].
    by apply (inv_pool s Hinv).
  - rewrite Hsame. by destruct s.
Qed.

Lemma forEach_addTransaction_accepted (txs : list Transaction.t)
    (st : Blockchain) :
  Forall accepted txs ->
  forEach_addTransaction txs st
  = (Normal tt, set_pendingTransactions (pendingTransactions st ++ txs) st).
Proof.
  intros Hacc. revert st. induction Hacc as [|tx txs Htx _ IH]; intros st.
  - simpl. rewrite app_nil_r. by destruct st.
  - cbn [forEach_addTransaction].
    destruct (addTransaction_pool tx st)
      as (Hchain & Hd & Hr & [(Hn & _ & Hpool)|(_ & Hno & _)]); [|done].
    destruct (addTransaction tx st) as [r st1]. simpl in *. subst r.
    rewrite IH. f_equal. unfold set_pendingTransactions.
    rewrite Hchain, Hd, Hr, Hpool. by rewrite <- app_assoc.
Qed.

(** Whatever the transactions are, the loop only appends to the pool, and
    only transactions [addTransaction] accepts. *)
Lemma forEach_addTransaction_pool (txs : list Transaction.t) (st : Blockchain) :
  exists added,
    (forEach_addTransaction txs st).2
    = set_pendingTransactions (pendingTransactions st ++ added) st
    /\ Forall accepted added.
Proof.
  revert st. induction txs as [|tx txs IH]; intros st.
  - exists []. simpl. rewrite app_nil_r. by destruct st.
  - cbn [forEach_addTransaction].
    destruct (addTransaction_pool tx st)
      as (Hchain & Hd & Hr & [(Hn & Hacc & Hpool)|((e & He) & _ & Hsame)]);
      destruct (addTransaction tx st) as [r st1]; simpl in *; subst r.
    + destruct (IH st1) as (added & -> & Hadded). exists (tx :: added).
      split; [|by constructor]. unfold set_pendingTransactions.
      rewrite Hchain, Hd, Hr, Hpool. by rewrite <- app_assoc.
    + exists []. subst st1. simpl. rewrite app_nil_r. by destruct st.
Qed.

Lemma handleReplayTransactions_pool (selectedBlock : option Block.t)
    (st : Blockchain) :
  exists added,
    (handleReplayTransactions selectedBlock st).2
    = set_pendingTransactions (pendingTransactions st ++ added) st
    /\ Forall accepted added.
Proof.
  unfold handleReplayTransactions.
  destruct selectedBlock as [block|];
    [|exists []; simpl; rewrite app_nil_r; by destruct st].
  case_bool_decide;
    [exists []; simpl; rewrite app_nil_r; by destruct st|].
  destruct (forEach_addTransaction_pool (userTxs block) st)
    as (added & Hst & Hadded).
  exists added. by destruct (forEach_addTransaction (userTxs block) st) as [[|] ?].
Qed.

Lemma Invariant_handle (e : Event) (s : State) :
  Invariant s -> (length (initializing (handle e s)) <= 1)%nat ->
  Invariant (handle e s).
Proof.
  intros Hinv Hone.
  destruct e as [now|k|tx|env wallet d r| |now i|i]; cbn [handle] in *.
  - by apply Invariant_init.
  - by apply Invariant_initialized.
  - by apply Invariant_handleTransaction.
  - by apply Invariant_mineBlock.
  - by apply Invariant_resumeMining.
  - unfold handleTamperBlock.
    destruct (chain (blockchain s) !! i); [|done].
    by apply Invariant_corruptBlock.
  - destruct (handleReplayTransactions_pool (chain (blockchain s) !! i)
                (blockchain s)) as (added & Hst & Hadded).
    apply (Invariant_same_chain s);
      [done| by rewrite Hst |done| |by destruct Hinv].
    cbn [with_blockchain blockchain]. rewrite Hst.
    intros tx [Hin|Hin]%elem_of_app; [by apply (inv_pool s Hinv)|].
    by apply (proj1 (Forall_forall _ _) Hadded).
Qed.

Lemma Invariant_start : Invariant start.
Proof.
  split; simpl; try done. intros tx Hin. inversion Hin.
Qed.

Lemma Invariant_run (events : list Event) (s : State) :
  Invariant s ->
  (forall k, (length (initializing (run (take k events) s)) <= 1)%nat) ->
  Invariant (run events s).
Proof.
  revert s. induction events as [|e events IH]; intros s Hinv Hseq; [done|].
  apply IH.
  - apply Invariant_handle; [done|]. exact (Hseq 1%nat).
  - intros k. exact (Hseq (S k)).
Qed.

(** One call of [initialize] at most suspends one. *)
Lemma initializing_length (events : list Event) (s : State) :
  (length (initializing (run events s))
   <= length (initializing s) + length (List.filter is_Init events))%nat.
Proof.
  revert s. induction events as [|e events IH]; intros s; [simpl; lia|].
  cbn [run fold_left]. fold (run events (handle e s)).
  specialize (IH (handle e s)).
  assert (Hstep : (length (initializing (handle e s))
                   <= length (initializing s)
                      + (if is_Init e then 1 else 0))%nat).
  { destruct e as [now|k|tx|env wallet d r| |now i|i]; cbn [handle is_Init].
    - unfold init. case_bool_decide; cbn [initializing];
        rewrite ?length_app; simpl; lia.
    - unfold initialized. destruct (initializing s !! k) eqn:Hk; [|lia].
      cbn [initializing]. rewrite length_delete by done. lia.
    - cbn. lia.
    - unfold mineBlock. destruct wallet; [|lia].
      destruct (mining s); try lia.
      destruct (getLatestBlock _); cbn; lia.
    - unfold resumeMining.
      destruct (mining s) as [|env txs pb|env g]; [lia| |].
      + destruct (JS.Array_join _ _); [cbn; lia|].
        unfold settle. destruct (resume _ _ _ _) as [[[[]|] ?] ?]; cbn; lia.
      + unfold settle. destruct (next _ _ _) as [[[[]|] ?] ?]; cbn; lia.
    - unfold handleTamperBlock. destruct (_ !! i); cbn; lia.
    - cbn. lia. }
  cbn [List.filter]. destruct (is_Init e); cbn [length]; lia.
Qed.

Lemma single_init_sequential (events : list Event) :
  (length (List.filter is_Init events) <= 1)%nat -> sequential events.
Proof.
  intros Hone k.
  pose proof (initializing_length (take k events) start) as Hlen.
  assert (Hsub : (length (List.filter is_Init (take k events))
                  <= length (List.filter is_Init events))%nat).
  { rewrite <- (take_drop k events) at 2. rewrite List.filter_app, length_app.
    lia. }
  cbn [start initializing length] in Hlen. lia.
Qed.

(** The click on the mining button followed at once by the resumption of
    the search is one call of [next()] on a fresh generator, once the
    settings are written: the two descriptions of the generator agree. *)
Lemma mineBlock_resume_is_next (env : MineEnv) (publicKeyPem : string)
    (difficulty reward : Z) (s : State) :
  mining s = Idle ->
  resumeMining (mineBlock env (Some publicKeyPem) difficulty reward s)
  = settle env
      (next env (NotStarted publicKeyPem)
         (updateSettings difficulty reward (blockchain s))) s.
Proof.
  intros Hidle. unfold mineBlock. rewrite Hidle. cbn [next].
  destruct (getLatestBlock _) as [L|]; [|done].
  unfold resumeMining. cbn [with_mining with_blockchain mining blockchain].
  destruct (JS.Array_join _ _); [done|].
  unfold settle. by destruct (resume _ _ _ _) as [[[[]|] ?] ?].
Qed.

(** A call of [initialize] on the engine as it is built, resumed before
    anything else happens, is the method [initialize] taken in one step. *)
Lemma init_initialized_is_initialize (now : Z) :
  blockchain (initialized 0 (init now start)) = (initialize now constructor).2.
Proof. reflexivity. Qed.

Lemma hash_is_not_0 (index : Z) (previousHash : string) (timestamp : Z)
    (transactions : list Transaction.t) (nonce : Z) :
  calculateHash index previousHash timestamp transactions nonce <> "0".
Proof.
  unfold calculateHash, sha256. intros Heq.
  apply (f_equal String.length) in Heq. rewrite bufferToHex_length in Heq.
  simpl in Heq. lia.
Qed.

(** X18.  [initialize] is not reentrant.  When a second call tests the
    chain length while the first one waits for the hash of its genesis
    block, both find the chain empty and both push: the chain holds two
    blocks of index 0 whose previous hash is the text [0], and
    [isChainValid] reports the second one, at position 1, on the link test,
    whatever the digest is (a printed hash has an even number of
    characters, so it is never that text). *)
Theorem initialize_is_not_reentrant (now1 now2 : Z) :
  let s := run [Init now1; Init now2; Initialized 0; Initialized 0] start in
  chain (blockchain s) = [createGenesisBlock now1; createGenesisBlock now2]
  /\ initializing s = []
  /\ Block.index <$> chain (blockchain s) = [0; 0]
  /\ validate (chain (blockchain s)) = Some (1%nat, PreviousHashMismatch)
  /\ isChainValid (blockchain s)
     = {| isValid := false; errorBlockIndex := 1 |}
  /\ ~ sequential [Init now1; Init now2; Initialized 0; Initialized 0].
Proof.
  intros s.
  assert (Hchain : chain (blockchain s)
                   = [createGenesisBlock now1; createGenesisBlock now2])
    by reflexivity.
  assert (Hv : validate (chain (blockchain s))
               = Some (1%nat, PreviousHashMismatch)).
  { rewrite Hchain, validate_cons. cbn [first_failure].
    assert (Hcheck : checkBlock (createGenesisBlock now1)
                       (createGenesisBlock now2)
                     = Some PreviousHashMismatch).
    { apply checkBlock_cause. unfold link_broken.
      cbn [createGenesisBlock Block.previousHash Block.hash].
      intros Heq. by apply (hash_is_not_0 0 "0" now1 [] 0). }
    by rewrite Hcheck. }
  split; [exact Hchain|]. split; [reflexivity|]. split; [by rewrite Hchain|].
  split; [exact Hv|]. split; [unfold isChainValid; by rewrite Hv|].
  intros Hseq. specialize (Hseq 2%nat).
  change (length [createGenesisBlock now1; createGenesisBlock now2] <= 1)%nat
    in Hseq.
  cbn [length] in Hseq. lia.
Qed.

(** X10.  The shape of the chain after any events of [App] (calls and
    resumptions of [initialize], sending, clicks on the mining button,
    resumptions of the search at any of its [await]s, corrupting,
    replaying, in any order), as long as no two calls of [initialize] are
    ever suspended together: the block at position [i] carries index [i],
    every block names the stored hash of the block before it, every block
    after the genesis block ends with a reward of SYSTEM.  As a consequence
    [isChainValid] never fails on the link test
    ([previousHash !== previousBlock.hash]): whatever it reports is a
    rejected signature or a hash that no longer matches the content. *)
Theorem reachable_chain_linked (events : list Event) :
  sequential events ->
  let s := run events start in
  (forall i b, chain (blockchain s) !! i = Some b -> Block.index b = Z.of_nat i)
  /\ (forall i p c,
        chain (blockchain s) !! i = Some p ->
        chain (blockchain s) !! S i = Some c ->
        Block.previousHash c = Block.hash p)
  /\ (forall i b,
        chain (blockchain s) !! S i = Some b ->
        ends_with_reward (Block.transactions b))
  /\ (forall i f,
        validate (chain (blockchain s)) = Some (i, f) ->
        f <> PreviousHashMismatch).
Proof.
  intros Hseq s.
  assert (Hinv : Invariant s) by (apply Invariant_run; [apply Invariant_start|done]).
  split; [exact (inv_index s Hinv)|]. split; [exact (inv_link s Hinv)|].
  split; [exact (inv_mined s Hinv)|].
  intros i f Hv ->. apply validate_Some in Hv
    as (Hi & (prev & cur & Hprev & Hcur & Hcheck) & _).
  apply checkBlock_cause in Hcheck. apply Hcheck.
  apply (inv_link s Hinv (i - 1)%nat); [done|].
  by replace (S (i - 1)) with i by lia.
Qed.

Lemma Wellformed_same (s s' : State) :
  Wellformed s ->
  chain (blockchain s') = chain (blockchain s) ->
  initializing s' = initializing s ->
  (forall tx, tx ∈ pendingTransactions (blockchain s') -> accepted tx) ->
  match mining s' with
  | AwaitingFirstHash _ txs _ =>
      forall tx, tx ∈ txs -> Transaction.sender tx <> SYSTEM -> accepted tx
  | Suspended _ (AtProgressYield fr _ _) =>
      forall tx, tx ∈ transactions fr -> Transaction.sender tx <> SYSTEM ->
                 accepted tx
  | Suspended _ (NotStarted _) => False
  | _ => True
  end ->
  Wellformed s'.
Proof.
  intros [Hu _ _ Hinit] Hchain Hsame Hpool Hmining.
  split; rewrite ?Hchain, ?Hsame; done.
Qed.

Lemma Wellformed_resume (env : MineEnv) (fr : Frame) (n : Z) (hash : string)
    (s : State) :
  Wellformed s ->
  (forall tx, tx ∈ transactions fr -> Transaction.sender tx <> SYSTEM ->
              accepted tx) ->
  Wellformed (settle env (resume fr n hash (blockchain s)) s).
Proof.
  intros Hwf Hacc. unfold resume.
  destruct (pow_loop 500 (difficulty (blockchain s)) fr n hash)
    as [n' h'|n' h'|]; cbn [settle].
  - destruct Hwf as [Hu Hp _ Hinit].
    split; cbn [with_mining with_blockchain blockchain mining initializing
                commit chain set_chain set_pendingTransactions
                pendingTransactions]; try done.
    + intros i b tx [[_ Hb]|[_ <-]]%lookup_snoc_Some; [by apply Hu with i|].
      apply Hacc.
    + intros tx Hin. inversion Hin.
  - apply (Wellformed_same s); [done|done|done|by destruct Hwf|done].
  - apply (Wellformed_same s); [done|done|done|by destruct Hwf|done].
Qed.

Lemma Wellformed_handle (e : Event) (s : State) :
  Wellformed s -> Wellformed (handle e s).
Proof.
  intros Hwf.
  destruct e as [now|k|tx|env wallet d r| |now i|i]; cbn [handle].
  - unfold init. case_bool_decide; [|done].
    destruct Hwf as [Hu Hp Hm Hinit].
    split; cbn [blockchain mining initializing]; try done.
    intros g [Hin| ->%list_elem_of_singleton]%elem_of_app; [by apply Hinit|done].
  - unfold initialized. destruct (initializing s !! k) as [g|] eqn:Hk; [|done].
    destruct Hwf as [Hu Hp Hm Hinit].
    assert (Hg : Block.transactions g = [])
      by (apply Hinit; by apply list_elem_of_lookup_2 with k).
    split; cbn [blockchain mining initializing chain set_chain
                pendingTransactions]; try done.
    + intros i b tx [[_ Hb]|[_ <-]]%lookup_snoc_Some; [by apply Hu with i|].
      rewrite Hg. intros Hin. inversion Hin.
    + intros g' Hin%list_elem_of_delete_inv. by apply Hinit.
  - unfold handleTransaction.
    destruct (addTransaction_pool tx (blockchain s))
      as (Hchain & _ & _ & [(_ & Hacc & Hpool)|(_ & _ & Hsame)]).
    + apply (Wellformed_same s); [done|done|done| |by destruct Hwf].
      cbn [with_blockchain blockchain]. rewrite Hpool.
      intros tx' [Hin| ->%list_elem_of_singleton]%elem_of_app; [|done].
      by apply (wf_pool s Hwf).
    + rewrite Hsame. by destruct s.
  - unfold mineBlock. destruct wallet as [publicKeyPem|]; [|done].
    destruct (mining s) eqn:Hmining; try done.
    set (st := updateSettings d r (blockchain s)).
    destruct (getLatestBlock st) as [L|] eqn:HL.
    + apply (Wellformed_same s); [done|done|done|by destruct Hwf|].
      cbn [with_mining mining].
      intros tx [Hin| ->%list_elem_of_singleton]%elem_of_app Hsender;
        [by apply (wf_pool s Hwf)|done].
    + apply (Wellformed_same s); [done|done|done|by destruct Hwf|done].
  - pose proof (wf_mining s Hwf) as Hm. unfold resumeMining.
    destruct (mining s) as [|env txs pb|env [minerAddress|fr n h|b|]];
      try done.
    + destruct (JS.Array_join _ _) as [err|target].
      * apply (Wellformed_same s); [done|done|done|by destruct Hwf|done].
      * by apply Wellformed_resume.
    + cbn [next]. by apply Wellformed_resume.
    + cbn [next settle].
      apply (Wellformed_same s); [done|done|done|by destruct Hwf|done].
    + cbn [next settle].
      apply (Wellformed_same s); [done|done|done|by destruct Hwf|done].
  - unfold handleTamperBlock.
    destruct (chain (blockchain s) !! i) as [selected|]; [|done].
    unfold corruptBlock. destruct (_ && _); [|by destruct s].
    destruct Hwf as [Hu Hp Hm Hinit].
    split; cbn [with_blockchain blockchain mining initializing snd chain
                set_chain pendingTransactions]; try done.
    intros j b' tx (b & Hb & _ & [->| ->])%lookup_tamper.
    + by apply Hu with j.
    + apply tamper_accepted. intros tx'. by apply Hu with j.
  - destruct (handleReplayTransactions_pool (chain (blockchain s) !! i)
                (blockchain s)) as (added & Hst & Hadded).
    apply (Wellformed_same s);
      [done| by rewrite Hst |done| |by destruct Hwf].
    cbn [with_blockchain blockchain]. rewrite Hst.
    intros tx [Hin|Hin]%elem_of_app; [by apply (wf_pool s Hwf)|].
    by apply (proj1 (Forall_forall _ _) Hadded).
Qed.

Lemma Wellformed_start : Wellformed start.
Proof.
  split; simpl; try done; intros ? Hin; inversion Hin.
Qed.

Lemma Wellformed_reachable (s : State) : reachable s -> Wellformed s.
Proof.
  intros [events <-]. generalize Wellformed_start. generalize start.
  induction events as [|e events IH]; intros s Hwf; [done|].
  apply IH. by apply Wellformed_handle.
Qed.

Lemma userTxs_accepted (s : State) (i : nat) (b : Block.t) :
  Wellformed s -> chain (blockchain s) !! i = Some b ->
  Forall accepted (userTxs b).
Proof.
  intros Hwf Hb. apply Forall_forall. intros tx Hin.
  apply list_elem_of_filter in Hin as [Hsender Hin].
  by apply (wf_user s Hwf i b).
Qed.

(** X11.  [handleReplayTransactions] on a block of the chain, in any state
    the handlers can reach: it never throws, it leaves the chain and the
    settings alone, and it appends to the pool exactly the transactions of
    the block whose sender is not SYSTEM, in the order of the block (none
    when the block holds rewards only). *)
Theorem replay_requeues_user_transactions (s : State) (i : nat) (b : Block.t) :
  reachable s ->
  chain (blockchain s) !! i = Some b ->
  exists alert,
    handleReplayTransactions (Some b) (blockchain s)
    = (Normal (Some alert),
       set_pendingTransactions
         (pendingTransactions (blockchain s) ++ userTxs b) (blockchain s)).
Proof.
  intros Hwf%Wellformed_reachable Hb.
  pose proof (userTxs_accepted s i b Hwf Hb) as Hacc.
  unfold handleReplayTransactions. case_bool_decide as Hlen.
  - apply length_zero_iff_nil in Hlen. rewrite Hlen, app_nil_r.
    eexists. by destruct (blockchain s).
  - rewrite (forEach_addTransaction_accepted _ _ Hacc). by eexists.
Qed.

Lemma amount_rewritten_refl (tx : Transaction.t) : amount_rewritten tx tx.
Proof. by left. Qed.

Lemma amount_rewritten_trans (tx1 tx2 tx3 : Transaction.t) :
  amount_rewritten tx1 tx2 -> amount_rewritten tx2 tx3 ->
  amount_rewritten tx1 tx3.
Proof. intros [->| ->] [->| ->]; (by left) || (by right). Qed.

Lemma kept_refl (b : Block.t) : kept b b.
Proof.
  split; [apply same_header_refl|]. intros _.
  apply Forall2_same_length_lookup. split; [done|].
  intros i tx tx' Htx Htx'. rewrite Htx in Htx'. injection Htx' as <-.
  apply amount_rewritten_refl.
Qed.

Lemma kept_trans (b1 b2 b3 : Block.t) : kept b1 b2 -> kept b2 b3 -> kept b1 b3.
Proof.
  intros [Hh12 Ht12] [Hh23 Ht23].
  split; [by apply same_header_trans with b2|]. intros Hne.
  specialize (Ht12 Hne).
  assert (Hne2 : Block.transactions b2 <> []).
  { intros Hnil. rewrite Hnil in Ht12. apply Forall2_nil_inv_r in Ht12. done. }
  specialize (Ht23 Hne2). revert Ht12 Ht23.
  generalize (Block.transactions b1) (Block.transactions b2)
    (Block.transactions b3). clear.
  intros l1 l2 l3 H12. revert l3.
  induction H12 as [|x y l1 l2 Hxy _ IH]; intros l3 H23.
  - by apply Forall2_nil_inv_l in H23 as ->.
  - apply Forall2_cons_inv_l in H23 as (z & l3' & Hyz & H23 & ->).
    constructor; [by apply amount_rewritten_trans with y|by apply IH].
Qed.

Lemma kept_tamper (now : Z) (b : Block.t) : kept b (tamper now b).
Proof.
  split; [apply tamper_same_header|]. unfold tamper.
  destruct (Block.transactions b) as [|tx0 rest]; [done|]. intros _.
  cbn [Block.set_transactions Block.transactions].
  constructor; [by right|].
  apply Forall2_same_length_lookup. split; [done|].
  intros i tx tx' Htx Htx'. rewrite Htx in Htx'. injection Htx' as <-.
  apply amount_rewritten_refl.
Qed.

(** One resumption of the search either leaves the engine alone or commits
    one block, which holds the transactions taken when the search began. *)
Lemma resumeMining_cases (s : State) :
  (blockchain (resumeMining s) = blockchain s
   /\ (mining (resumeMining s) = Idle
       \/ forall txs, snapshot (mining s) = Some txs ->
                      snapshot (mining (resumeMining s)) = Some txs))
  \/ (exists b,
        blockchain (resumeMining s) = commit b (blockchain s)
        /\ finished (mining (resumeMining s))
        /\ forall txs, snapshot (mining s) = Some txs ->
                       Block.transactions b = txs).
Proof.
  unfold resumeMining.
  destruct (mining s) as [|env txs pb|env g] eqn:Hm.
  - left. split; [done|]. left. by rewrite Hm.
  - destruct (JS.Array_join _ _) as [e|target]; [left; split; [done|by left]|].
    unfold resume. destruct (pow_loop _ _ _ _ _) as [n h|n h|];
      cbn [settle with_mining with_blockchain blockchain mining].
    + right. eexists. split; [done|]. split; [done|]. by intros ? [= <-].
    + left. split; [done|]. right. done.
    + left. split; [done|]. by left.
  - destruct g as [minerAddress|fr n h|b|]; cbn [next].
    + destruct (getLatestBlock _) as [L|];
        [|left; split; [by destruct s|by left]].
      destruct (JS.Array_join _ _) as [e|target];
        [left; split; [by destruct s|by left]|].
      unfold resume. destruct (pow_loop _ _ _ _ _) as [n h|n h|];
        cbn [settle with_mining with_blockchain blockchain mining].
      * right. eexists. split; [done|]. split; [done|]. by intros ? [=].
      * left. split; [done|]. right. by intros ? [=].
      * left. split; [done|]. by left.
    + unfold resume. destruct (pow_loop _ _ _ _ _) as [n' h'|n' h'|];
        cbn [settle with_mining with_blockchain blockchain mining].
      * right. eexists. split; [done|]. split; [done|]. by intros ? [= <-].
      * left. split; [done|]. right. done.
      * left. split; [done|]. by left.
    + left. split; [done|]. by left.
    + left. split; [done|]. by left.
Qed.

Lemma handle_chain (e : Event) (s : State) (i : nat) (b : Block.t) :
  chain (blockchain s) !! i = Some b ->
  exists b', chain (blockchain (handle e s)) !! i = Some b' /\ kept b b'.
Proof.
  intros Hb.
  assert (Hsame : chain (blockchain (handle e s)) = chain (blockchain s) ->
                  exists b', chain (blockchain (handle e s)) !! i = Some b'
                             /\ kept b b').
  { intros ->. exists b. split; [done|apply kept_refl]. }
  destruct e as [now|j|tx|env wallet d r| |now k|k]; cbn [handle] in *.
  - apply Hsame. unfold init. by case_bool_decide.
  - unfold initialized in *.
    destruct (initializing s !! j) as [g|]; [|by apply Hsame].
    exists b. split; [|apply kept_refl].
    cbn [blockchain chain set_chain]. by apply lookup_app_l_Some.
  - apply Hsame. apply addTransaction_pool.
  - apply Hsame. unfold mineBlock.
    destruct wallet; [|done]. destruct (mining s); try done.
    by destruct (getLatestBlock _).
  - destruct (resumeMining_cases s) as [[Hst _]|(nb & Hst & _ & _)].
    + apply Hsame. by rewrite Hst.
    + exists b. split; [|apply kept_refl]. rewrite Hst.
      cbn [commit chain set_chain set_pendingTransactions].
      by apply lookup_app_l_Some.
  - unfold handleTamperBlock in *.
    destruct (chain (blockchain s) !! k) as [selected|]; [|by apply Hsame].
    unfold corruptBlock in *.
    destruct (_ && _); [|by apply Hsame].
    cbn [with_blockchain blockchain snd chain set_chain].
    rewrite list_lookup_alter. destruct (decide (_ = i)) as [->|_].
    + rewrite Hb. exists (tamper now b). split; [done|apply kept_tamper].
    + exists b. split; [done|apply kept_refl].
  - apply Hsame.
    destruct (handleReplayTransactions_pool (chain (blockchain s) !! k)
                (blockchain s)) as (added & Hst & _).
    cbn [with_blockchain blockchain]. by rewrite Hst.
Qed.

(** X12.  History is append-only, up to amounts: whatever the handlers do
    afterwards, a block that is in the chain stays at its position with its
    index, timestamp, previous hash, hash, nonce and difficulty, and, if it
    holds transactions, with the same transactions up to amounts that
    [corruptBlock] overwrote with 999999999.  No handler removes or
    reorders a block, rewrites a hash, or re-mines. *)
Theorem committed_block_is_kept (events : list Event) (s : State) (i : nat)
    (b : Block.t) :
  chain (blockchain s) !! i = Some b ->
  exists b',
    chain (blockchain (run events s)) !! i = Some b'
    /\ same_header b b'
    /\ (Block.transactions b <> [] ->
        Forall2 amount_rewritten (Block.transactions b) (Block.transactions b')).
Proof.
  intros Hb.
  enough (Hkept : exists b', chain (blockchain (run events s)) !! i = Some b'
                             /\ kept b b').
  { destruct Hkept as (b' & Hb' & Hh & Ht). by exists b'. }
  revert s b Hb. induction events as [|e events IH]; intros s b Hb.
  - exists b. split; [done|apply kept_refl].
  - destruct (handle_chain e s i b Hb) as (b1 & Hb1 & Hk1).
    destruct (IH (handle e s) b1 Hb1) as (b' & Hb' & Hk').
    exists b'. split; [done|]. by apply kept_trans with b1.
Qed.

Lemma finished_handle (e : Event) (s : State) :
  not_a_click e -> finished (mining s) -> finished (mining (handle e s)).
Proof.
  intros Hno Hfin.
  destruct e as [now|j|tx|env wallet d r| |now k|k]; cbn [handle]; try done.
  - unfold init. by case_bool_decide.
  - unfold initialized. by destruct (initializing s !! j).
  - by destruct (Hno env wallet d r).
  - revert Hfin. unfold resumeMining.
    by destruct (mining s) as [|env txs pb|env [minerAddress|fr n h|b|]] eqn:Hm;
      rewrite ?Hm.
  - unfold handleTamperBlock. by destruct (chain (blockchain s) !! k).
Qed.

(** While the search is suspended, a handler other than the mining button
    either keeps it and only adds to the pool, or ends it. *)
Lemma search_handle (e : Event) (s : State) (txs : list Transaction.t) :
  not_a_click e -> snapshot (mining s) = Some txs ->
  (snapshot (mining (handle e s)) = Some txs
   /\ (forall tx, tx ∈ pendingTransactions (blockchain s) ->
                  tx ∈ pendingTransactions (blockchain (handle e s)))
   /\ (forall tx, e = Send tx -> accepted tx ->
                  tx ∈ pendingTransactions (blockchain (handle e s))))
  \/ finished (mining (handle e s)).
Proof.
  intros Hno Hsnap.
  destruct e as [now|j|tx|env wallet d r| |now k|k]; cbn [handle].
  - left. unfold init. by case_bool_decide.
  - left. unfold initialized. by destruct (initializing s !! j).
  - left. split; [done|]. unfold handleTransaction.
    cbn [with_blockchain blockchain].
    destruct (addTransaction_pool tx (blockchain s))
      as (_ & _ & _ & [(_ & _ & ->)|(_ & Hno' & ->)]).
    + split; [intros tx' Hin; apply elem_of_app; by left|].
      intros tx' [= <-] _. apply elem_of_app. right. by left.
    + split; [done|]. by intros tx' [= <-] Hacc.
  - by destruct (Hno env wallet d r).
  - destruct (resumeMining_cases s) as [[Hst [Hidle|Hkeep]]|(b & _ & Hfin & _)].
    + right. by rewrite Hidle.
    + left. split; [by apply Hkeep|]. by rewrite Hst.
    + by right.
  - left. unfold handleTamperBlock.
    destruct (chain (blockchain s) !! k) as [selected|]; [|done].
    split; [done|]. split; [|done].
    unfold corruptBlock. by destruct (_ && _).
  - left. split; [done|]. split; [|done].
    destruct (handleReplayTransactions_pool (chain (blockchain s) !! k)
                (blockchain s)) as (added & Hst & _).
    cbn [with_blockchain blockchain]. rewrite Hst.
    intros tx Hin. apply elem_of_app. by left.
Qed.

Lemma finished_run (events : list Event) (s : State) :
  Forall not_a_click events -> finished (mining s) ->
  finished (mining (run events s)).
Proof.
  intros Hno. revert s. induction Hno as [|e events He _ IH]; intros s Hfin;
    [done|].
  apply IH. by apply finished_handle.
Qed.

Lemma search_run (events : list Event) (s : State) (txs : list Transaction.t) :
  Forall not_a_click events -> snapshot (mining s) = Some txs ->
  (snapshot (mining (run events s)) = Some txs
   /\ (forall tx, tx ∈ pendingTransactions (blockchain s) ->
                  tx ∈ pendingTransactions (blockchain (run events s)))
   /\ (forall tx, Send tx ∈ events -> accepted tx ->
                  tx ∈ pendingTransactions (blockchain (run events s))))
  \/ finished (mining (run events s)).
Proof.
  intros Hno. revert s. induction Hno as [|e events He Hno IH]; intros s Hsnap.
  - left. split; [done|]. split; [done|]. intros tx Hin. inversion Hin.
  - cbn [run fold_left]. fold (run events (handle e s)).
    destruct (search_handle e s txs He Hsnap) as [(Hs & Hpool & Hsend)|Hfin];
      [|right; by apply finished_run].
    destruct (IH (handle e s) Hs) as [(Hs' & Hpool' & Hsend')|Hfin];
      [|by right].
    left. split; [done|]. split; [by auto|].
    intros tx [<-|Hin]%elem_of_cons Hacc; [|by auto].
    apply Hpool'. by apply Hsend.
Qed.

Lemma finished_resumeMining (s : State) :
  finished (mining s) -> blockchain (resumeMining s) = blockchain s.
Proof.
  unfold resumeMining.
  by destruct (mining s) as [|env txs pb|env [minerAddress|fr n h|b|]].
Qed.

(** X13.  What is sent while a block is being mined is lost.  After a click
    on the mining button, let any handlers but that button run (sending,
    replaying, corrupting, further resumptions of the search); if the next
    resumption of the search commits a block, that block holds the pool as
    it was at the click followed by the reward, and the pool is emptied:
    every transaction [addTransaction] accepted in between was in the pool
    just before and is now in neither place. *)
Theorem sent_while_mining_is_dropped (s0 : State) (env : MineEnv)
    (publicKeyPem : string) (difficulty reward : Z) (events : list Event) :
  mining s0 = Idle ->
  chain (blockchain s0) <> [] ->
  Forall not_a_click events ->
  let st0 := updateSettings difficulty reward (blockchain s0) in
  let s1 :=
    run events (mineBlock env (Some publicKeyPem) difficulty reward s0) in
  let s2 := resumeMining s1 in
  chain (blockchain s2) <> chain (blockchain s1) ->
  (forall tx, Send tx ∈ events -> accepted tx ->
              tx ∈ pendingTransactions (blockchain s1))
  /\ exists b,
       chain (blockchain s2) = chain (blockchain s1) ++ [b]
       /\ Block.transactions b
          = pendingTransactions st0 ++ [rewardTx env publicKeyPem st0]
       /\ pendingTransactions (blockchain s2) = [].
Proof.
  intros Hidle Hne Hno st0 s1 s2 Hcommit.
  set (txs := pendingTransactions st0 ++ [rewardTx env publicKeyPem st0]).
  assert (Hsnap : snapshot (mining (mineBlock env (Some publicKeyPem)
                                      difficulty reward s0)) = Some txs).
  { unfold mineBlock. rewrite Hidle. fold st0.
    destruct (getLatestBlock st0) as [L|] eqn:HL; [done|].
    by apply getLatestBlock_None in HL. }
  destruct (search_run events _ txs Hno Hsnap) as [(Hs & _ & Hsend)|Hfin].
  - split; [exact Hsend|]. fold s1 in Hs.
    destruct (resumeMining_cases s1) as [[Hst _]|(b & Hst & _ & Htxs)].
    + destruct Hcommit. unfold s2. by rewrite Hst.
    + exists b. unfold s2. rewrite Hst. by rewrite (Htxs txs Hs).
  - destruct Hcommit. unfold s2. by rewrite finished_resumeMining.
Qed.

End AppProperties.

Section ReplayProperties.
Context `{WebCrypto}.
Import App.

Lemma forEach_addTransaction_Normal (txs : list Transaction.t)
    (st st' : Blockchain) :
  forEach_addTransaction txs st = (Normal tt, st') ->
  st' = set_pendingTransactions (pendingTransactions st ++ txs) st.
Proof.
  revert st. induction txs as [|tx txs IH]; intros st.
  - simpl. intros [= <-]. rewrite app_nil_r. by destruct st.
  - cbn [forEach_addTransaction].
    destruct (addTransaction_pool tx st)
      as (Hchain & Hd & Hr & [(Hn & _ & Hpool)|((e & He) & _ & _)]);
      destruct (addTransaction tx st) as [r st1]; simpl in *; subst r;
      [|discriminate].
    intros ->%IH. unfold set_pendingTransactions.
    rewrite Hchain, Hd, Hr, Hpool. by rewrite <- app_assoc.
Qed.

Lemma handleReplayTransactions_Normal (block : Block.t) (st st' : Blockchain)
    (alert : option string) :
  handleReplayTransactions (Some block) st = (Normal alert, st') ->
  st' = set_pendingTransactions (pendingTransactions st ++ userTxs block) st.
Proof.
  unfold handleReplayTransactions. case_bool_decide as Hlen.
  - apply length_zero_iff_nil in Hlen. rewrite Hlen, app_nil_r.
    intros [= _ <-]. by destruct st.
  - destruct (forEach_addTransaction (userTxs block) st) as [[[]|e] st1] eqn:Hrun;
      [|discriminate].
    intros [= _ <-]. by apply forEach_addTransaction_Normal.
Qed.

(** The transactions of a block the validator passes are not rejected. *)
Lemma valid_block_signatures (chain : list Block.t) (i : nat) (b : Block.t)
    (tx : Transaction.t) :
  validate chain = None -> (1 <= i)%nat -> chain !! i = Some b ->
  tx ∈ Block.transactions b -> ~ signature_rejected tx.
Proof.
  intros Hv Hi Hb Hin Hrej.
  pose proof (lookup_lt_Some _ _ _ Hb) as Hlt.
  destruct (lookup_lt_is_Some_2 chain (i - 1)) as [p Hp]; [lia|].
  apply (proj1 (validate_None chain) Hv i); [lia|].
  exists p, b. split; [done|]. split; [done|]. right. left. by exists tx.
Qed.

(** X14.  The replay attack of [handleReplayTransactions] succeeds: the
    signed transactions of a block the validator passes, queued again (the
    pool was empty) and mined, give a chain that [isChainValid] still
    reports valid, in which every transfer of the block is executed a
    second time; each balance moves by the credits minus the debits of the
    replayed transfers, apart from the reward.  Nothing in the engine tells
    a transaction it has seen from a new one.  The amounts of the chain,
    those replayed and the reward are integers whose absolute values add
    up to [2^53] at most, so that no balance is rounded. *)
Theorem replayed_block_is_paid_again (calls : nat) (env : MineEnv)
    (minerAddress : string) (st st1 st2 : Blockchain) (i : nat)
    (block b : Block.t) (alert : option string) :
  exact (amounts_of st ++ (Transaction.amount <$> userTxs block)
           ++ [miningReward st]) ->
  isValid (isChainValid st) = true ->
  (1 <= i)%nat -> chain st !! i = Some block ->
  pendingTransactions st = [] ->
  handleReplayTransactions (Some block) st = (Normal alert, st1) ->
  mine calls env minerAddress st1 = Some (Normal (Some b), st2) ->
  isChainValid st2 = {| isValid := true; errorBlockIndex := -1 |}
  /\ Block.transactions b = userTxs block ++ [rewardTx env minerAddress st]
  /\ forall address,
       getBalanceOfAddress address st2
       = getBalanceOfAddress address st
         + sumZ ((fun tx => credit address tx - debit address tx)
                   <$> userTxs block)
         + (if bool_decide (minerAddress = address) then miningReward st else 0)
         - (if bool_decide (SYSTEM = address) then miningReward st else 0)
       /\ Z.abs (getBalanceOfAddress address st) <= 2 ^ 53
       /\ Z.abs (getBalanceOfAddress address st2) <= 2 ^ 53.
Proof.
  intros Hexact Hvalid Hi Hblock Hpool Hreplay Hrun.
  assert (Hv : validate (chain st) = None).
  { revert Hvalid. unfold isChainValid.
    by destruct (validate (chain st)) as [[? ?]|]. }
  apply handleReplayTransactions_Normal in Hreplay. rewrite Hpool in Hreplay.
  cbn [app] in Hreplay. subst st1. split; [|split].
  - unfold isChainValid.
    assert (Hv2 : validate (chain st2) = None); [|by rewrite Hv2].
    apply (mine_preserves_validity calls env minerAddress
             (set_pendingTransactions (userTxs block) st) st2 b);
      [done| |done].
    cbn [pendingTransactions set_pendingTransactions].
    intros tx [_ Hin]%list_elem_of_filter.
    by apply (valid_block_signatures (chain st) i block).
  - by apply mine_completed in Hrun
      as (L & tgt & n & _ & _ & _ & _ & _ & -> & _).
  - intros address. split.
    + rewrite (balance_after_mine calls env minerAddress _ st2 b address Hrun).
      rewrite !getBalanceOfAddress_by_amount. unfold balance_by_amount.
      cbn [pendingTransactions set_pendingTransactions chain miningReward].
      rewrite Hpool. cbn [fmap list_fmap sumZ foldr].
      rewrite (sumZ_sub (credit address) (debit address) (userTxs block)).
      lia.
    + pose proof (getBalanceOfAddress_bound address st) as Hst.
      pose proof (getBalanceOfAddress_bound address st2) as Hst2.
      rewrite (amounts_of_mined _ _ _ _ _ _ Hrun) in Hst2.
      unfold exact in Hexact. unfold amounts_of in *.
      cbn [pendingTransactions set_pendingTransactions chain miningReward]
        in Hst2.
      rewrite Hpool, app_nil_r in *.
      rewrite !total_app in Hexact. rewrite fmap_app, !total_app in Hst2.
      pose proof (total_nonneg (Transaction.amount <$> userTxs block)).
      pose proof (total_nonneg [miningReward st]).
      lia.
Qed.

End ReplayProperties.

Section CardProperties.
Context `{WebCrypto}.

Lemma checkSignatures_fold (txs : list Transaction.t) (health : gmap string bool)
    (id : string) :
  fold_left (fun health tx => <[Transaction.id tx := card_isValid tx]> health)
    txs health !! id
  = match last (filter (fun tx => Transaction.id tx = id) txs) with
    | Some tx => Some (card_isValid tx)
    | None => health !! id
    end.
Proof.
  revert health. induction txs as [|tx txs IH]; intros health; [done|].
  cbn [fold_left]. rewrite IH, filter_cons.
  destruct (decide (Transaction.id tx = id)) as [Hid|Hid].
  - rewrite last_cons.
    destruct (last (filter _ txs)); [done|].
    by rewrite Hid, lookup_insert_eq.
  - destruct (last (filter _ txs)); [done|].
    by rewrite lookup_insert_ne.
Qed.

(** The entry of the card for an identifier is the verdict on the last
    transaction of the block that carries it. *)
Lemma checkSignatures_lookup (block : Block.t) (id : string) :
  checkSignatures block !! id
  = card_isValid
      <$> last (filter (fun tx => Transaction.id tx = id)
                  (Block.transactions block)).
Proof.
  unfold checkSignatures. rewrite checkSignatures_fold.
  by destruct (last _).
Qed.

Lemma undefined_changes_message (wallet : WalletKeys) (recipient : string)
    (amount now : Z) :
  publicKeyPem wallet +:+ recipient +:+ JS.num_to_string amount
    +:+ "undefined" +:+ JS.num_to_string now
  <> handleSend_dataToSign wallet recipient amount now.
Proof.
  unfold handleSend_dataToSign. intros Heq.
  do 3 apply app_inv_head_s in Heq.
  rewrite <- (app_nil_s (JS.num_to_string now)) in Heq at 2.
  by apply app_inv_tail_s in Heq.
Qed.

(** X15.  The block card and the validator disagree on every transaction a
    wallet signs.  Under a signature scheme that accepts a signature for the
    signed message and for no other, a transaction of [handleSend] (no fee)
    passes [isChainValid] and is marked invalid on its card, whose message
    holds the text [undefined] where the fee would be; a transaction of
    [confirmSend] (with a fee) is marked valid on its card and fails
    [isChainValid].  The entry of [health] for an identifier is the verdict
    on the last transaction of the block that carries this identifier. *)
Theorem card_and_validator_disagree (wallet : WalletKeys)
    (recipient : string) (amount fee now : Z) (uuid : string) :
  (forall data data',
      verifySignature (publicKeyPem wallet)
        (signData (privateKey wallet) data) data' = true <-> data' = data) ->
  publicKeyPem wallet <> SYSTEM ->
  recipient <> "" ->
  (exists tx,
      handleSend wallet recipient amount now uuid = Some tx
      /\ card_isValid tx = false /\ ~ signature_rejected tx
      /\ forall block,
           last (filter (fun t => Transaction.id t = uuid)
                   (Block.transactions block)) = Some tx ->
           checkSignatures block !! uuid = Some false)
  /\ (exists tx,
        confirmSend wallet recipient amount fee now uuid = Some tx
        /\ card_isValid tx = true /\ signature_rejected tx
        /\ forall block,
             last (filter (fun t => Transaction.id t = uuid)
                     (Block.transactions block)) = Some tx ->
             checkSignatures block !! uuid = Some true).
Proof.
  intros Hscheme Hsys Hrecipient.
  assert (Hsound : forall data data',
             verifySignature (publicKeyPem wallet)
               (signData (privateKey wallet) data) data' = true ->
             data' = data) by (intros; by apply Hscheme).
  assert (Hcorrect : forall data,
             verifySignature (publicKeyPem wallet)
               (signData (privateKey wallet) data) data = true)
    by (intros; by apply Hscheme).
  split.
  - destruct (handleSend wallet recipient amount now uuid) as [tx|] eqn:Hsend.
    2:{ unfold handleSend, JS.falsy in Hsend. by case_bool_decide. }
    exists tx. split; [done|].
    assert (Hcard : card_isValid tx = false).
    { unfold handleSend in Hsend. destruct (JS.falsy recipient); [done|].
      injection Hsend as <-. unfold card_isValid, card_dataToVerify.
      cbn [Transaction.sender Transaction.recipient Transaction.amount
           Transaction.fee Transaction.timestamp Transaction.signature].
      rewrite bool_decide_false by done.
      apply not_true_is_false. intros Hv%Hsound.
      by apply (undefined_changes_message wallet recipient amount now). }
    split; [done|]. split; [by apply (handleSend_accepted wallet recipient
                                        amount now uuid)|].
    intros block Hlast. by rewrite checkSignatures_lookup, Hlast, <- Hcard.
  - destruct (confirmSend wallet recipient amount fee now uuid) as [tx|]
      eqn:Hsend.
    2:{ unfold confirmSend, JS.falsy in Hsend. by case_bool_decide. }
    exists tx. split; [done|].
    assert (Hcard : card_isValid tx = true).
    { unfold confirmSend in Hsend. destruct (JS.falsy recipient); [done|].
      injection Hsend as <-. unfold card_isValid, card_dataToVerify.
      cbn [Transaction.sender Transaction.recipient Transaction.amount
           Transaction.fee Transaction.timestamp Transaction.signature].
      rewrite bool_decide_false by done. apply Hcorrect. }
    split; [done|]. split; [by apply (confirmSend_rejected wallet recipient
                                        amount fee now uuid)|].
    intros block Hlast. by rewrite checkSignatures_lookup, Hlast, <- Hcard.
Qed.

End CardProperties.

Section ActivityProperties.

Lemma blockActivity_fold (publicKeyPem : string) (txs : list Transaction.t)
    (received sent : Z) :
  fold_left
    (fun '(received, sent) tx =>
       let received :=
         if bool_decide (Transaction.recipient tx = publicKeyPem)
         then received + Transaction.amount tx else received in
       let sent :=
         if bool_decide (Transaction.sender tx = publicKeyPem)
         then sent + (Transaction.amount tx + default 0 (Transaction.fee tx))
         else sent in
       (received, sent))
    txs (received, sent)
  = (received + sumZ (credit publicKeyPem <$> txs),
     sent + sumZ ((fun tx => debit publicKeyPem tx + fee_debit publicKeyPem tx)
                    <$> txs)).
Proof.
  revert received sent. induction txs as [|tx txs IH]; intros received sent.
  - simpl. f_equal; lia.
  - cbn [fold_left]. rewrite IH, !fmap_cons. cbn [sumZ foldr].
    fold (sumZ (credit publicKeyPem <$> txs)).
    fold (sumZ ((fun tx => debit publicKeyPem tx + fee_debit publicKeyPem tx)
                  <$> txs)).
    unfold credit at 2, debit at 2, fee_debit at 2.
    do 2 case_bool_decide; f_equal; lia.
Qed.

Lemma sumZ_filter {A : Type} (P : A -> Prop) `{forall x, Decision (P x)}
    (f : A -> Z) (l : list A) :
  (forall x, ~ P x -> f x = 0) ->
  sumZ (f <$> filter P l) = sumZ (f <$> l).
Proof.
  intros Hzero. induction l as [|x l IH]; [done|].
  rewrite filter_cons, fmap_cons. cbn [sumZ foldr]. fold (sumZ (f <$> l)).
  destruct (decide (P x)) as [HP|HP].
  - rewrite fmap_cons. cbn [sumZ foldr]. fold (sumZ (f <$> filter P l)). lia.
  - rewrite (Hzero x HP). lia.
Qed.

(** X16.  What the wallet shows for the selected block against what the
    engine books for it.  [blockActivity] on [relevantWalletTransactions]
    gives the amounts the wallet received in the block, the amounts plus
    fees it sent, and their difference; it is [null] exactly when no
    transaction of the block names the wallet.  The balance of the engine
    moves over the block by the net amount shown plus the fees of the
    wallet's own transactions: the fees the wallet displays as spent are
    never debited by [getBalanceOfAddress].  The balance before the block,
    the amounts and the fees of the block are integers whose absolute
    values add up to [2^53] at most, so that neither the wallet nor the
    engine rounds a sum. *)
Theorem blockActivity_against_balance (publicKeyPem : string)
    (block : Block.t) (balance : Z) :
  exact (balance :: (Transaction.amount <$> Block.transactions block)
           ++ (fee_or_0 <$> Block.transactions block)) ->
  let relevant :=
    App.relevantWalletTransactions (Some publicKeyPem) (Some block) in
  let fees := sumZ (fee_debit publicKeyPem <$> Block.transactions block) in
  match blockActivity relevant (Some publicKeyPem) with
  | Some activity =>
      received activity
      = sumZ (credit publicKeyPem <$> Block.transactions block)
      /\ sent activity
         = sumZ (debit publicKeyPem <$> Block.transactions block) + fees
      /\ net activity = received activity - sent activity
      /\ fold_left (committed publicKeyPem) (Block.transactions block) balance
         = balance + net activity + fees
      /\ Z.abs (received activity) <= 2 ^ 53
      /\ Z.abs (sent activity) <= 2 ^ 53
      /\ Z.abs (net activity) <= 2 ^ 53
      /\ Z.abs (balance + net activity + fees) <= 2 ^ 53
  | None =>
      (forall tx, tx ∈ Block.transactions block ->
                  Transaction.sender tx <> publicKeyPem
                  /\ Transaction.recipient tx <> publicKeyPem)
      /\ fold_left (committed publicKeyPem) (Block.transactions block) balance
         = balance
  end.
Proof.
  intros Hexact relevant fees. unfold blockActivity.
  unfold exact in Hexact.
  change (balance :: ?l) with ([balance] ++ l) in Hexact.
  rewrite !total_app in Hexact.
  assert (Hbalance : total [balance] = Z.abs balance)
    by (unfold total; cbn; lia).
  pose proof (sumZ_abs_le (credit publicKeyPem) Transaction.amount
                (Block.transactions block)) as Bcredit.
  pose proof (sumZ_abs_le (debit publicKeyPem) Transaction.amount
                (Block.transactions block)) as Bdebit.
  pose proof (sumZ_abs_le (fun tx => credit publicKeyPem tx
                                     - debit publicKeyPem tx)
                Transaction.amount (Block.transactions block)) as Bnet.
  pose proof (sumZ_abs_le (fee_debit publicKeyPem) fee_or_0
                (Block.transactions block)) as Bfee.
  rewrite (sumZ_sub (credit publicKeyPem) (debit publicKeyPem)) in Bnet.
  assert (Z.abs (sumZ (credit publicKeyPem <$> Block.transactions block))
          <= total (Transaction.amount <$> Block.transactions block))
    by (apply Bcredit; intros tx; unfold credit; case_bool_decide; lia).
  assert (Z.abs (sumZ (debit publicKeyPem <$> Block.transactions block))
          <= total (Transaction.amount <$> Block.transactions block))
    by (apply Bdebit; intros tx; unfold debit; case_bool_decide; lia).
  assert (Z.abs (sumZ (credit publicKeyPem <$> Block.transactions block)
                 - sumZ (debit publicKeyPem <$> Block.transactions block))
          <= total (Transaction.amount <$> Block.transactions block))
    by (apply Bnet; intros tx; unfold credit, debit;
        repeat case_bool_decide; lia).
  assert (Z.abs fees <= total (fee_or_0 <$> Block.transactions block))
    by (apply Bfee; intros tx; unfold fee_debit, fee_or_0;
        case_bool_decide; lia).
  clear Bcredit Bdebit Bnet Bfee.
  assert (Hcredit : sumZ (credit publicKeyPem <$> relevant)
                    = sumZ (credit publicKeyPem <$> Block.transactions block)).
  { apply (sumZ_filter _ (credit publicKeyPem)). intros tx Hno.
    unfold credit. case_bool_decide; [|done]. destruct Hno. by right. }
  assert (Hdebit : sumZ (debit publicKeyPem <$> relevant)
                   = sumZ (debit publicKeyPem <$> Block.transactions block)).
  { apply (sumZ_filter _ (debit publicKeyPem)). intros tx Hno.
    unfold debit. case_bool_decide; [|done]. destruct Hno. by left. }
  assert (Hfee : sumZ (fee_debit publicKeyPem <$> relevant) = fees).
  { apply (sumZ_filter _ (fee_debit publicKeyPem)). intros tx Hno.
    unfold fee_debit. case_bool_decide; [|done]. destruct Hno. by left. }
  rewrite fold_committed, (sumZ_sub (credit publicKeyPem) (debit publicKeyPem)).
  case_bool_decide as Hlen.
  - apply length_zero_iff_nil in Hlen. split.
    + intros tx Hin. split; intros Heq.
      * assert (Hrel : tx ∈ relevant)
          by (apply list_elem_of_filter; split; [by left|done]).
        rewrite Hlen in Hrel. inversion Hrel.
      * assert (Hrel : tx ∈ relevant)
          by (apply list_elem_of_filter; split; [by right|done]).
        rewrite Hlen in Hrel. inversion Hrel.
    + rewrite <- Hcredit, <- Hdebit, Hlen. simpl. lia.
  - rewrite blockActivity_fold.
    rewrite (sumZ_add (debit publicKeyPem) (fee_debit publicKeyPem)).
    cbn [received sent net]. rewrite Hcredit, Hdebit, Hfee.
    repeat split; lia.
Qed.

End ActivityProperties.

Section HexEdgeProperties.

Lemma parseInt16_not_a_number (c1 : ascii) (rest : string) :
  hex_value c1 = None -> is_space c1 = false ->
  Ascii.eqb c1 "-" = false -> Ascii.eqb c1 "+" = false ->
  parseInt16 (String c1 rest) = None.
Proof.
  intros Hhex Hspace Hminus Hplus. unfold parseInt16.
  cbn [trim_start]. rewrite Hspace, Hminus, Hplus.
  assert (Hzero : Ascii.eqb c1 "0" = false).
  { destruct (Ascii.eqb_spec c1 "0") as [->|]; [discriminate|done]. }
  destruct rest as [|c2 rest]; [by rewrite digits16_not_hex|].
  rewrite Hzero. cbn [andb]. by rewrite digits16_not_hex.
Qed.

(** X2.  [hexToBuffer] never fails and never reports a malformed string.
    Every element of the result is a byte; the regular expression cuts the
    string into pairs, so a string of [n] characters without line
    terminator gives [n / 2] bytes rounded up (the last one from a single
    digit when [n] is odd) and never more whatever it holds; a pair that
    does not begin with a hexadecimal digit, white space or a sign is read
    as [NaN] and stored as the byte 0. *)
Theorem hexToBuffer_total (hex : string) :
  ascii_only hex ->
  Forall (fun b => 0 <= b < 256) (hexToBuffer hex)
  /\ (2 * length (hexToBuffer hex) <= String.length hex + 1)%nat
  /\ (no_line_terminator hex ->
      (2 * length (hexToBuffer hex)
       = String.length hex + String.length hex mod 2)%nat)
  /\ (forall c1 c2 rest,
        hex = String c1 (String c2 rest) ->
        is_line_terminator c1 = false -> is_line_terminator c2 = false ->
        hex_value c1 = None -> is_space c1 = false ->
        Ascii.eqb c1 "-" = false -> Ascii.eqb c1 "+" = false ->
        hexToBuffer hex = 0 :: hexToBuffer rest).
Proof.
  intros _. unfold hexToBuffer. rewrite length_fmap.
  split; [|split; [|split]].
  - apply Forall_fmap, Forall_forall. intros chunk _. apply ToUint8_range.
  - by apply match_pairs_length_le with (String.length hex).
  - intros Hnt. by apply match_pairs_no_terminator with (String.length hex).
  - intros c1 c2 rest -> Hc1 Hc2 Hhex Hspace Hminus Hplus.
    rewrite (match_pairs_two _ _ _ Hc1 Hc2), fmap_cons.
    by rewrite parseInt16_not_a_number.
Qed.

End HexEdgeProperties.

Section GuardProperties.
Context `{WebCrypto}.


End GuardProperties.

(** * The further properties on runs of the engine and of the handlers *)

Section FurtherScenarios.
Import Demo Session.
Local Existing Instance browser.

Lemma hexToBuffer_total_witness :
  ascii_only "zz0g7"
  /\ hexToBuffer "zz0g7" = 0 :: hexToBuffer "0g7"
  /\ hexToBuffer "0g7" = [0; 7]
  /\ Forall (fun b => 0 <= b < 256) (hexToBuffer "zz0g7").
Proof.
  assert (Hascii : ascii_only "zz0g7").
  { intros c Hc. simpl in Hc.
    repeat (apply elem_of_cons in Hc as [->|Hc]); try reflexivity.
    inversion Hc. }
  destruct (hexToBuffer_total "zz0g7" Hascii) as (Hrange & _ & _ & Hzero).
  split; [exact Hascii|].
  split; [exact (Hzero "z"%char "z"%char "0g7" eq_refl eq_refl eq_refl eq_refl eq_refl
                   eq_refl eq_refl)|].
  split; [reflexivity|exact Hrange].
Defined.

Lemma mine_without_work_witness :
  getLatestBlock free_state = Some genesis_block
  /\ -1 <= difficulty free_state <= 0
  /\ exists b,
       mine 2 env1 "A1" free_state = Some (Normal (Some b), commit b free_state)
       /\ Block.nonce b = 0
       /\ Block.hash b
          = calculateHash (Block.index genesis_block + 1)
              (Block.hash genesis_block) (now_block env1)
              (pendingTransactions free_state ++ [rewardTx env1 "A1" free_state])
              0
       /\ Block.transactions b
          = pendingTransactions free_state ++ [rewardTx env1 "A1" free_state].
Proof.
  assert (HL : getLatestBlock free_state = Some genesis_block)
    by (vm_compute; reflexivity).
  assert (Hd : -1 <= difficulty free_state <= 0)
    by (vm_compute; split; discriminate).
  exact (conj HL (conj Hd
           (mine_without_work env1 "A1" free_state genesis_block HL Hd))).
Defined.

Lemma mine_unreachable_target_witness :
  (forall msg, length (SHA256.digest msg) = 32%nat)
  /\ getLatestBlock stuck_state = Some genesis_block
  /\ 64 < difficulty stuck_state
  /\ JS.Array_join (difficulty stuck_state + 1) "0"
     = inr (JS.repeat_string "0" 65)
  /\ (forall calls, mine calls env1 "A1" stuck_state = None)
  /\ (forall k, exists g,
        progress_calls (S k) env1 (NotStarted "A1") stuck_state
        = Some (g, stuck_state)
        /\ exists fr n h, g = AtProgressYield fr n h /\ 500 <= n).
Proof.
  assert (HL : getLatestBlock stuck_state = Some genesis_block)
    by (vm_compute; reflexivity).
  assert (Hd : 64 < difficulty stuck_state) by (vm_compute; reflexivity).
  assert (Ht : JS.Array_join (difficulty stuck_state + 1) "0"
               = inr (JS.repeat_string "0" 65)) by (vm_compute; reflexivity).
  exact (conj digest_length (conj HL (conj Hd (conj Ht
           (mine_unreachable_target env1 "A1" stuck_state genesis_block
              (JS.repeat_string "0" 65) digest_length HL Hd Ht))))).
Defined.

Lemma fee_run_completed :
  mine 2 (env2 1700000120033) "C3" fee_pending
  = Some (Normal (Some fee_block), fee_state).
Proof. vm_compute. reflexivity. Qed.

Lemma mine_then_validate_witness :
  isValid (isChainValid fee_pending) = true
  /\ mine 2 (env2 1700000120033) "C3" fee_pending
     = Some (Normal (Some fee_block), fee_state)
  /\ verifyTransactions (pendingTransactions fee_pending) = tx_fee
  /\ length (chain fee_pending) = 2%nat
  /\ isChainValid fee_state
     = match verifyTransactions (pendingTransactions fee_pending) with
       | Some _ =>
           {| isValid := false;
              errorBlockIndex := Z.of_nat (length (chain fee_pending)) |}
       | None => {| isValid := true; errorBlockIndex := -1 |}
       end.
Proof.
  assert (Hvalid : isValid (isChainValid fee_pending) = true)
    by (vm_compute; reflexivity).
  split; [exact Hvalid|]. split; [exact fee_run_completed|].
  split; [vm_compute; reflexivity|]. split; [vm_compute; reflexivity|].
  exact (mine_then_validate 2 (env2 1700000120033) "C3" fee_pending fee_state
           fee_block Hvalid fee_run_completed).
Defined.


Lemma balances_sum_witness :
  exact (amounts_of plain_state)
  /\ NoDup [SYSTEM; "A1"; "B2"; "C3"]
  /\ (fun a => getBalanceOfAddress a plain_state) <$> [SYSTEM; "A1"; "B2"; "C3"]
     = [-200; 90; 10; 100]
  /\ sumZ ((fun a => getBalanceOfAddress a plain_state)
             <$> [SYSTEM; "A1"; "B2"; "C3"])
     = - sumZ (Transaction.amount <$> pendingTransactions plain_state)
  /\ forall a, Z.abs (getBalanceOfAddress a plain_state) <= 2 ^ 53.
Proof.
  assert (Hexact : exact (amounts_of plain_state))
    by (vm_compute; discriminate).
  assert (Hnd : NoDup [SYSTEM; "A1"; "B2"; "C3"])
    by (apply (bool_decide_unpack _); vm_compute; exact I).
  split; [exact Hexact|]. split; [exact Hnd|].
  split; [vm_compute; reflexivity|].
  refine (balances_sum [SYSTEM; "A1"; "B2"; "C3"] plain_state Hexact Hnd _ _).
  - apply Forall_forall. apply (bool_decide_unpack _). vm_compute. exact I.
  - apply Forall_forall. apply (bool_decide_unpack _). vm_compute. exact I.
Defined.

Lemma corruptBlock_twice_witness :
  0 <= 0
  /\ chain genesis_state !! Z.to_nat 0 = Some genesis_block
  /\ Block.transactions genesis_block = []
  /\ let once := (corruptBlock 1700000200000 0 genesis_state).2 in
     let twice := (corruptBlock 1700000300000 0 once).2 in
     (Block.transactions genesis_block <> [] -> twice = once)
     /\ (Block.transactions genesis_block = [] ->
         chain once !! Z.to_nat 0
         = Some (Block.set_transactions [fakeTransaction 1700000200000]
                   genesis_block)
         /\ chain twice !! Z.to_nat 0
            = Some (Block.set_transactions
                      [Transaction.set_amount 999999999
                         (fakeTransaction 1700000200000)] genesis_block))
     /\ (forall j, j < 0 \/ Z.of_nat (length (chain genesis_state)) <= j ->
                   (corruptBlock 1700000200000 j genesis_state).2
                   = genesis_state).
Proof.
  assert (Hi : 0 <= 0) by lia.
  assert (Hb : chain genesis_state !! Z.to_nat 0 = Some genesis_block)
    by (vm_compute; reflexivity).
  split; [exact Hi|]. split; [exact Hb|]. split; [reflexivity|].
  exact (corruptBlock_twice 1700000200000 1700000300000 0 genesis_state
           genesis_block Hi Hb).
Defined.

(** The clicks of [history] lead to the engine of [plain_state]. *)
Lemma paid_blockchain :
  App.blockchain paid = plain_state /\ App.mining paid = App.Idle.
Proof. vm_compute. by split. Qed.

Lemma paid_reachable : App.reachable paid.
Proof. exists history. unfold paid. reflexivity. Qed.

Lemma reachable_chain_linked_witness :
  App.sequential history
  /\ length (chain (App.blockchain (App.run history App.start))) = 3%nat
  /\ let s := App.run history App.start in
     (forall i b, chain (App.blockchain s) !! i = Some b ->
                  Block.index b = Z.of_nat i)
     /\ (forall i p c,
           chain (App.blockchain s) !! i = Some p ->
           chain (App.blockchain s) !! S i = Some c ->
           Block.previousHash c = Block.hash p)
     /\ (forall i b,
           chain (App.blockchain s) !! S i = Some b ->
           App.ends_with_reward (Block.transactions b))
     /\ (forall i f,
           validate (chain (App.blockchain s)) = Some (i, f) ->
           f <> PreviousHashMismatch).
Proof.
  assert (Hseq : App.sequential history)
    by (apply single_init_sequential; vm_compute; lia).
  split; [exact Hseq|]. split; [vm_compute; reflexivity|].
  exact (reachable_chain_linked history Hseq).
Defined.

Lemma replay_requeues_user_transactions_witness :
  App.reachable paid
  /\ chain (App.blockchain paid) !! 2%nat = Some plain_block
  /\ App.userTxs plain_block = [late]
  /\ exists alert,
       App.handleReplayTransactions (Some plain_block) (App.blockchain paid)
       = (Normal (Some alert),
          set_pendingTransactions
            (pendingTransactions (App.blockchain paid)
               ++ App.userTxs plain_block) (App.blockchain paid)).
Proof.
  assert (Hb : chain (App.blockchain paid) !! 2%nat = Some plain_block)
    by (vm_compute; reflexivity).
  split; [exact paid_reachable|]. split; [exact Hb|].
  split; [vm_compute; reflexivity|].
  exact (replay_requeues_user_transactions paid 2 plain_block paid_reachable Hb).
Defined.

Lemma committed_block_is_kept_witness :
  chain (App.blockchain paid) !! 2%nat = Some plain_block
  /\ exists b',
       chain (App.blockchain
                (App.run [App.Tamper 1700000200000 2; App.Replay 2;
                          App.Tamper 1700000300000 0] paid)) !! 2%nat
       = Some b'
       /\ App.same_header plain_block b'
       /\ (Block.transactions plain_block <> [] ->
           Forall2 App.amount_rewritten (Block.transactions plain_block)
             (Block.transactions b')).
Proof.
  assert (Hb : chain (App.blockchain paid) !! 2%nat = Some plain_block)
    by (vm_compute; reflexivity).
  split; [exact Hb|].
  exact (committed_block_is_kept
           [App.Tamper 1700000200000 2; App.Replay 2;
            App.Tamper 1700000300000 0] paid 2 plain_block Hb).
Defined.

Lemma sent_while_mining_is_dropped_witness :
  App.mining opened = App.Idle
  /\ length (chain (App.blockchain opened)) = 1%nat
  /\ Forall App.not_a_click [App.Send late]
  /\ App.accepted late
  /\ length (chain (App.blockchain (App.resumeMining overtaken))) = 2%nat
  /\ late ∈ pendingTransactions (App.blockchain overtaken)
  /\ exists b,
       chain (App.blockchain (App.resumeMining overtaken))
       = chain (App.blockchain overtaken) ++ [b]
       /\ Block.transactions b
          = pendingTransactions (App.updateSettings 2 100 (App.blockchain opened))
              ++ [rewardTx env1 "A1"
                    (App.updateSettings 2 100 (App.blockchain opened))]
       /\ pendingTransactions (App.blockchain (App.resumeMining overtaken)) = [].
Proof.
  unfold overtaken.
  assert (Hidle : App.mining opened = App.Idle) by (vm_compute; reflexivity).
  assert (Hlen : length (chain (App.blockchain opened)) = 1%nat)
    by (vm_compute; reflexivity).
  assert (Hne : chain (App.blockchain opened) <> [])
    by (intros Hnil; vm_compute in Hnil; discriminate).
  assert (Hno : Forall App.not_a_click [App.Send late])
    by (repeat constructor; intros ? ? ? ?; discriminate).
  assert (Hacc : App.accepted late) by (vm_compute; repeat split; discriminate).
  assert (Hlen2 :
    length (chain (App.blockchain
                     (App.resumeMining
                        (App.run [App.Send late]
                           (App.mineBlock env1 (Some "A1") 2 100 opened)))))
    = 2%nat) by (vm_compute; reflexivity).
  assert (Hcommit :
    chain (App.blockchain
             (App.resumeMining
                (App.run [App.Send late]
                   (App.mineBlock env1 (Some "A1") 2 100 opened))))
    <> chain (App.blockchain
                (App.run [App.Send late]
                   (App.mineBlock env1 (Some "A1") 2 100 opened))))
    by (intros Heq; apply (f_equal length) in Heq; vm_compute in Heq;
        discriminate).
  pose proof (sent_while_mining_is_dropped opened env1 "A1" 2 100
                [App.Send late] Hidle Hne Hno Hcommit) as Hthm.
  split; [exact Hidle|]. split; [exact Hlen|]. split; [exact Hno|].
  split; [exact Hacc|]. split; [exact Hlen2|].
  split; [exact (proj1 Hthm late (list_elem_of_here _ _) Hacc)|].
  exact (proj2 Hthm).
Defined.

Lemma replay_run_completed :
  mine 2 env3 "D4" replayed = Some (Normal (Some replay_block), replay_state).
Proof. vm_compute. reflexivity. Qed.

Lemma replayed_block_is_paid_again_witness :
  exact (amounts_of plain_state
           ++ (Transaction.amount <$> App.userTxs plain_block)
           ++ [miningReward plain_state])
  /\ isValid (isChainValid plain_state) = true
  /\ (1 <= 2)%nat
  /\ chain plain_state !! 2%nat = Some plain_block
  /\ pendingTransactions plain_state = []
  /\ App.handleReplayTransactions (Some plain_block) plain_state
     = (Normal replay_alert, replayed)
  /\ (getBalanceOfAddress "A1" plain_state = 90
      /\ getBalanceOfAddress "B2" plain_state = 10
      /\ getBalanceOfAddress "A1" replay_state = 80
      /\ getBalanceOfAddress "B2" replay_state = 20)
  /\ isChainValid replay_state = {| isValid := true; errorBlockIndex := -1 |}
  /\ Block.transactions replay_block
     = App.userTxs plain_block ++ [rewardTx env3 "D4" plain_state]
  /\ forall address,
       getBalanceOfAddress address replay_state
       = getBalanceOfAddress address plain_state
         + sumZ ((fun tx => credit address tx - debit address tx)
                   <$> App.userTxs plain_block)
         + (if bool_decide ("D4" = address) then miningReward plain_state else 0)
         - (if bool_decide (SYSTEM = address) then miningReward plain_state
            else 0)
       /\ Z.abs (getBalanceOfAddress address plain_state) <= 2 ^ 53
       /\ Z.abs (getBalanceOfAddress address replay_state) <= 2 ^ 53.
Proof.
  assert (Hexact : exact (amounts_of plain_state
                            ++ (Transaction.amount <$> App.userTxs plain_block)
                            ++ [miningReward plain_state]))
    by (vm_compute; discriminate).
  assert (Hvalid : isValid (isChainValid plain_state) = true)
    by (vm_compute; reflexivity).
  assert (Hi : (1 <= 2)%nat) by lia.
  assert (Hb : chain plain_state !! 2%nat = Some plain_block)
    by (vm_compute; reflexivity).
  assert (Hpool : pendingTransactions plain_state = [])
    by (vm_compute; reflexivity).
  assert (Hreplay : App.handleReplayTransactions (Some plain_block) plain_state
                    = (Normal replay_alert, replayed))
    by (vm_compute; reflexivity).
  split; [exact Hexact|].
  split; [exact Hvalid|]. split; [exact Hi|]. split; [exact Hb|].
  split; [exact Hpool|]. split; [exact Hreplay|].
  split; [vm_compute; by repeat split|].
  exact (replayed_block_is_paid_again 2 env3 "D4" plain_state replayed
           replay_state 2 plain_block replay_block replay_alert
           Hexact Hvalid Hi Hb Hpool Hreplay replay_run_completed).
Defined.

Lemma card_and_validator_disagree_witness :
  (forall data data',
      @verifySignature readable "A1" (@signData readable "A1" data) data' = true
      <-> data' = data)
  /\ (exists tx,
        @handleSend readable (readable_wallet "A1") "B2" 10 1700000090000
          "7f0c9d3e-52a1-4c1b-9a58-0d6f4e2b8c11" = Some tx
        /\ @card_isValid readable tx = false
        /\ ~ @signature_rejected readable tx)
  /\ (exists tx,
        @confirmSend readable (readable_wallet "A1") "B2" 10 1 1700000090000
          "7f0c9d3e-52a1-4c1b-9a58-0d6f4e2b8c11" = Some tx
        /\ @card_isValid readable tx = true
        /\ @signature_rejected readable tx).
Proof.
  assert (Hscheme : forall data data',
             @verifySignature readable "A1" (@signData readable "A1" data) data'
             = true <-> data' = data).
  { intros data data'. cbn [verifySignature signData readable]. split.
    - intros Heq%bool_decide_eq_true. by apply app_inv_head_s in Heq.
    - intros ->. by apply bool_decide_eq_true. }
  pose proof (@card_and_validator_disagree readable (readable_wallet "A1")
                "B2" 10 1 1700000090000
                "7f0c9d3e-52a1-4c1b-9a58-0d6f4e2b8c11" Hscheme
                ltac:(discriminate) ltac:(discriminate)) as [Hplain Hfee].
  split; [exact Hscheme|]. split.
  - destruct Hplain as (tx & Hsend & Hcard & Hpass & _). exists tx.
    split; [exact Hsend|]. split; [exact Hcard|exact Hpass].
  - destruct Hfee as (tx & Hsend & Hcard & Hrej & _). exists tx.
    split; [exact Hsend|]. split; [exact Hcard|exact Hrej].
Defined.


Lemma blockActivity_against_balance_witness :
  exact (100 :: (Transaction.amount <$> Block.transactions plain_block)
           ++ (fee_or_0 <$> Block.transactions plain_block))
  /\ blockActivity
       (App.relevantWalletTransactions (Some "A1") (Some plain_block))
       (Some "A1")
     = Some {| received := 0; sent := 10; net := -10 |}
  /\ fold_left (committed "A1") (Block.transactions plain_block) 100 = 90
  /\ let relevant :=
       App.relevantWalletTransactions (Some "A1") (Some plain_block) in
     let fees := sumZ (fee_debit "A1" <$> Block.transactions plain_block) in
     match blockActivity relevant (Some "A1") with
     | Some activity =>
         received activity
         = sumZ (credit "A1" <$> Block.transactions plain_block)
         /\ sent activity
            = sumZ (debit "A1" <$> Block.transactions plain_block) + fees
         /\ net activity = received activity - sent activity
         /\ fold_left (committed "A1") (Block.transactions plain_block) 100
            = 100 + net activity + fees
         /\ Z.abs (received activity) <= 2 ^ 53
         /\ Z.abs (sent activity) <= 2 ^ 53
         /\ Z.abs (net activity) <= 2 ^ 53
         /\ Z.abs (100 + net activity + fees) <= 2 ^ 53
     | None =>
         (forall tx, tx ∈ Block.transactions plain_block ->
                     Transaction.sender tx <> "A1"
                     /\ Transaction.recipient tx <> "A1")
         /\ fold_left (committed "A1") (Block.transactions plain_block) 100
            = 100
     end.
Proof.
  assert (Hexact :
    exact (100 :: (Transaction.amount <$> Block.transactions plain_block)
             ++ (fee_or_0 <$> Block.transactions plain_block)))
    by (vm_compute; discriminate).
  split; [exact Hexact|]. split; [vm_compute; reflexivity|].
  split; [vm_compute; reflexivity|].
  exact (blockActivity_against_balance "A1" plain_block 100 Hexact).
Defined.

End FurtherScenarios.
